(** * A shallow embedding of the scope model and of the literal-array
      inlining pass of the deobfuscator

    Sources embedded here:
    - [src/scope/scope.ts]: the generic lexical scope, [Scope<T>];
    - [src/modifications/arrays/arrayUnpacker.ts]: the pass [ArrayUnpacker].

    JavaScript objects are references.  Scopes and array descriptors are
    mutated after they have been handed out, so both live in explicit
    stores and are addressed by identifiers; a syntax tree node carries its
    identity as a label. *)

From Stdlib Require Import QArith.
From Stdlib Require Qcanon.
From stdpp Require Import base option list strings gmap.
Close Scope Q_scope.
#[local] Set Warnings "-clear-no-such-hyp".

(** Identity of a [Shift.Node] object. *)
Definition NodeId := nat.
(** Address of a [Scope] object in the scope store. *)
Definition ScopeId := nat.
(** Address of an [Array] descriptor object in the descriptor store. *)
Definition ArrayId := nat.

(** ** Exceptions *)

Inductive Error :=
| JsError (message : string)      (* [throw new Error(...)] *)
| TypeError (message : string).   (* a property read on [undefined] *)

Inductive Result (A : Type) :=
| Ok (a : A)
| Throw (e : Error).
Arguments Ok {A} a.
Arguments Throw {A} e.

Definition bind {A B} (r : Result A) (k : A -> Result B) : Result B :=
  match r with
  | Ok a => k a
  | Throw e => Throw e
  end.

Notation "'let*' x := r 'in' k" := (bind r (fun x => k))
  (at level 10, x pattern, r at level 100, k at level 200, only parsing).

(** ** JavaScript [Map]

    A [Map] iterates in insertion order and [set] on a present key keeps
    the key's position; [removeArrays] iterates over two maps, so the order
    is kept: a map is an association list without duplicate keys. *)

Section JsMap.
Context {K V : Type} `{EqDecision K}.

Definition JsMap := list (K * V).

Fixpoint map_get (m : JsMap) (k : K) : option V :=
  match m with
  | [] => None
  | (k', v) :: m' => if decide (k = k') then Some v else map_get m' k
  end.

Definition map_has (m : JsMap) (k : K) : bool :=
  match map_get m k with
  | Some _ => true
  | None => false
  end.

Fixpoint map_set (m : JsMap) (k : K) (v : V) : JsMap :=
  match m with
  | [] => [(k, v)]
  | (k', v') :: m' =>
      if decide (k = k') then (k, v) :: m' else (k', v') :: map_set m' k v
  end.
End JsMap.
Arguments JsMap : clear implicits.

(** ** [scope.ts] *)

Module ScopeType.
Inductive t := Global | Function | Other.

#[global] Instance eq_dec : EqDecision t.
Proof. solve_decision. Defined.
End ScopeType.

Module VariableType.
(** ['var' | 'const' | 'let' | 'global'] *)
Inductive t := var | const | let_ | global.

(** The string that a value of the type is, as a template literal
    [`${type}`] renders it. *)
Definition to_string (type : t) : string :=
  match type with
  | var => "var"
  | const => "const"
  | let_ => "let"
  | global => "global"
  end.
End VariableType.

Module Scope.
Section WithElement.
Context {T : Type}.

Record t := mk {
  node : NodeId;
  type : ScopeType.t;
  parent : option ScopeId;
  children : JsMap NodeId ScopeId;
  elements : JsMap string T
}.

(** The scope store.  A scope is allocated after its parent (the
  constructor takes the parent as an argument), so the store is kept
  newest first: the scope with address [i] is the one with [i] older
  scopes behind it, and a walk up the parent chain is a walk down the
  store. *)
Definition Store := list t.

Fixpoint deref (h : Store) (this : ScopeId) : option t :=
  match h with
  | [] => None
  | s :: older => if decide (this = length older) then Some s else deref older this
  end.

Fixpoint update (h : Store) (this : ScopeId) (f : t -> t) : Store :=
  match h with
  | [] => []
  | s :: older =>
      if decide (this = length older) then f s :: older
      else s :: update older this f
  end.

(** [this.children.set(node, child)] *)
Definition set_child (h : Store) (this : ScopeId) (n : NodeId) (child : ScopeId) : Store :=
  update h this (fun s => mk (node s) (type s) (parent s)
                             (map_set (children s) n child) (elements s)).

(** [this.elements.set(name, element)] *)
Definition set_element (h : Store) (this : ScopeId) (name : string) (element : T) : Store :=
  update h this (fun s => mk (node s) (type s) (parent s)
                             (children s) (map_set (elements s) name element)).

(** [new Scope(node, type, parent)]: the fresh scope and the store in
  which it is allocated and registered with its parent. *)
Definition new (h : Store) (node : NodeId) (type : ScopeType.t)
    (parent : option ScopeId) : ScopeId * Store :=
  let this := length h in
  let h :=
    match parent with
    | Some p => set_child h p node this
    | None => h
    end in
  (this, mk node type parent [] [] :: h).

(** [get(name)] *)
Fixpoint get (h : Store) (this : ScopeId) (name : string) : option T :=
  match h with
  | [] => None
  | s :: older =>
      if decide (this = length older) then
        if map_has (elements s) name then map_get (elements s) name
        else
          match parent s with
          | Some p => get older p name
          | None => None
          end
      else get older this name
  end.

(** [findScope(types)]: the [while] loop climbs while the scope is
  defined and its type is not among [types]. *)
Fixpoint findScope (h : Store) (this : ScopeId) (types : list ScopeType.t)
    : option ScopeId :=
  match h with
  | [] => None
  | s :: older =>
      if decide (this = length older) then
        if bool_decide (type s ∈ types) then Some this
        else
          match parent s with
          | Some p => findScope older p types
          | None => None
          end
      else findScope older this types
  end.

(** [add(name, element, type = 'const')].  [None] is an omitted (or
  [undefined]) third argument; the default value replaces it before
  the [switch] runs.  The [switch] has the labels ['const'], ['let'],
  ['var'] and [undefined], and no [default] label. *)
Definition add (h : Store) (this : ScopeId) (name : string) (element : T)
    (type : option VariableType.t) : Result Store :=
  let type : option VariableType.t := Some (default VariableType.const type) in
  match type with
  | Some VariableType.const
  | Some VariableType.let_ =>
      Ok (set_element h this name element)
  | Some VariableType.var =>
      match findScope h this [ScopeType.Function; ScopeType.Global] with
      | None => Throw (JsError ("Failed to find scope for var " +:+ name))
      | Some scope => Ok (set_element h scope name element)
      end
  | None =>
      match findScope h this [ScopeType.Global] with
      | None => Throw (JsError ("Failed to find scope for global var " +:+ name))
      | Some scope => Ok (set_element h scope name element)
      end
  | Some VariableType.global => Ok h
  end.

(** [getDeclarationScope(type)] *)
Definition getDeclarationScope (h : Store) (this : ScopeId)
    (type : VariableType.t) : Result ScopeId :=
  match type with
  | VariableType.const
  | VariableType.let_ => Ok this
  | VariableType.var
  | VariableType.global =>
      let scopeTypes :=
        match type with
        | VariableType.var => [ScopeType.Function; ScopeType.Global]
        | _ => [ScopeType.Global]
        end in
      match findScope h this scopeTypes with
      | None =>
          Throw (JsError ("Failed to find scope for variable declaration type "
                          +:+ VariableType.to_string type))
      | Some scope => Ok scope
      end
  end.

(** *** Vocabulary for the statements about scopes *)

(** The scopes from [this] up to the root, nearest first. *)
Fixpoint chain (h : Store) (this : ScopeId) : list ScopeId :=
  match h with
  | [] => []
  | s :: older =>
      if decide (this = length older) then
        this :: match parent s with
                | Some p => chain older p
                | None => []
                end
      else chain older this
  end.

(** The type of the scope at an address. *)
Definition type_at (h : Store) (i : ScopeId) : option ScopeType.t :=
  type <$> deref h i.

(** The binding of [name] held by the scope at an address itself. *)
Definition binding_at (h : Store) (i : ScopeId) (name : string) : option T :=
  deref h i ≫= fun s => map_get (elements s) name.

Definition has_type_in (h : Store) (types : list ScopeType.t) (i : ScopeId) : bool :=
  match type_at h i with
  | Some ty => bool_decide (ty ∈ types)
  | None => false
  end.

(** The first binding of [name] held by one of the scopes [ids]. *)
Fixpoint first_binding (h : Store) (name : string) (ids : list ScopeId) : option T :=
  match ids with
  | [] => None
  | i :: ids =>
      match binding_at h i name with
      | Some v => Some v
      | None => first_binding h name ids
      end
  end.
End WithElement.
Arguments t : clear implicits.
Arguments Store : clear implicits.
End Scope.

(** ** The program tree ([shift-ast])

    A node is a JavaScript object; [id] is its identity.  Two occurrences
    of one [id] in a tree are two slots that hold the same object.
    Identifiers and literals have no child nodes.  The children of the
    other nodes are listed in the order of the node's fields; [None] is a
    [null] slot (a hole of an array literal, an absent initializer). *)

Inductive LeafType :=
| BindingIdentifier (name : string)
| IdentifierExpression (name : string)
| LiteralNumericExpression (value : Q)
| LiteralStringExpression (value : string)
| LiteralBooleanExpression (value : bool)
| LiteralNullExpression
| LiteralInfinityExpression
| LiteralRegExpExpression (pattern : string)
| OtherLeaf (type : string).

Inductive InnerType :=
| Script                    (* children: the statements *)
| Block                     (* children: the statements *)
| FunctionBody              (* children: the statements *)
| VariableDeclaration       (* children: the declarators *)
| ArrayExpression           (* children: the elements *)
| VariableDeclarator        (* children: [binding; init] *)
| ComputedMemberExpression  (* children: [object; expression] *)
| OtherInner (type : string). (* any other kind; children: its fields *)

Unset Elimination Schemes.
Inductive Node :=
| Leaf (id : NodeId) (type : LeafType)
| Inner (id : NodeId) (type : InnerType) (children : list (option Node)).
Set Elimination Schemes.

(** Structural induction over a tree, through the lists of children. *)
Section NodeInduction.
Variable P : Node -> Prop.
Hypothesis leaf_case : forall id type, P (Leaf id type).
Hypothesis inner_case : forall id type children,
  Forall (fun slot => match slot with
                      | Some c => P c
                      | None => True
                      end) children ->
  P (Inner id type children).

Fixpoint Node_ind (n : Node) : P n :=
  match n with
  | Leaf id type => leaf_case id type
  | Inner id type children =>
      inner_case id type children
        ((fix all (cs : list (option Node))
            : Forall (fun slot => match slot with
                                  | Some c => P c
                                  | None => True
                                  end) cs :=
            match cs with
            | [] => List.Forall_nil _
            | Some c :: cs => List.Forall_cons _ (Some c) cs (Node_ind c) (all cs)
            | None :: cs => List.Forall_cons _ None cs I (all cs)
            end) children)
  end.
End NodeInduction.

Definition node_id (n : Node) : NodeId :=
  match n with
  | Leaf id _ => id
  | Inner id _ _ => id
  end.

(** [slot] holds the object [node]. *)
Definition holds (node : NodeId) (slot : option Node) : bool :=
  match slot with
  | Some n => bool_decide (node_id n = node)
  | None => false
  end.

(** The kinds whose children form one ordered sequence (an array-valued
    field); the fields of the other kinds hold one node each. *)
Definition isSequence (type : InnerType) : bool :=
  match type with
  | Script | Block | FunctionBody | VariableDeclaration | ArrayExpression => true
  | VariableDeclarator | ComputedMemberExpression | OtherInner _ => false
  end.

(** All nodes of a tree, in the order in which a walk enters them. *)
Fixpoint nodes (n : Node) : list Node :=
  n :: match n with
       | Leaf _ _ => []
       | Inner _ _ children =>
           flat_map (fun c => match c with
                              | Some c => nodes c
                              | None => []
                              end) children
       end.

(** The identities of the variable declarators of a tree. *)
Definition isDeclarator (n : Node) : bool :=
  match n with
  | Inner _ VariableDeclarator _ => true
  | _ => false
  end.

Definition declarators (n : Node) : gset NodeId :=
  list_to_set (node_id <$> filter (fun n => isDeclarator n = true) (nodes n)).

(** The slots of a tree that hold the object [node], each given by the
    identity of the node that owns the slot. *)
Definition parents_of (node : NodeId) (tree : Node) : list NodeId :=
  flat_map (fun p => match p with
                     | Leaf _ _ => []
                     | Inner id _ children =>
                         (fun _ => id) <$> filter (fun c => holds node c = true) children
                     end) (nodes tree).

(** ** The traversal engine *)

Section Traverse.
Context {S : Type}.

(** The children of a node, visited in order; a [null] slot is skipped. *)
Section VisitEach.
Variable visit : Node -> S -> Result S.

Fixpoint visit_each (children : list (option Node)) (s : S) : Result S :=
  match children with
  | [] => Ok s
  | None :: children => visit_each children s
  | Some c :: children => let* s := visit c s in visit_each children s
  end.
End VisitEach.

Variable enter : Node -> option Node -> S -> Result S.
Variable leave : Node -> S -> Result S.

(** Modelled from the spec: [traverse] of [helpers/traverse.ts], which is
    not among the sources.  A depth-first walk that calls
    [enter(node, parent)] before and [leave(node)] after the children of
    a node, in the order of the children.  The walk follows the nodes as
    they are when it starts: the visitors of this pass change only the
    slot of the parent that holds the node just entered, never the
    children of a node the walk has yet to descend into. *)
Fixpoint traverse (node : Node) (parent : option Node) (s : S) : Result S :=
  let* s := enter node parent s in
  let* s :=
    match node with
    | Leaf _ _ => Ok s
    | Inner _ _ children => visit_each (fun c => traverse c (Some node)) children s
    end in
  leave node s.
End Traverse.

(** Modelled from the spec: [TraversalHelper.replaceNode(parent, node,
    replacement)] of [helpers/traversalHelper.ts], which is not among the
    sources.  "Swaps newNode into the exact slot oldNode occupied in
    parent": the tree after the slots of the object [parent] that hold
    [node] have received [replacement]. *)
Fixpoint replaceNode (parent node : NodeId) (replacement : Node) (tree : Node) : Node :=
  match tree with
  | Leaf _ _ => tree
  | Inner id type children =>
      Inner id type
        (map (fun slot =>
                match slot with
                | Some c =>
                    if bool_decide (id = parent) && bool_decide (node_id c = node)
                    then Some replacement
                    else Some (replaceNode parent node replacement c)
                | None => None
                end) children)
  end.

(** Modelled from the spec: [TraversalHelper.removeNode(parent, node)] of
    [helpers/traversalHelper.ts], which is not among the sources.
    "Removes node's ownership slot from parent (splicing out of an ordered
    sequence, or clearing an optional field)". *)
Fixpoint removeNode (parent node : NodeId) (tree : Node) : Node :=
  match tree with
  | Leaf _ _ => tree
  | Inner id type children =>
      let children :=
        map (fun slot =>
               match slot with
               | Some c => Some (removeNode parent node c)
               | None => None
               end) children in
      Inner id type
        (if bool_decide (id = parent) then
           if isSequence type
           then filter (fun slot => holds node slot = false) children
           else map (fun slot => if holds node slot then None else slot) children
         else children)
  end.

(** ** The array descriptor *)

Module Array.
(** Modelled from the spec: the class [Array] of
    [modifications/arrays/array.ts], which is not among the sources.
    "Originating declaration node, its owning parent node, the bound
    name, the ordered sequence of literal element values, and a mutable
    usage counter starting at zero". *)
Record t := mk {
  node : NodeId;
  parentNode : option NodeId;
  name : string;
  elements : list (option Node);
  replaceCount : nat
}.

Definition new (node : NodeId) (parentNode : option NodeId) (name : string)
    (elements : list (option Node)) : t :=
  mk node parentNode name elements 0.

(** [array.replaceCount++] *)
Definition incr (a : t) : t :=
  mk (node a) (parentNode a) (name a) (elements a) (S (replaceCount a)).
End Array.

(** ** [arrayUnpacker.ts] *)

Module ArrayUnpacker.

(** The pass object, the tree it works on and the objects it has
    allocated: [scopes] holds the [Scope<Array>] objects and [arrays] the
    [Array] objects (the address of a descriptor is its position). *)
Record t := mk {
  ast : Node;
  shouldRemoveArrays : bool;
  globalScope : ScopeId;
  arrayNodes : gset NodeId;
  scopes : Scope.Store ArrayId;
  arrays : list Array.t
}.

(** [scopeTypes.has(node.type)], with [scopeTypes = {'Block', 'FunctionBody'}] *)
Definition isScopeType (node : Node) : bool :=
  match node with
  | Inner _ Block _ | Inner _ FunctionBody _ => true
  | _ => false
  end.

(** [e.type.startsWith('Literal')] *)
Definition isLiteral (e : Node) : bool :=
  match e with
  | Leaf _ (LiteralNumericExpression _)
  | Leaf _ (LiteralStringExpression _)
  | Leaf _ (LiteralBooleanExpression _)
  | Leaf _ LiteralNullExpression
  | Leaf _ LiteralInfinityExpression
  | Leaf _ (LiteralRegExpExpression _) => true
  | _ => false
  end.

(** [isLiteralArrayDeclaration(node)] *)
Definition isLiteralArrayDeclaration (node : Node) : bool :=
  match node with
  | Inner _ VariableDeclarator
      [Some (Leaf _ (BindingIdentifier _)); Some (Inner _ ArrayExpression elements)] =>
      match find (fun e => match e with
                           | Some e => negb (isLiteral e)
                           | None => false
                           end) elements with
      | None => true
      | Some _ => false
      end
  | _ => false
  end.

(** [isSimpleArrayAccess(node)] *)
Definition isSimpleArrayAccess (node : Node) : bool :=
  match node with
  | Inner _ ComputedMemberExpression
      [Some (Leaf _ (IdentifierExpression _));
       Some (Leaf _ (LiteralNumericExpression _))] => true
  | _ => false
  end.

(** The property reads [(node as any).binding.name],
    [(node as any).init.elements], [(node as any).object.name] and
    [(node as any).expression.value]. *)
Definition binding_name (node : Node) : Result string :=
  match node with
  | Inner _ VariableDeclarator (Some (Leaf _ (BindingIdentifier name)) :: _) => Ok name
  | _ => Throw (TypeError "binding.name")
  end.

Definition init_elements (node : Node) : Result (list (option Node)) :=
  match node with
  | Inner _ VariableDeclarator [_; Some (Inner _ ArrayExpression elements)] => Ok elements
  | _ => Throw (TypeError "init.elements")
  end.

Definition object_name (node : Node) : Result string :=
  match node with
  | Inner _ ComputedMemberExpression (Some (Leaf _ (IdentifierExpression name)) :: _) => Ok name
  | _ => Throw (TypeError "object.name")
  end.

Definition expression_value (node : Node) : Result Q :=
  match node with
  | Inner _ ComputedMemberExpression [_; Some (Leaf _ (LiteralNumericExpression value))] =>
      Ok value
  | _ => Throw (TypeError "expression.value")
  end.

(** [elements[index]] for a number [index]: the element at that position
    when [index] is a natural number within the array, [undefined]
    otherwise.  The outer [None] is [undefined], [Some None] is [null]. *)
Definition element_at (elements : list (option Node)) (index : Q) : option (option Node) :=
  let index := Qred index in
  if bool_decide (Qden index = 1%positive) && bool_decide (0 ≤ Qnum index)%Z
  then elements !! Z.to_nat (Qnum index)
  else None.

(** A variable that may hold [undefined] ([None]); a method call or a
    property read through it throws. *)
Definition defined (scope : option ScopeId) : Result ScopeId :=
  match scope with
  | Some scope => Ok scope
  | None => Throw (TypeError "scope is undefined")
  end.

(** The scope object behind a reference. *)
Definition the_scope (self : t) (scope : option ScopeId) : Result (Scope.t ArrayId) :=
  let* scope := defined scope in
  match Scope.deref (scopes self) scope with
  | Some s => Ok s
  | None => Throw (TypeError "scope is undefined")
  end.

(** [new ArrayUnpacker(ast, removeArrays)] *)
Definition new (ast : Node) (removeArrays : bool) : t :=
  let (globalScope, scopes) := Scope.new [] (node_id ast) ScopeType.Other None in
  mk ast removeArrays globalScope ∅ scopes [].

(** *** [findArrays] *)

(** The variables the visitor of [findArrays] closes over. *)
Record Finding := finding {
  f_self : t;
  f_scope : ScopeId;
  f_foundArrays : bool
}.

Definition findArrays_enter (node : Node) (parent : option Node) (s : Finding)
    : Result Finding :=
  let self := f_self s in
  if isScopeType node then
    let (scope, scopes) :=
      Scope.new (scopes self) (node_id node) ScopeType.Other (Some (f_scope s)) in
    Ok (finding (mk (ast self) (shouldRemoveArrays self) (globalScope self)
                    (arrayNodes self) scopes (arrays self))
                scope (f_foundArrays s))
  else if isLiteralArrayDeclaration node
          && negb (bool_decide (node_id node ∈ arrayNodes self)) then
    let* name := binding_name node in
    let* elements := init_elements node in
    let array := length (arrays self) in
    let arrays := arrays self ++ [Array.new (node_id node) (node_id <$> parent) name elements] in
    let* scopes := Scope.add (scopes self) (f_scope s) name array None in
    Ok (finding (mk (ast self) (shouldRemoveArrays self) (globalScope self)
                    ({[node_id node]} ∪ arrayNodes self) scopes arrays)
                (f_scope s) true)
  else Ok s.

Definition findArrays_leave (node : Node) (s : Finding) : Result Finding :=
  let* scope := the_scope (f_self s) (Some (f_scope s)) in
  match Scope.parent scope with
  | Some parent =>
      if bool_decide (node_id node = Scope.node scope)
      then Ok (finding (f_self s) parent (f_foundArrays s))
      else Ok s
  | None => Ok s
  end.

Definition findArrays (self : t) : Result (bool * t) :=
  let* s := traverse findArrays_enter findArrays_leave (ast self) None
              (finding self (globalScope self) false) in
  Ok (f_foundArrays s, f_self s).

(** *** [unpackArrays] *)

(** The variables the visitor of [unpackArrays] closes over.  The cast
    [scope.children.get(node) as Scope<Array>] may leave [undefined] in
    [scope]. *)
Record Unpacking := unpacking {
  u_self : t;
  u_scope : option ScopeId
}.

Definition unpackArrays_enter (node : Node) (parent : option Node) (s : Unpacking)
    : Result Unpacking :=
  let self := u_self s in
  if isScopeType node then
    let* scope := the_scope self (u_scope s) in
    Ok (unpacking self (map_get (Scope.children scope) (node_id node)))
  else if isSimpleArrayAccess node then
    let* name := object_name node in
    let* scope := defined (u_scope s) in
    match Scope.get (scopes self) scope name with
    | Some array =>
        let* index := expression_value node in
        match arrays self !! array with
        | Some descriptor =>
            match element_at (Array.elements descriptor) index with
            | Some (Some replacement) =>
                let arrays := <[array := Array.incr descriptor]> (arrays self) in
                match parent with
                | Some parent =>
                    Ok (unpacking
                          (mk (replaceNode (node_id parent) (node_id node) replacement (ast self))
                              (shouldRemoveArrays self) (globalScope self)
                              (arrayNodes self) (scopes self) arrays)
                          (u_scope s))
                | None => Throw (TypeError "parent is undefined")
                end
            | _ => Ok s
            end
        | None => Throw (TypeError "array is undefined")
        end
    | None => Ok s
    end
  else Ok s.

Definition unpackArrays_leave (node : Node) (s : Unpacking) : Result Unpacking :=
  let* scope := the_scope (u_self s) (u_scope s) in
  match Scope.parent scope with
  | Some parent =>
      if bool_decide (node_id node = Scope.node scope)
      then Ok (unpacking (u_self s) (Some parent))
      else Ok s
  | None => Ok s
  end.

Definition unpackArrays (self : t) : Result t :=
  let* s := traverse unpackArrays_enter unpackArrays_leave (ast self) None
              (unpacking self (Some (globalScope self))) in
  Ok (u_self s).

(** *** [removeArrays] *)

(** The first loop of [removeArrays]: the descriptors of one scope. *)
Fixpoint removeArrays_elements (arrays : list Array.t)
    (elements : JsMap string ArrayId) (tree : Node) : Result Node :=
  match elements with
  | [] => Ok tree
  | (_, array) :: elements =>
      match arrays !! array with
      | Some descriptor =>
          if bool_decide (0 < Array.replaceCount descriptor) then
            match Array.parentNode descriptor with
            | Some parent =>
                removeArrays_elements arrays elements
                  (removeNode parent (Array.node descriptor) tree)
            | None => Throw (TypeError "parent is undefined")
            end
          else removeArrays_elements arrays elements tree
      | None => Throw (TypeError "array is undefined")
      end
  end.

(** [removeArrays(scope)].  The recursion follows the [children] maps;
    [depth] bounds its depth, and [None] is a walk cut short by it. *)
Fixpoint removeArrays (depth : nat) (self : t) (scope : ScopeId) (tree : Node)
    : option (Result Node) :=
  match depth with
  | 0 => None
  | S depth =>
      match the_scope self (Some scope) with
      | Throw e => Some (Throw e)
      | Ok s =>
          match removeArrays_elements (arrays self) (Scope.elements s) tree with
          | Throw e => Some (Throw e)
          | Ok tree =>
              (fix each (children : JsMap NodeId ScopeId) (tree : Node)
                 : option (Result Node) :=
                 match children with
                 | [] => Some (Ok tree)
                 | (_, child) :: children =>
                     match removeArrays depth self child tree with
                     | Some (Ok tree) => each children tree
                     | r => r
                     end
                 end) (Scope.children s) tree
          end
      end
  end.

(** *** [execute] *)

(** The loop [while (this.findArrays()) this.unpackArrays()], cut after
    [rounds] evaluations of its condition; [None] is a loop cut short. *)
Fixpoint fixpoint_loop (rounds : nat) (self : t) : option (Result t) :=
  match rounds with
  | 0 => None
  | S rounds =>
      match findArrays self with
      | Throw e => Some (Throw e)
      | Ok (true, self) =>
          match unpackArrays self with
          | Throw e => Some (Throw e)
          | Ok self => fixpoint_loop rounds self
          end
      | Ok (false, self) => Some (Ok self)
      end
  end.

Definition with_ast (self : t) (tree : Node) : t :=
  mk tree (shouldRemoveArrays self) (globalScope self) (arrayNodes self)
     (scopes self) (arrays self).

Definition execute (rounds : nat) (self : t) : option (Result t) :=
  match fixpoint_loop rounds self with
  | Some (Ok self) =>
      if shouldRemoveArrays self then
        match removeArrays (length (scopes self)) self (globalScope self) (ast self) with
        | Some (Ok tree) => Some (Ok (with_ast self tree))
        | Some (Throw e) => Some (Throw e)
        | None => None
        end
      else Some (Ok self)
  | r => r
  end.

(** *** Vocabulary for the statements about the pass *)

(** The pass objects a run goes through: the object the constructor
    builds and the objects a discovery or a rewrite traversal leaves. *)
Inductive running (tree : Node) (removeArrays : bool) : t -> Prop :=
| running_new :
    running tree removeArrays (new tree removeArrays)
| running_findArrays self found self' :
    running tree removeArrays self ->
    findArrays self = Ok (found, self') ->
    running tree removeArrays self'
| running_unpackArrays self self' :
    running tree removeArrays self ->
    unpackArrays self = Ok self' ->
    running tree removeArrays self'.

(** The store [h] is a tree of scopes, all of kind [Other], rooted at
    [root]: the root has no parent and every other scope has a parent,
    which is an older scope. *)
Definition scope_tree (h : Scope.Store ArrayId) (root : ScopeId) : Prop :=
  (exists s, Scope.deref h root = Some s /\ Scope.parent s = None)
  /\ (forall i s, Scope.deref h i = Some s -> Scope.type s = ScopeType.Other)
  /\ (forall i s, Scope.deref h i = Some s -> i ≠ root ->
        exists p, Scope.parent s = Some p /\ p < i).

(** What the discovery visitor keeps true of its scopes: they form a
    tree and the current scope is one of them. *)
Definition finding_scopes (root : ScopeId) (s : Finding) : Prop :=
  globalScope (f_self s) = root
  /\ scope_tree (scopes (f_self s)) root
  /\ f_scope s < length (scopes (f_self s)).

(** The identities of the nodes that open a scope, in the order in which
    a walk enters them. *)
Fixpoint scope_ids (t : Node) : list NodeId :=
  match t with
  | Leaf _ _ => []
  | Inner id _ children =>
      (if isScopeType t then [id] else [])
      ++ flat_map (fun slot => match slot with
                               | Some c => scope_ids c
                               | None => []
                               end) children
  end.

(** A property of all the children of a node. *)
Section AllChildren.
Variable P : Node -> Prop.

Fixpoint all_children (children : list (option Node)) : Prop :=
  match children with
  | [] => True
  | Some c :: children => P c /\ all_children children
  | None :: children => all_children children
  end.
End AllChildren.

(** Leaving the node [id] with current scope [s] keeps [s] current: the
    test [node == scope.node && scope.parent] of [leave] fails. *)
Definition stays (h : Scope.Store ArrayId) (s : ScopeId) (id : NodeId) : Prop :=
  exists ss,
    Scope.deref h s = Some ss /\ (Scope.parent ss = None \/ Scope.node ss ≠ id).

(** The scope [c] is the child that [s] holds for the node [id]. *)
Definition registered (h : Scope.Store ArrayId) (s : ScopeId) (id : NodeId) (c : ScopeId)
    : Prop :=
  exists ss sc,
    Scope.deref h s = Some ss
    /\ map_get (Scope.children ss) id = Some c
    /\ Scope.deref h c = Some sc
    /\ Scope.node sc = id
    /\ Scope.parent sc = Some s.

(** The scopes of [h] under [s] mirror the blocks and function bodies of
    the tree [t]: a walk over [t] that starts with current scope [s] finds
    a child scope at every node that opens one and comes back to [s]. *)
Fixpoint mirrors (h : Scope.Store ArrayId) (t : Node) (s : ScopeId) : Prop :=
  match t with
  | Leaf id _ => stays h s id
  | Inner id _ children =>
      if isScopeType t
      then exists c, registered h s id c /\ all_children (fun t' => mirrors h t' c) children
      else stays h s id /\ all_children (fun t' => mirrors h t' s) children
  end.

(** The store [h'] has the scopes of [h], with the same opening node and
    parent, and with the same child for every node outside [K]. *)
Definition extends (K : list NodeId) (h h' : Scope.Store ArrayId) : Prop :=
  forall i ss,
    Scope.deref h i = Some ss ->
    exists ss',
      Scope.deref h' i = Some ss'
      /\ Scope.node ss' = Scope.node ss
      /\ Scope.parent ss' = Scope.parent ss
      /\ forall key, key ∉ K ->
            map_get (Scope.children ss') key = map_get (Scope.children ss) key.

(** The descriptors that the scopes bind exist. *)
Definition bound_arrays_exist (self : t) : Prop :=
  forall i ss name array,
    Scope.deref (scopes self) i = Some ss ->
    map_get (Scope.elements ss) name = Some array ->
    array < length (arrays self).

(** Every node that opens a scope has an identity of its own: no other
    node of the tree, and no element of a descriptor, has it. *)
Definition blocks_distinct (self : t) : Prop :=
  NoDup (scope_ids (ast self))
  /\ (forall n, n ∈ nodes (ast self) -> isScopeType n = false ->
                node_id n ∉ scope_ids (ast self))
  /\ (forall descriptor e,
        descriptor ∈ arrays self -> Some e ∈ Array.elements descriptor ->
        isLiteral e = true /\ node_id e ∉ scope_ids (ast self)).

(** The root of a program is not a member access. *)
Definition isProgram (t : Node) : bool :=
  match t with
  | Inner _ ComputedMemberExpression _ => false
  | _ => true
  end.

(** Leaving any of the nodes [N] with current scope [s] keeps [s] current. *)
Definition stays_all (h : Scope.Store ArrayId) (s : ScopeId) (N : list Node) : Prop :=
  exists ss,
    Scope.deref h s = Some ss
    /\ (Scope.parent ss = None \/ forall n, n ∈ N -> Scope.node ss ≠ node_id n).

(** The discovery walk over [t] comes back to the scope it starts with,
    keeps the scopes it finds, and leaves a store that mirrors [t]. *)
Definition discovery_mirrors (t : Node) : Prop :=
  forall (p : option Node) (st st' : Finding),
    stays_all (scopes (f_self st)) (f_scope st) (nodes t) ->
    traverse findArrays_enter findArrays_leave t p st = Ok st' ->
    f_scope st' = f_scope st
    /\ extends (scope_ids t)
         (scopes (f_self st))
         (scopes (f_self st'))
    /\ mirrors (scopes (f_self st')) t
         (f_scope st).

(** A pass object is well formed when its scopes form a tree, the
    descriptors they bind exist, every node that opens a scope has an
    identity of its own, and the root of the tree is a program. *)
Definition well_formed (self : t) : Prop :=
  scope_tree (scopes self) (globalScope self)
  /\ bound_arrays_exist self
  /\ blocks_distinct self
  /\ isProgram (ast self) = true.

(** Every descriptor holds only elements whose declarators are in [U]. *)
Definition elements_within (U : gset NodeId) (arrays : list Array.t) : Prop :=
  forall descriptor e,
    descriptor ∈ arrays -> Some e ∈ Array.elements descriptor -> declarators e ⊆ U.
End ArrayUnpacker.

(** ** Example inputs *)

Module Examples.
(** A root scope of kind [Global] (address 0) opened by node 0 and a
    block scope (address 1) opened by node 1 under it. *)
Definition global_and_block : Scope.Store nat :=
  let (root, h) := Scope.new [] 0 ScopeType.Global None in
  snd (Scope.new h 1 ScopeType.Other (Some root)).

(** A root scope of kind [Function] with a block scope under it. *)
Definition function_and_block : Scope.Store nat :=
  let (root, h) := Scope.new [] 0 ScopeType.Function None in
  snd (Scope.new h 1 ScopeType.Other (Some root)).

(** The scopes of the shadowing scenario: [A] (address 0) binds [x] to 1,
    its child [B] (address 1) binds [x] to 2, [S] (address 2) is a
    sibling of [B] and [D] (address 3) a child of [B]. *)
Definition shadowing_A : Scope.Store nat := snd (Scope.new [] 0 ScopeType.Global None).
Definition shadowing_A' : Scope.Store nat := Scope.set_element shadowing_A 0 "x" 1.
Definition shadowing_B : Scope.Store nat :=
  snd (Scope.new shadowing_A' 1 ScopeType.Other (Some 0)).
Definition shadowing_B' : Scope.Store nat := Scope.set_element shadowing_B 1 "x" 2.
Definition shadowing_S : Scope.Store nat :=
  snd (Scope.new shadowing_B' 2 ScopeType.Other (Some 0)).
Definition shadowing : Scope.Store nat :=
  snd (Scope.new shadowing_S 3 ScopeType.Other (Some 1)).

(** Builders for the example programs.  The identities of the nodes of a
    statement are consecutive from the identity given. *)
Definition number (id : NodeId) (value : Z) : Node :=
  Leaf id (LiteralNumericExpression (inject_Z value)).

(** [name[index];] as nodes [id .. id + 3] *)
Definition access_statement (id : NodeId) (name : string) (index : Z) : Node :=
  Inner id (OtherInner "ExpressionStatement")
    [Some (Inner (id + 1) ComputedMemberExpression
             [Some (Leaf (id + 2) (IdentifierExpression name));
              Some (number (id + 3) index)])].

(** [const name = [elements];] as nodes [id .. id + 4]; the declaration
    is [id + 1], the declarator [id + 2], the array literal [id + 4]. *)
Definition array_statement (id : NodeId) (name : string)
    (elements : list (option Node)) : Node :=
  Inner id (OtherInner "VariableDeclarationStatement")
    [Some (Inner (id + 1) VariableDeclaration
             [Some (Inner (id + 2) VariableDeclarator
                      [Some (Leaf (id + 3) (BindingIdentifier name));
                       Some (Inner (id + 4) ArrayExpression elements)])])].

(** [const a = [1, 2]; a[5];] *)
Definition out_of_range : Node :=
  Inner 0 Script
    [Some (array_statement 10 "a" [Some (number 20 1); Some (number 21 2)]);
     Some (access_statement 30 "a" 5)].

(** [const a = [1, 2]; a[0]; a[0];] *)
Definition inlined_twice : Node :=
  Inner 0 Script
    [Some (array_statement 10 "a" [Some (number 20 1); Some (number 21 2)]);
     Some (access_statement 30 "a" 0);
     Some (access_statement 40 "a" 0)].

(** [const a = [1, , 3]; a[1];] *)
Definition with_hole : Node :=
  Inner 0 Script
    [Some (array_statement 10 "a" [Some (number 20 1); None; Some (number 22 3)]);
     Some (access_statement 30 "a" 1)].

(** [function f() { const a = [1, 2]; a[0]; }] *)
Definition in_function : Node :=
  Inner 0 Script
    [Some (Inner 1 (OtherInner "FunctionDeclaration")
             [Some (Leaf 2 (BindingIdentifier "f"));
              Some (Inner 3 (OtherInner "FormalParameters") []);
              Some (Inner 4 FunctionBody
                      [Some (array_statement 10 "a"
                               [Some (number 20 1); Some (number 21 2)]);
                       Some (access_statement 30 "a" 0)])])].

(** [const x = [7, 8]; const a = [1]; x[a[0]];] *)
Definition nested_index : Node :=
  Inner 0 Script
    [Some (array_statement 10 "x" [Some (number 20 7); Some (number 21 8)]);
     Some (array_statement 30 "a" [Some (number 40 1)]);
     Some (Inner 50 (OtherInner "ExpressionStatement")
             [Some (Inner 51 ComputedMemberExpression
                      [Some (Leaf 52 (IdentifierExpression "x"));
                       Some (Inner 53 ComputedMemberExpression
                               [Some (Leaf 54 (IdentifierExpression "a"));
                                Some (number 55 0)])])])].

(** The pass object after one discovery round. *)
Definition discovered (tree : Node) (removeArrays : bool) : ArrayUnpacker.t :=
  match ArrayUnpacker.findArrays (ArrayUnpacker.new tree removeArrays) with
  | Ok (_, self) => self
  | Throw _ => ArrayUnpacker.new tree removeArrays
  end.

(** The pass object after a run of the pass on a tree. *)
Definition executed (tree : Node) (removeArrays : bool) : option (Result ArrayUnpacker.t) :=
  ArrayUnpacker.execute (S (size (declarators tree))) (ArrayUnpacker.new tree removeArrays).

(** The pass object a run of the pass leaves. *)
Definition executed_self (tree : Node) (removeArrays : bool) : ArrayUnpacker.t :=
  match executed tree removeArrays with
  | Some (Ok self) => self
  | _ => ArrayUnpacker.new tree removeArrays
  end.

(** The tree a run of the pass leaves. *)
Definition executed_tree (tree : Node) (removeArrays : bool) : option Node :=
  match executed tree removeArrays with
  | Some (Ok self) => Some (ArrayUnpacker.ast self)
  | _ => None
  end.

(** The descriptors a run of the pass leaves. *)
Definition executed_arrays (tree : Node) (removeArrays : bool) : option (list Array.t) :=
  match executed tree removeArrays with
  | Some (Ok self) => Some (ArrayUnpacker.arrays self)
  | _ => None
  end.
End Examples.

(** ** Vocabulary for the properties of the discovery and rewrite rounds *)

(** A slot of an array literal that [isLiteralArrayDeclaration] accepts:
    a hole or a literal. *)
Definition literal_or_hole (slot : option Node) : Prop :=
  match slot with
  | Some e => ArrayUnpacker.isLiteral e = true
  | None => True
  end.

(** The identities of the literal array declarations of a tree. *)
Definition literal_arrays (tree : Node) : gset NodeId :=
  list_to_set
    (node_id <$> filter (fun n => ArrayUnpacker.isLiteralArrayDeclaration n = true) (nodes tree)).

(** The descriptors [new] are descriptors of literal array declarations
    of the tree of [self] that [self] has not seen, one for each, with
    a usage counter of zero. *)
Definition fresh_descriptors (self : ArrayUnpacker.t) (new : list Array.t) : Prop :=
  NoDup (Array.node <$> new)
  /\ Forall (fun d =>
               Array.node d ∈ literal_arrays (ArrayUnpacker.ast self)
               /\ (Array.node d ∉ ArrayUnpacker.arrayNodes self)
               /\ Array.replaceCount d = 0
               /\ Forall literal_or_hole (Array.elements d)) new.

(** The descriptor [d'] is the descriptor [d] after some inlinings: only
    the usage counter differs, and it has not gone down. *)
Definition counted_up (d d' : Array.t) : Prop :=
  Array.node d' = Array.node d
  /\ Array.parentNode d' = Array.parentNode d
  /\ Array.name d' = Array.name d
  /\ Array.elements d' = Array.elements d
  /\ Array.replaceCount d ≤ Array.replaceCount d'.

(** What the discovery visitor keeps true, from the pass object [self] on
    which the round starts. *)
Definition appending (self : ArrayUnpacker.t) (s : ArrayUnpacker.Finding) : Prop :=
  ArrayUnpacker.ast (ArrayUnpacker.f_self s) = ArrayUnpacker.ast self
  /\ ArrayUnpacker.shouldRemoveArrays (ArrayUnpacker.f_self s)
     = ArrayUnpacker.shouldRemoveArrays self
  /\ ArrayUnpacker.globalScope (ArrayUnpacker.f_self s) = ArrayUnpacker.globalScope self
  /\ exists new,
       ArrayUnpacker.arrays (ArrayUnpacker.f_self s) = ArrayUnpacker.arrays self ++ new
       /\ ArrayUnpacker.arrayNodes (ArrayUnpacker.f_self s)
          = ArrayUnpacker.arrayNodes self ∪ list_to_set (Array.node <$> new)
       /\ fresh_descriptors self new
       /\ (ArrayUnpacker.f_foundArrays s = true <-> new ≠ []).

(** What the rewrite visitor keeps true, from the pass object [self] on
    which the round starts: the descriptors only count up, and the tree
    has changed only if some usage counter has gone up. *)
Definition counting (self : ArrayUnpacker.t) (s : ArrayUnpacker.Unpacking) : Prop :=
  Forall2 counted_up (ArrayUnpacker.arrays self) (ArrayUnpacker.arrays (ArrayUnpacker.u_self s))
  /\ (ArrayUnpacker.ast (ArrayUnpacker.u_self s) = ArrayUnpacker.ast self
      \/ exists i d d',
           ArrayUnpacker.arrays self !! i = Some d
           /\ ArrayUnpacker.arrays (ArrayUnpacker.u_self s) !! i = Some d'
           /\ Array.replaceCount d < Array.replaceCount d').

(** ** Vocabulary for the properties of the cleanup *)

(** The tree after [removeNode(d.parentNode, d.node)] for each of the
    descriptors [ds], in order. *)
Definition removals (ds : list Array.t) (tree : Node) : Node :=
  foldl (fun tree d =>
           match Array.parentNode d with
           | Some parent => removeNode parent (Array.node d) tree
           | None => tree
           end) tree ds.

(** Every entry of a [children] map leads from a scope to a scope that
    was allocated after it. *)
Definition children_newer (h : Scope.Store ArrayId) : Prop :=
  forall i s k c,
    Scope.deref h i = Some s -> (k, c) ∈ Scope.children s -> i < c < length h.

(** Every entry of an [elements] map leads to a descriptor that exists. *)
Definition bindings_exist (self : ArrayUnpacker.t) : Prop :=
  forall i s name array,
    Scope.deref (ArrayUnpacker.scopes self) i = Some s ->
    (name, array) ∈ Scope.elements s ->
    array < length (ArrayUnpacker.arrays self).

(** Every descriptor has recorded a parent node. *)
Definition parents_recorded (arrays : list Array.t) : Prop :=
  Forall (fun d => is_Some (Array.parentNode d)) arrays.

(** What the cleanup relies on. *)
Definition cleanup_ready (self : ArrayUnpacker.t) : Prop :=
  children_newer (ArrayUnpacker.scopes self)
  /\ bindings_exist self
  /\ parents_recorded (ArrayUnpacker.arrays self).

(** ** Vocabulary for what [add] and a run leave as they are *)

(** The scope [s'] is the scope [s] but for its binding of [name]. *)
Definition differs_at_most_at {T} (name : string) (s s' : Scope.t T) : Prop :=
  Scope.node s' = Scope.node s
  /\ Scope.type s' = Scope.type s
  /\ Scope.parent s' = Scope.parent s
  /\ Scope.children s' = Scope.children s
  /\ forall name', name' ≠ name ->
       map_get (Scope.elements s') name' = map_get (Scope.elements s) name'.

(** Every literal among the nodes of [t] is one of the [originals]. *)
Definition literals_among (originals : list Node) (t : Node) : Prop :=
  forall n, n ∈ nodes t -> ArrayUnpacker.isLiteral n = true -> n ∈ originals.

(** Every element of the descriptors is a literal and one of the
    [originals]. *)
Definition elements_among (originals : list Node) (arrays : list Array.t) : Prop :=
  forall d e,
    d ∈ arrays -> Some e ∈ Array.elements d ->
    ArrayUnpacker.isLiteral e = true /\ e ∈ originals.

(** ** Vocabulary for the reach of the cleanup *)

(** The blocks and function bodies of a tree that are not inside another
    one: the nodes at which a discovery walk over the tree opens a scope
    under the scope it starts with. *)
Fixpoint top_ids (t : Node) : list NodeId :=
  match t with
  | Leaf _ _ => []
  | Inner id _ children =>
      if ArrayUnpacker.isScopeType t then [id]
      else flat_map (fun slot => match slot with
                                 | Some c => top_ids c
                                 | None => []
                                 end) children
  end.

(** The [children] map [m'] is the map [m] after scopes allocated at
    address [L] or later have been registered for the nodes [ks]. *)
Definition registers (L : nat) (ks : list NodeId) (m m' : JsMap NodeId ScopeId) : Prop :=
  (forall k, is_Some (map_get m' k) -> is_Some (map_get m k) \/ k ∈ ks)
  /\ (forall k c, map_get m' k = Some c -> (map_get m k = Some c /\ k ∉ ks) \/ L ≤ c).

(** The discovery walk over [t] registers fresh scopes for the top blocks
    of [t] in the scope it starts with, and changes no other entry of the
    [children] of that scope. *)
Definition discovery_registers (t : Node) : Prop :=
  forall (p : option Node) (st st' : ArrayUnpacker.Finding) (ss : Scope.t ArrayId),
    ArrayUnpacker.stays_all (ArrayUnpacker.scopes (ArrayUnpacker.f_self st))
      (ArrayUnpacker.f_scope st) (nodes t) ->
    Scope.deref (ArrayUnpacker.scopes (ArrayUnpacker.f_self st)) (ArrayUnpacker.f_scope st)
    = Some ss ->
    traverse ArrayUnpacker.findArrays_enter ArrayUnpacker.findArrays_leave t p st = Ok st' ->
    exists ss',
      Scope.deref (ArrayUnpacker.scopes (ArrayUnpacker.f_self st')) (ArrayUnpacker.f_scope st)
      = Some ss'
      /\ registers (length (ArrayUnpacker.scopes (ArrayUnpacker.f_self st))) (top_ids t)
           (Scope.children ss) (Scope.children ss').

(** The current scope of the discovery visitor is the scope [c] or a scope
    opened under it, and the scopes older than [c] have the [children]
    they have in [h0]. *)
Definition descends (c : ScopeId) (N : list Node) (h0 : Scope.Store ArrayId)
    (st : ArrayUnpacker.Finding) : Prop :=
  let h := ArrayUnpacker.scopes (ArrayUnpacker.f_self st) in
  c ≤ ArrayUnpacker.f_scope st < length h
  /\ (forall x sx, c < x -> Scope.deref h x = Some sx ->
        exists q, Scope.parent sx = Some q /\ c ≤ q < x)
  /\ (exists sc, Scope.deref h c = Some sc
                 /\ (Scope.parent sc = None \/ forall n, n ∈ N -> Scope.node sc ≠ node_id n))
  /\ (forall i s, i < c -> Scope.deref h0 i = Some s ->
        exists s', Scope.deref h i = Some s' /\ Scope.children s' = Scope.children s).

(** The nodes of a tree that are not literals have identities of their
    own: two of them with one identity are one node. *)
Definition nonliterals_distinct (t : Node) : Prop :=
  forall m n,
    m ∈ nodes t -> n ∈ nodes t -> node_id m = node_id n ->
    ArrayUnpacker.isLiteral m = false -> ArrayUnpacker.isLiteral n = false -> m = n.

(** No node of [t] that has the identity of an access [name[index]] of
    [snapshot] holds a block or a function body. *)
Definition accesses_hold_no_block (snapshot t : Node) : Prop :=
  forall a c,
    a ∈ nodes snapshot -> ArrayUnpacker.isSimpleArrayAccess a = true ->
    c ∈ nodes t -> node_id c = node_id a -> ArrayUnpacker.scope_ids c = [].

(** What the rewrite visitor keeps true of the blocks of the tree, from
    the pass object [self] on which the round starts. *)
Definition keeping_blocks (self : ArrayUnpacker.t) (s : ArrayUnpacker.Unpacking) : Prop :=
  let t := ArrayUnpacker.ast (ArrayUnpacker.u_self s) in
  nonliterals_distinct t
  /\ accesses_hold_no_block (ArrayUnpacker.ast self) t
  /\ ArrayUnpacker.scope_ids t = ArrayUnpacker.scope_ids (ArrayUnpacker.ast self)
  /\ top_ids t = top_ids (ArrayUnpacker.ast self)
  /\ (forall d e, d ∈ ArrayUnpacker.arrays (ArrayUnpacker.u_self s) ->
                  Some e ∈ Array.elements d -> ArrayUnpacker.isLiteral e = true).

(** The [children] of the root scope hold entries for top blocks of the
    tree only, and no [children] map holds two entries for one node. *)
Definition top_blocks_registered (self : ArrayUnpacker.t) : Prop :=
  (forall root k,
      Scope.deref (ArrayUnpacker.scopes self) (ArrayUnpacker.globalScope self) = Some root ->
      is_Some (map_get (Scope.children root) k) ->
      k ∈ top_ids (ArrayUnpacker.ast self))
  /\ (forall i s, Scope.deref (ArrayUnpacker.scopes self) i = Some s ->
                  NoDup (Scope.children s).*1).

(** What a discovery round keeps true of the scopes, from a store of
    [L] scopes: no [children] map holds two entries for one node, and
    until an array is found the scopes that the round opens bind
    nothing. *)
Definition opening_empty (L : nat) (s : ArrayUnpacker.Finding) : Prop :=
  L ≤ length (ArrayUnpacker.scopes (ArrayUnpacker.f_self s))
  /\ (forall i ss, Scope.deref (ArrayUnpacker.scopes (ArrayUnpacker.f_self s)) i = Some ss ->
                   NoDup (Scope.children ss).*1)
  /\ (ArrayUnpacker.f_foundArrays s = false ->
      forall i ss, L ≤ i ->
                   Scope.deref (ArrayUnpacker.scopes (ArrayUnpacker.f_self s)) i = Some ss ->
                   Scope.elements ss = []).

(** What a run keeps true on a program whose nodes have identities of
    their own. *)
Definition settled (self : ArrayUnpacker.t) : Prop :=
  ArrayUnpacker.well_formed self
  /\ nonliterals_distinct (ArrayUnpacker.ast self)
  /\ top_blocks_registered self.

(** * Properties *)

(** ** Maps *)

Section JsMapFacts.
Context {K V : Type} `{EqDecision K}.
Implicit Types (m : JsMap K V) (k : K) (v : V).

Lemma map_get_set_eq m k v : map_get (map_set m k v) k = Some v.
Proof.
  induction m as [|[k' v'] m IH]; simpl.
  - by rewrite decide_True.
  - destruct (decide (k = k')) as [->|Hne]; simpl.
    + by rewrite decide_True.
    + by rewrite decide_False.
Qed.

Lemma map_get_set_ne m k k' v : k ≠ k' -> map_get (map_set m k v) k' = map_get m k'.
Proof.
  intros Hne. induction m as [|[k0 v0] m IH]; simpl.
  - rewrite decide_False; [done|congruence].
  - destruct (decide (k = k0)) as [->|Hk]; simpl.
    + rewrite !decide_False; [done|congruence|congruence].
    + destruct (decide (k' = k0)); [done|apply IH].
Qed.

Lemma map_has_true m k : map_has m k = true <-> is_Some (map_get m k).
Proof.
  unfold map_has. destruct (map_get m k); split; intros Hs; done.
Qed.
End JsMapFacts.

(** ** The scope store *)

Section ScopeFacts.
Context {T : Type}.
Implicit Types (h : Scope.Store T) (this : ScopeId) (name : string).

Lemma update_length h this f : length (Scope.update h this f) = length h.
Proof.
  induction h as [|s h IH]; simpl; [done|].
  destruct (decide (this = length h)); simpl; by rewrite ?IH.
Qed.

Lemma deref_lt h this s : Scope.deref h this = Some s -> this < length h.
Proof.
  induction h as [|s' h IH]; simpl; [done|].
  destruct (decide (this = length h)); [lia|]. intros Hd. apply IH in Hd. lia.
Qed.

Lemma deref_is_Some h this : this < length h -> is_Some (Scope.deref h this).
Proof.
  induction h as [|s' h IH]; simpl; [lia|].
  destruct (decide (this = length h)); [by eexists|]. intros Hlt. apply IH. lia.
Qed.

Lemma deref_older s h this :
  this < length h -> Scope.deref (s :: h) this = Scope.deref h this.
Proof. intros Hlt. simpl. destruct (decide (this = length h)); [lia|done]. Qed.

Lemma deref_newest s h : Scope.deref (s :: h) (length h) = Some s.
Proof. simpl. by rewrite decide_True. Qed.

Lemma deref_update_eq h this f s :
  Scope.deref h this = Some s -> Scope.deref (Scope.update h this f) this = Some (f s).
Proof.
  induction h as [|s' h IH]; simpl; [done|].
  destruct (decide (this = length h)) as [->|Hne]; simpl.
  - rewrite decide_True; [|done]. congruence.
  - rewrite update_length, decide_False; [|done]. apply IH.
Qed.

Lemma deref_update_ne h this other f :
  this ≠ other -> Scope.deref (Scope.update h this f) other = Scope.deref h other.
Proof.
  intros Hne. induction h as [|s' h IH]; simpl; [done|].
  destruct (decide (this = length h)) as [->|Hthis]; simpl.
  - destruct (decide (other = length h)); [congruence|done].
  - rewrite update_length. destruct (decide (other = length h)); [done|apply IH].
Qed.

Lemma update_invalid h this f : length h ≤ this -> Scope.update h this f = h.
Proof.
  induction h as [|s' h IH]; simpl; [done|]. intros Hle.
  rewrite decide_False; [|lia]. rewrite IH; [done|lia].
Qed.

Lemma chain_lt h this i : i ∈ Scope.chain h this -> i < length h.
Proof.
  revert this. induction h as [|s h IH]; simpl; intros this.
  - by intros ?%elem_of_nil.
  - destruct (decide (this = length h)) as [->|Hne].
    + intros [->|Hin]%elem_of_cons; [lia|].
      destruct (Scope.parent s) as [p|]; [|by apply elem_of_nil in Hin].
      apply IH in Hin. lia.
    + intros Hin%IH. lia.
Qed.

Lemma has_type_in_older s h types i :
  i < length h -> Scope.has_type_in (s :: h) types i = Scope.has_type_in h types i.
Proof.
  intros Hlt. unfold Scope.has_type_in, Scope.type_at. by rewrite deref_older.
Qed.

Lemma binding_at_older s h i name :
  i < length h -> Scope.binding_at (s :: h) i name = Scope.binding_at h i name.
Proof. intros Hlt. unfold Scope.binding_at. by rewrite deref_older. Qed.

Lemma find_ext_elem_of {A} (f g : A -> bool) (l : list A) :
  (forall x, x ∈ l -> f x = g x) -> find f l = find g l.
Proof.
  induction l as [|x l IH]; simpl; [done|]. intros Hfg.
  rewrite (Hfg x) by (apply elem_of_cons; by left).
  destruct (g x); [done|]. apply IH. intros y Hy. apply Hfg. apply elem_of_cons. by right.
Qed.

(** The loop of [findScope] returns the first scope of the chain whose
    type is among [types]. *)
Lemma findScope_chain h this types :
  Scope.findScope h this types = find (Scope.has_type_in h types) (Scope.chain h this).
Proof.
  revert this. induction h as [|s h IH]; simpl; intros this; [done|].
  destruct (decide (this = length h)) as [->|Hne].
  - simpl. unfold Scope.has_type_in at 1, Scope.type_at. rewrite deref_newest. simpl.
    destruct (bool_decide (Scope.type s ∈ types)); [done|].
    destruct (Scope.parent s) as [p|]; [|done].
    rewrite IH. apply find_ext_elem_of.
    intros i Hi%chain_lt. by rewrite has_type_in_older.
  - rewrite IH. apply find_ext_elem_of.
    intros i Hi%chain_lt. by rewrite has_type_in_older.
Qed.

Lemma find_None_Forall {A} (f : A -> bool) (l : list A) :
  find f l = None <-> Forall (fun x => f x = false) l.
Proof.
  induction l as [|x l IH]; simpl.
  - split; [constructor|done].
  - destruct (f x) eqn:Hx.
    + split; [done|]. intros Hall. inversion Hall; congruence.
    + rewrite IH. split; [by constructor|]. intros Hall. by inversion Hall.
Qed.

Lemma find_first {A} (f : A -> bool) (near far : list A) (x : A) :
  Forall (fun y => f y = false) near -> f x = true -> find f (near ++ x :: far) = Some x.
Proof.
  intros Hnear Hx. induction Hnear as [|y near Hy _ IH]; simpl.
  - by rewrite Hx.
  - by rewrite Hy.
Qed.

Lemma binding_at_set_element_eq h this name element :
  this < length h ->
  Scope.binding_at (Scope.set_element h this name element) this name = Some element.
Proof.
  intros [s Hs]%deref_is_Some. unfold Scope.binding_at, Scope.set_element.
  erewrite deref_update_eq by done. simpl. apply map_get_set_eq.
Qed.

Lemma binding_at_set_element_other h this other name name' element :
  this ≠ other ->
  Scope.binding_at (Scope.set_element h this name element) other name'
  = Scope.binding_at h other name'.
Proof.
  intros Hne. unfold Scope.binding_at, Scope.set_element. by rewrite deref_update_ne.
Qed.
End ScopeFacts.

Section ScopeLookup.
Context {T : Type}.
Implicit Types (h : Scope.Store T) (this : ScopeId) (name : string).

Lemma first_binding_ext h h' name ids :
  (forall i, i ∈ ids -> Scope.binding_at h i name = Scope.binding_at h' i name) ->
  Scope.first_binding h name ids = Scope.first_binding h' name ids.
Proof.
  induction ids as [|i ids IH]; simpl; [done|]. intros Hext.
  rewrite (Hext i) by (apply elem_of_cons; by left).
  destruct (Scope.binding_at h' i name); [done|].
  apply IH. intros j Hj. apply Hext, elem_of_cons. by right.
Qed.

(** [get] climbs the chain and stops at the first scope that binds the
    name. *)
Lemma get_chain h this name :
  Scope.get h this name = Scope.first_binding h name (Scope.chain h this).
Proof.
  revert this. induction h as [|s h IH]; simpl; intros this; [done|].
  destruct (decide (this = length h)) as [->|Hne].
  - simpl. unfold Scope.binding_at at 1. rewrite deref_newest. simpl.
    unfold map_has. destruct (map_get (Scope.elements s) name); [done|].
    destruct (Scope.parent s) as [p|]; [|done].
    rewrite IH. apply first_binding_ext.
    intros i Hi%chain_lt. by rewrite binding_at_older.
  - rewrite IH. apply first_binding_ext.
    intros i Hi%chain_lt. by rewrite binding_at_older.
Qed.

Lemma first_binding_None h name ids :
  Scope.first_binding h name ids = None
  <-> Forall (fun i => Scope.binding_at h i name = None) ids.
Proof.
  induction ids as [|i ids IH]; simpl.
  - split; [constructor|done].
  - destruct (Scope.binding_at h i name) eqn:Hi.
    + split; [done|]. intros Hall. inversion Hall; congruence.
    + rewrite IH. split; [by constructor|]. intros Hall. by inversion Hall.
Qed.

Lemma first_binding_nearest h name near target far v :
  Forall (fun i => Scope.binding_at h i name = None) near ->
  Scope.binding_at h target name = Some v ->
  Scope.first_binding h name (near ++ target :: far) = Some v.
Proof.
  intros Hnear Ht. induction Hnear as [|i near Hi _ IH]; simpl.
  - by rewrite Ht.
  - by rewrite Hi.
Qed.

Lemma get_newest s h this name :
  this = length h ->
  Scope.get (s :: h) this name =
  if map_has (Scope.elements s) name then map_get (Scope.elements s) name
  else match Scope.parent s with
       | Some p => Scope.get h p name
       | None => None
       end.
Proof. intros ->. simpl. by rewrite decide_True. Qed.

Lemma get_older s h this name :
  this < length h -> Scope.get (s :: h) this name = Scope.get h this name.
Proof. intros Hlt. simpl. destruct (decide (this = length h)); [lia|done]. Qed.

Lemma get_set_child h p n child this name :
  Scope.get (Scope.set_child h p n child) this name = Scope.get h this name.
Proof.
  unfold Scope.set_child. revert this.
  induction h as [|s h IH]; simpl; intros this; [done|].
  destruct (decide (p = length h)) as [->|Hp]; simpl.
  - done.
  - rewrite update_length. destruct (decide (this = length h)); [|apply IH].
    destruct (map_has _ _); [done|]. destruct (Scope.parent s); [apply IH|done].
Qed.

Lemma get_set_element_eq h this name element :
  this < length h -> Scope.get (Scope.set_element h this name element) this name = Some element.
Proof.
  unfold Scope.set_element.
  induction h as [|s h IH]; simpl; [lia|]. intros Hlt.
  destruct (decide (this = length h)) as [->|Hne]; simpl.
  - rewrite decide_True by done. unfold map_has. by rewrite map_get_set_eq.
  - rewrite update_length, decide_False by done. apply IH. lia.
Qed.

Lemma get_set_element_newer h this newer name name' element :
  this < newer ->
  Scope.get (Scope.set_element h newer name' element) this name = Scope.get h this name.
Proof.
  unfold Scope.set_element. intros Hlt.
  induction h as [|s h IH]; simpl; [done|].
  case_decide as Hnew; simpl.
  - subst newer. destruct (decide (this = length h)); [lia|done].
  - rewrite update_length. destruct (decide (this = length h)) as [->|?]; [|apply IH].
    rewrite update_invalid; [done|lia].
Qed.

(** What [new Scope(n, ty, p)] changes for [get]: nothing in the scopes
    there were, and the new scope reads through its parent. *)
Lemma new_get h n ty p i h' :
  Scope.new h n ty p = (i, h') ->
  i = length h /\ length h' = S (length h)
  /\ (forall j name, j < length h -> Scope.get h' j name = Scope.get h j name)
  /\ (forall name, Scope.get h' i name
                   = match p with
                     | Some p => Scope.get h p name
                     | None => None
                     end).
Proof.
  unfold Scope.new. intros [= <- <-]. destruct p as [p|].
  - assert (Hlen : length (Scope.set_child h p n (length h)) = length h)
      by apply update_length.
    split; [done|]. split; [cbn [length]; by rewrite Hlen|]. split.
    + intros j name Hj. rewrite get_older by (by rewrite Hlen). apply get_set_child.
    + intros name. rewrite get_newest by done. simpl. apply get_set_child.
  - split; [done|]. split; [done|]. split.
    + intros j name Hj. by rewrite get_older.
    + intros name. by rewrite get_newest.
Qed.

Lemma add_unspecified_get h i name v h' :
  Scope.add h i name v None = Ok h' ->
  length h' = length h
  /\ (i < length h -> Scope.get h' i name = Some v)
  /\ (forall j name', j < i -> Scope.get h' j name' = Scope.get h j name').
Proof.
  unfold Scope.add. simpl. intros [= <-]. split; [apply update_length|]. split.
  - apply get_set_element_eq.
  - intros j name' Hj. by apply get_set_element_newer.
Qed.
End ScopeLookup.

(** ** Placement of bindings: [add] *)

(** C1 (as the code has it): [add] with the kind left unspecified is [add]
    with kind ['const'] (the default value of the parameter): it never
    fails, the binding goes to the current scope, and no other scope
    changes. *)
Theorem add_unspecified_binds_in_current_scope
    {T} (h : Scope.Store T) (this : ScopeId) (name : string) (element : T) :
  Scope.add h this name element None
    = Scope.add h this name element (Some VariableType.const)
  /\ Scope.add h this name element None = Ok (Scope.set_element h this name element)
  /\ (this < length h ->
      Scope.binding_at (Scope.set_element h this name element) this name = Some element)
  /\ (forall other name', other ≠ this ->
      Scope.binding_at (Scope.set_element h this name element) other name'
      = Scope.binding_at h other name').
Proof.
  repeat split.
  - apply binding_at_set_element_eq.
  - intros other name' Hne. by apply binding_at_set_element_other.
Qed.

(** The theorem at the block scope of [Examples.global_and_block]. *)
Lemma add_unspecified_binds_in_current_scope_witness :
  1 < length Examples.global_and_block
  /\ Scope.binding_at (Scope.set_element Examples.global_and_block 1 "x" 7) 1 "x" = Some 7.
Proof.
  split; [vm_compute; lia|].
  apply (add_unspecified_binds_in_current_scope Examples.global_and_block 1 "x" 7).
  vm_compute; lia.
Defined.

(** C1 (as stated) fails.  From a block scope under a [Global] root, [add]
    without a kind binds in the block scope and leaves the [Global] scope
    without the binding; [add] with kind ['global'] matches no label of the
    [switch] and binds nowhere. *)
Lemma add_unspecified_misses_global_scope :
  Scope.type_at Examples.global_and_block 0 = Some ScopeType.Global
  /\ Scope.chain Examples.global_and_block 1 = [1; 0]
  /\ Scope.add Examples.global_and_block 1 "x" 7 None
     = Ok (Scope.set_element Examples.global_and_block 1 "x" 7)
  /\ Scope.binding_at (Scope.set_element Examples.global_and_block 1 "x" 7) 0 "x" = None
  /\ Scope.binding_at (Scope.set_element Examples.global_and_block 1 "x" 7) 1 "x" = Some 7
  /\ Scope.add Examples.global_and_block 1 "x" 7 (Some VariableType.global)
     = Ok Examples.global_and_block
  /\ Scope.binding_at Examples.global_and_block 0 "x" = None
  /\ ~ (exists h',
          Scope.add Examples.global_and_block 1 "x" 7 None = Ok h'
          /\ Scope.binding_at h' 0 "x" = Some 7
          /\ Scope.binding_at h' 1 "x" = None).
Proof.
  repeat split. intros (h' & [= <-] & Hglobal & _). discriminate Hglobal.
Qed.

(** C6: [add] with kind ['var'] throws exactly when no scope on the chain
    from the current scope to the root has kind [Function] or [Global];
    when one has, the binding is placed in the nearest such scope and
    nothing is thrown. *)
Theorem add_var_raises_iff_no_function_or_global_scope
    {T} (h : Scope.Store T) (this : ScopeId) (name : string) (element : T) :
  let hoisting := [ScopeType.Function; ScopeType.Global] in
  ((exists e, Scope.add h this name element (Some VariableType.var) = Throw e)
   <-> Forall (fun i => Scope.has_type_in h hoisting i = false) (Scope.chain h this))
  /\ (forall near target far,
      Scope.chain h this = near ++ target :: far ->
      Forall (fun i => Scope.has_type_in h hoisting i = false) near ->
      Scope.has_type_in h hoisting target = true ->
      Scope.add h this name element (Some VariableType.var)
        = Ok (Scope.set_element h target name element)
      /\ Scope.binding_at (Scope.set_element h target name element) target name
         = Some element).
Proof.
  intros hoisting. unfold Scope.add. simpl. rewrite findScope_chain. fold hoisting. split.
  - rewrite <- find_None_Forall.
    destruct (find _ _); split; [intros [e He]; done|done|done|by eexists].
  - intros near target far Hchain Hnear Htarget.
    rewrite Hchain, (find_first _ near far target) by done. split; [done|].
    apply binding_at_set_element_eq, (chain_lt h this).
    rewrite Hchain. apply elem_of_app. right. apply elem_of_cons. by left.
Qed.

(** The theorem at a block scope under a root of kind [Function]: the binding
    climbs to the root. *)
Lemma add_var_raises_iff_no_function_or_global_scope_witness :
  Scope.add Examples.function_and_block 1 "x" 7 (Some VariableType.var)
    = Ok (Scope.set_element Examples.function_and_block 0 "x" 7)
  /\ Scope.binding_at (Scope.set_element Examples.function_and_block 0 "x" 7) 0 "x" = Some 7.
Proof.
  apply (proj2 (add_var_raises_iff_no_function_or_global_scope
                  Examples.function_and_block 1 "x" 7) [1] 0 []).
  - reflexivity.
  - repeat constructor.
  - reflexivity.
Defined.

(** ** Lookup: [get] *)

(** C7: [get] returns the binding of the nearest scope on the chain that
    binds the name and reports not-found exactly when no scope up to the
    root binds it; it computes a value from the store and has no access to
    change it.  When a scope [A] binds [x] to [v1] and a child [B] of [A]
    binds [x] to [v2], lookups from [B] and from a scope under [B] give
    [v2], lookups from [A] and from a sibling of [B] under [A] give [v1]. *)
Theorem get_returns_nearest_enclosing_binding {T} :
  (forall (h : Scope.Store T) (this : ScopeId) (name : string),
      (Scope.get h this name = None
       <-> Forall (fun i => Scope.binding_at h i name = None) (Scope.chain h this))
      /\ (forall near target far v,
          Scope.chain h this = near ++ target :: far ->
          Forall (fun i => Scope.binding_at h i name = None) near ->
          Scope.binding_at h target name = Some v ->
          Scope.get h this name = Some v))
  /\ (forall (h0 : Scope.Store T) nA tA pA nB tB nS tS nD tD (x : string) (v1 v2 : T)
        A hA hA' B hB hB' S hS D h,
      Scope.new h0 nA tA pA = (A, hA) ->
      Scope.add hA A x v1 None = Ok hA' ->
      Scope.new hA' nB tB (Some A) = (B, hB) ->
      Scope.add hB B x v2 None = Ok hB' ->
      Scope.new hB' nS tS (Some A) = (S, hS) ->
      Scope.new hS nD tD (Some B) = (D, h) ->
      Scope.get h A x = Some v1 /\ Scope.get h B x = Some v2
      /\ Scope.get h D x = Some v2 /\ Scope.get h S x = Some v1).
Proof.
  split.
  - intros h this name. rewrite get_chain. split.
    + apply first_binding_None.
    + intros near target far v -> Hnear Htarget. by apply first_binding_nearest.
  - intros h0 nA tA pA nB tB nS tS nD tD x v1 v2 A hA hA' B hB hB' S hS D h
      HA HaddA HB HaddB HS HD.
    apply new_get in HA as (-> & HlenA & _ & _).
    apply add_unspecified_get in HaddA as (HlenA' & HgetA & _).
    apply new_get in HB as (-> & HlenB & HolderB & _).
    apply add_unspecified_get in HaddB as (HlenB' & HgetB & HolderB').
    apply new_get in HS as (-> & HlenS & HolderS & HnewS).
    apply new_get in HD as (-> & HlenD & HolderD & HnewD).
    assert (HA : Scope.get hB' (length h0) x = Some v1).
    { rewrite HolderB', HolderB by lia. apply HgetA. lia. }
    assert (HB : Scope.get hB' (length hA') x = Some v2) by (apply HgetB; lia).
    repeat split.
    + by rewrite HolderD, HolderS by lia.
    + by rewrite HolderD, HolderS by lia.
    + by rewrite HnewD, HolderS by lia.
    + by rewrite HolderD, HnewS by lia.
Qed.

(** The shadowing scenario on [Examples.shadowing]. *)
Lemma get_returns_nearest_enclosing_binding_witness :
  Scope.get Examples.shadowing 0 "x" = Some 1
  /\ Scope.get Examples.shadowing 1 "x" = Some 2
  /\ Scope.get Examples.shadowing 3 "x" = Some 2
  /\ Scope.get Examples.shadowing 2 "x" = Some 1.
Proof.
  apply (proj2 get_returns_nearest_enclosing_binding
           [] 0 ScopeType.Global None 1 ScopeType.Other 2 ScopeType.Other
           3 ScopeType.Other "x" 1 2
           0 Examples.shadowing_A Examples.shadowing_A'
           1 Examples.shadowing_B Examples.shadowing_B'
           2 Examples.shadowing_S 3 Examples.shadowing); reflexivity.
Defined.

(** ** The traversal engine *)

Lemma nodes_self (n : Node) : n ∈ nodes n.
Proof. destruct n; simpl; apply elem_of_cons; by left. Qed.

Lemma nodes_child (id : NodeId) (type : InnerType) (children : list (option Node))
    (c n : Node) :
  Some c ∈ children -> n ∈ nodes c -> n ∈ nodes (Inner id type children).
Proof.
  intros Hc Hn. simpl. apply elem_of_cons. right.
  apply list_elem_of_In, in_flat_map. exists (Some c).
  split; by apply list_elem_of_In.
Qed.

Lemma nodes_Inner (id : NodeId) (type : InnerType) (children : list (option Node)) (m : Node) :
  m ∈ nodes (Inner id type children)
  <-> m = Inner id type children \/ exists c, Some c ∈ children /\ m ∈ nodes c.
Proof.
  simpl. rewrite elem_of_cons, list_elem_of_In, in_flat_map. split.
  - intros [->|([c|] & Hc & Hm)]; [by left| |done].
    right. exists c. by rewrite !list_elem_of_In.
  - intros [->|(c & Hc & Hm)]; [by left|].
    right. exists (Some c). by rewrite <- !list_elem_of_In.
Qed.

Section TraverseFacts.
Context {S : Type}.
Variable enter : Node -> option Node -> S -> Result S.
Variable leave : Node -> S -> Result S.

Lemma visit_each_invariant (Inv : S -> Prop) (visit : Node -> S -> Result S)
    (children : list (option Node)) :
  (forall c s s', Some c ∈ children -> Inv s -> visit c s = Ok s' -> Inv s') ->
  forall s s', Inv s -> visit_each visit children s = Ok s' -> Inv s'.
Proof.
  induction children as [|[c|] cs IH]; simpl; intros Hvisit s s' Hs.
  - by intros [= <-].
  - destruct (visit c s) as [s1|] eqn:Hc; simpl; [|done].
    apply IH.
    + intros c' t t' Hc'. apply Hvisit, elem_of_cons. by right.
    + eapply Hvisit; [|exact Hs|exact Hc]. apply elem_of_cons. by left.
  - apply IH; [|done]. intros c' t t' Hc'. apply Hvisit, elem_of_cons. by right.
Qed.

(** A property of the visitor's state that [enter] and [leave] keep at
    every node of a tree holds after the walk over the tree. *)
Lemma traverse_invariant (Inv : S -> Prop) (root : Node) :
  (forall n p s s', n ∈ nodes root -> Inv s -> enter n p s = Ok s' -> Inv s') ->
  (forall n s s', n ∈ nodes root -> Inv s -> leave n s = Ok s' -> Inv s') ->
  forall p s s', Inv s -> traverse enter leave root p s = Ok s' -> Inv s'.
Proof.
  induction root as [id type|id type children IH] using Node_ind;
    intros Henter Hleave p s s' Hs; simpl.
  - destruct (enter _ p s) as [s1|] eqn:He; simpl; [|done].
    intros Hl. eapply Hleave; [apply nodes_self| |exact Hl].
    eapply Henter; [apply nodes_self|exact Hs|exact He].
  - destruct (enter _ p s) as [s1|] eqn:He; simpl; [|done].
    assert (Hs1 : Inv s1) by (eapply Henter; [apply nodes_self|exact Hs|exact He]).
    destruct (visit_each _ children s1) as [s2|] eqn:Hcs; simpl; [|done].
    intros Hl. eapply Hleave; [apply nodes_self| |exact Hl].
    eapply visit_each_invariant; [|exact Hs1|exact Hcs].
    intros c t t' Hc. rewrite Forall_forall in IH. apply (IH (Some c) Hc).
    + intros n q u u' Hn. apply Henter. by eapply nodes_child.
    + intros n u u' Hn. apply Hleave. by eapply nodes_child.
Qed.

Lemma visit_each_total (Inv : S -> Prop) (visit : Node -> S -> Result S)
    (children : list (option Node)) :
  (forall c s, Some c ∈ children -> Inv s -> exists s', visit c s = Ok s' /\ Inv s') ->
  forall s, Inv s -> exists s', visit_each visit children s = Ok s' /\ Inv s'.
Proof.
  induction children as [|[c|] cs IH]; simpl; intros Hvisit s Hs.
  - by exists s.
  - destruct (Hvisit c s) as (s1 & -> & Hs1); [apply elem_of_cons; by left|done|].
    simpl. apply IH; [|done].
    intros c' t Hc'. apply Hvisit, elem_of_cons. by right.
  - apply IH; [|done]. intros c' t Hc'. apply Hvisit, elem_of_cons. by right.
Qed.

(** When [enter] and [leave] return under a property of the state that
    they keep, the walk returns. *)
Lemma traverse_total (Inv : S -> Prop) (root : Node) :
  (forall n p s, n ∈ nodes root -> Inv s -> exists s', enter n p s = Ok s' /\ Inv s') ->
  (forall n s, n ∈ nodes root -> Inv s -> exists s', leave n s = Ok s' /\ Inv s') ->
  forall p s, Inv s -> exists s', traverse enter leave root p s = Ok s' /\ Inv s'.
Proof.
  induction root as [id type|id type children IH] using Node_ind;
    intros Henter Hleave p s Hs; simpl.
  - destruct (Henter _ p s (nodes_self _) Hs) as (s1 & -> & Hs1). simpl.
    apply Hleave; [apply nodes_self|done].
  - destruct (Henter _ p s (nodes_self _) Hs) as (s1 & -> & Hs1). simpl.
    destruct (visit_each_total Inv
                (fun c => traverse enter leave c (Some (Inner id type children)))
                children) with (s := s1) as (s2 & -> & Hs2); [|done|].
    + intros c t Hc. rewrite Forall_forall in IH. apply (IH (Some c) Hc).
      * intros n q u Hn. apply Henter. by eapply nodes_child.
      * intros n u Hn. apply Hleave. by eapply nodes_child.
    + simpl. apply Hleave; [apply nodes_self|done].
Qed.

Lemma visit_each_reaches (Good : S -> Prop) (visit : Node -> S -> Result S)
    (children : list (option Node)) (c0 : Node) :
  Some c0 ∈ children ->
  (forall s s', visit c0 s = Ok s' -> Good s') ->
  (forall c s s', Some c ∈ children -> Good s -> visit c s = Ok s' -> Good s') ->
  forall s s', visit_each visit children s = Ok s' -> Good s'.
Proof.
  induction children as [|[c|] cs IH]; simpl; intros Hc0 Hreach Hkeep s s'.
  - by apply elem_of_nil in Hc0.
  - destruct (visit c s) as [s1|] eqn:Hc; simpl; [|done].
    assert (Hrest : forall c' t t', Some c' ∈ cs -> Good t -> visit c' t = Ok t' -> Good t').
    { intros c' t t' Hc'. apply Hkeep, elem_of_cons. by right. }
    apply elem_of_cons in Hc0 as [[= <-]|Hc0].
    + apply (visit_each_invariant Good visit cs Hrest). by eapply Hreach.
    + by apply IH.
  - apply elem_of_cons in Hc0 as [?|Hc0]; [done|].
    apply IH; [done..|]. intros c' t t' Hc'. apply Hkeep, elem_of_cons. by right.
Qed.

(** A property that the state has once [enter] has returned from a
    given node of the tree, and that [enter] and [leave] keep, holds
    after the walk over the tree. *)
Lemma traverse_reaches (Good : S -> Prop) (root n0 : Node) :
  n0 ∈ nodes root ->
  (forall p s s', enter n0 p s = Ok s' -> Good s') ->
  (forall n p s s', Good s -> enter n p s = Ok s' -> Good s') ->
  (forall n s s', Good s -> leave n s = Ok s' -> Good s') ->
  forall p s s', traverse enter leave root p s = Ok s' -> Good s'.
Proof.
  intros Hn0 Hreach Henter Hleave.
  assert (Hkeep : forall t p s s', Good s -> traverse enter leave t p s = Ok s' -> Good s').
  { intros t p s s'. apply traverse_invariant.
    - intros n q u u' _. apply Henter.
    - intros n u u' _. apply Hleave. }
  induction root as [id type|id type children IH] using Node_ind; intros p s s'; simpl.
  - apply elem_of_cons in Hn0 as [->|Hn0]; [|by apply elem_of_nil in Hn0].
    destruct (enter _ p s) as [s1|] eqn:He; simpl; [|done].
    apply Hleave. by eapply Hreach.
  - destruct (enter _ p s) as [s1|] eqn:He; simpl; [|done].
    destruct (visit_each _ children s1) as [s2|] eqn:Hcs; simpl; [|done].
    apply Hleave.
    apply nodes_Inner in Hn0 as [->|(c & Hc & Hn0)].
    + eapply visit_each_invariant; [|by eapply Hreach|exact Hcs].
      intros c t t' _. apply Hkeep.
    + eapply (visit_each_reaches Good _ children c Hc); [| |exact Hcs].
      * rewrite Forall_forall in IH. intros t t'. by apply (IH (Some c) Hc).
      * intros c' t t' _. apply Hkeep.
Qed.
End TraverseFacts.

(** ** The visitors of the pass *)

Lemma Qred_inject_Z (z : Z) : Qred (inject_Z z) = inject_Z z.
Proof. apply Qcanon.Qred_identity. simpl. apply Z.gcd_1_r. Qed.

(** [elements[index]] for an index that is a natural number. *)
Lemma element_at_natural (elements : list (option Node)) (index : Q) (n : nat) :
  Qeq index (inject_Z (Z.of_nat n)) ->
  ArrayUnpacker.element_at elements index = elements !! n.
Proof.
  intros Hindex. unfold ArrayUnpacker.element_at.
  rewrite (Qred_complete _ _ Hindex), Qred_inject_Z. simpl.
  rewrite bool_decide_true by lia. simpl. by rewrite Nat2Z.id.
Qed.

Lemma object_name_not_scope (node : Node) (name : string) :
  ArrayUnpacker.object_name node = Ok name -> ArrayUnpacker.isScopeType node = false.
Proof. by destruct node as [|? [] ?]. Qed.

(** C8: at a node that is not of the shape [identifier[number]], or whose
    identifier resolves to no descriptor, or whose index is at or beyond
    the element count of the descriptor, the rewrite visitor returns
    without throwing and leaves the pass object as it is: the same tree,
    the same descriptors with the same usage counters.  (Only the
    visitor's current scope moves, at a block or function body.) *)
Theorem ineligible_site_is_left_unchanged
    (self : ArrayUnpacker.t) (scope : ScopeId) (current : Scope.t ArrayId)
    (node : Node) (parent : option Node) :
  Scope.deref (ArrayUnpacker.scopes self) scope = Some current ->
  ArrayUnpacker.isSimpleArrayAccess node = false
  \/ (exists name,
        ArrayUnpacker.object_name node = Ok name
        /\ Scope.get (ArrayUnpacker.scopes self) scope name = None)
  \/ (exists name array descriptor index n,
        ArrayUnpacker.object_name node = Ok name
        /\ Scope.get (ArrayUnpacker.scopes self) scope name = Some array
        /\ ArrayUnpacker.arrays self !! array = Some descriptor
        /\ ArrayUnpacker.expression_value node = Ok index
        /\ Qeq index (inject_Z (Z.of_nat n))
        /\ length (Array.elements descriptor) ≤ n) ->
  exists scope',
    ArrayUnpacker.unpackArrays_enter node parent (ArrayUnpacker.unpacking self (Some scope))
    = Ok (ArrayUnpacker.unpacking self scope').
Proof.
  intros Hscope Hsite. unfold ArrayUnpacker.unpackArrays_enter. simpl.
  destruct Hsite as [Hshape|[(name & Hname & Hget)|
    (name & array & descriptor & index & n & Hname & Hget & Harray & Hindex & Hnat & Hlen)]].
  - rewrite Hshape. destruct (ArrayUnpacker.isScopeType node); [|by eexists].
    unfold ArrayUnpacker.the_scope. simpl. rewrite Hscope. simpl. by eexists.
  - rewrite (object_name_not_scope _ _ Hname), Hname. simpl. rewrite Hget.
    destruct (ArrayUnpacker.isSimpleArrayAccess node); by eexists.
  - rewrite (object_name_not_scope _ _ Hname), Hname. simpl. rewrite Hget, Hindex. simpl.
    rewrite Harray, (element_at_natural _ _ n Hnat), (lookup_ge_None_2 _ _ Hlen).
    destruct (ArrayUnpacker.isSimpleArrayAccess node); by eexists.
Qed.

(** The theorem at the access [a[5]] of [const a = [1, 2]; a[5];]. *)
Lemma ineligible_site_is_left_unchanged_witness :
  exists scope',
    ArrayUnpacker.unpackArrays_enter
      (Inner 31 ComputedMemberExpression
         [Some (Leaf 32 (IdentifierExpression "a")); Some (Examples.number 33 5)])
      None
      (ArrayUnpacker.unpacking (Examples.discovered Examples.out_of_range true) (Some 0))
    = Ok (ArrayUnpacker.unpacking (Examples.discovered Examples.out_of_range true) scope').
Proof.
  eapply (ineligible_site_is_left_unchanged
            (Examples.discovered Examples.out_of_range true) 0).
  - reflexivity.
  - right. right. exists "a", 0.
    eexists. exists (inject_Z 5), 5.
    repeat split; try reflexivity. vm_compute. lia.
Defined.

(** C10: a declarator whose array literal has only literals and holes is
    a literal array declaration; when not seen before, the discovery
    visitor records a descriptor for it (with the holes among its
    elements), binds it in the current scope, marks the declarator as seen
    and reports a discovery.  An access whose index is that of a hole is
    left as it is by the rewrite visitor: same tree, same counters. *)
Theorem array_with_holes_is_discovered_and_holes_are_skipped :
  (forall (self : ArrayUnpacker.t) (scope : ScopeId) (found : bool)
      (id idb ida : NodeId) (name : string) (elements : list (option Node))
      (parent : option Node),
      Forall (fun e => match e with
                       | Some e => ArrayUnpacker.isLiteral e = true
                       | None => True
                       end) elements ->
      id ∉ ArrayUnpacker.arrayNodes self ->
      let node := Inner id VariableDeclarator
                    [Some (Leaf idb (BindingIdentifier name));
                     Some (Inner ida ArrayExpression elements)] in
      ArrayUnpacker.isLiteralArrayDeclaration node = true
      /\ ArrayUnpacker.findArrays_enter node parent (ArrayUnpacker.finding self scope found)
         = Ok (ArrayUnpacker.finding
                 (ArrayUnpacker.mk
                    (ArrayUnpacker.ast self) (ArrayUnpacker.shouldRemoveArrays self)
                    (ArrayUnpacker.globalScope self)
                    ({[id]} ∪ ArrayUnpacker.arrayNodes self)
                    (Scope.set_element (ArrayUnpacker.scopes self) scope name
                       (length (ArrayUnpacker.arrays self)))
                    (ArrayUnpacker.arrays self
                       ++ [Array.mk id (node_id <$> parent) name elements 0]))
                 scope true))
  /\ (forall (self : ArrayUnpacker.t) (scope : ScopeId) (node : Node) (parent : option Node)
        name array descriptor index n,
      ArrayUnpacker.object_name node = Ok name ->
      Scope.get (ArrayUnpacker.scopes self) scope name = Some array ->
      ArrayUnpacker.arrays self !! array = Some descriptor ->
      ArrayUnpacker.expression_value node = Ok index ->
      Qeq index (inject_Z (Z.of_nat n)) ->
      Array.elements descriptor !! n = Some None ->
      ArrayUnpacker.unpackArrays_enter node parent (ArrayUnpacker.unpacking self (Some scope))
      = Ok (ArrayUnpacker.unpacking self (Some scope))).
Proof.
  split.
  - intros self scope found id idb ida name elements parent Helements Hnew node.
    assert (Hlit : ArrayUnpacker.isLiteralArrayDeclaration node = true).
    { simpl. induction Helements as [|[e|] es He _ IH]; simpl; [done| |done].
      by rewrite He. }
    split; [done|].
    unfold ArrayUnpacker.findArrays_enter. rewrite Hlit.
    cbn [ArrayUnpacker.isScopeType node ArrayUnpacker.f_self node_id].
    by rewrite bool_decide_false.
  - intros self scope node parent name array descriptor index n
      Hname Hget Harray Hindex Hnat Hhole.
    unfold ArrayUnpacker.unpackArrays_enter. simpl.
    rewrite (object_name_not_scope _ _ Hname), Hname. simpl. rewrite Hget, Hindex. simpl.
    rewrite Harray, (element_at_natural _ _ n Hnat), Hhole.
    by destruct (ArrayUnpacker.isSimpleArrayAccess node).
Qed.

(** The theorem at [const a = [1, , 3]; a[1];]. *)
Lemma array_with_holes_is_discovered_and_holes_are_skipped_witness :
  ArrayUnpacker.isLiteralArrayDeclaration
    (Inner 12 VariableDeclarator
       [Some (Leaf 13 (BindingIdentifier "a"));
        Some (Inner 14 ArrayExpression
                [Some (Examples.number 20 1); None; Some (Examples.number 22 3)])]) = true
  /\ ArrayUnpacker.unpackArrays_enter
       (Inner 31 ComputedMemberExpression
          [Some (Leaf 32 (IdentifierExpression "a")); Some (Examples.number 33 1)])
       None
       (ArrayUnpacker.unpacking (Examples.discovered Examples.with_hole true) (Some 0))
     = Ok (ArrayUnpacker.unpacking (Examples.discovered Examples.with_hole true) (Some 0)).
Proof.
  split.
  - apply (proj1 array_with_holes_is_discovered_and_holes_are_skipped
             (ArrayUnpacker.new Examples.with_hole true) 0 false 12 13 14 "a"
             [Some (Examples.number 20 1); None; Some (Examples.number 22 3)] None).
    + repeat constructor.
    + apply not_elem_of_empty.
  - eapply (proj2 array_with_holes_is_discovered_and_holes_are_skipped
              (Examples.discovered Examples.with_hole true) 0 _ None "a" 0 _ (inject_Z 1) 1);
      reflexivity.
Defined.

(** ** Cleanup: [removeArrays] *)

(** C9 at [function f() { const a = [1, 2]; a[0]; }] with cleanup
    enabled: the access is inlined and the usage counter of the descriptor
    of [a] is 1, yet the declarator (node 12) is still held by its
    declaration (node 11) after the pass.  The last discovery round has
    replaced the scope of the function body by a fresh, empty one, so the
    cleanup walk does not meet the descriptor.  At top level
    ([const a = [1, 2]; a[0]; a[0];]) the declarator is removed, and in
    [const a = [1, 2]; a[5];] the counter is 0 and the declarator stays. *)
Theorem used_array_in_function_body_is_not_removed :
  Examples.executed_arrays Examples.in_function true
    = Some [Array.mk 12 (Some 11) "a"
              [Some (Examples.number 20 1); Some (Examples.number 21 2)] 1]
  /\ parents_of 12 <$> Examples.executed_tree Examples.in_function true = Some [11]
  /\ parents_of 20 <$> Examples.executed_tree Examples.in_function true = Some [14; 30]
  /\ parents_of 12 <$> Examples.executed_tree Examples.inlined_twice true = Some []
  /\ Examples.executed_arrays Examples.out_of_range true
     = Some [Array.mk 12 (Some 11) "a"
               [Some (Examples.number 20 1); Some (Examples.number 21 2)] 0]
  /\ Examples.executed_tree Examples.out_of_range true = Some Examples.out_of_range.
Proof. vm_compute. repeat split. Qed.

(** ** Running the pass twice *)

(** C5 (as stated) fails.  A second pass object run on the output of a
    first one starts with an empty set of seen declarators.  On
    [const a = [1, 2]; a[5];] (cleanup disabled) the first pass leaves the
    tree as it is and the discovery of the second pass finds [a] again.
    On [const x = [7, 8]; const a = [1]; x[a[0]];] (cleanup disabled) the
    first pass inlines [a[0]] and ends, as its next discovery round finds
    no new array: the access [x[1]] (node 51) stays under statement 50.
    The second pass discovers [x] again and puts the element [8]
    (node 21) in the place of [x[1]], which changes the tree again. *)
Lemma second_pass_discovers_and_rewrites_again :
  Examples.executed_tree Examples.out_of_range false = Some Examples.out_of_range
  /\ fst <$> (match ArrayUnpacker.findArrays (ArrayUnpacker.new Examples.out_of_range false) with
              | Ok r => Some r
              | Throw _ => None
              end) = Some true
  /\ parents_of 51 <$> Examples.executed_tree Examples.nested_index false = Some [50]
  /\ parents_of 51 <$> (Examples.executed_tree Examples.nested_index false
                          ≫= fun tree => Examples.executed_tree tree false)
     = Some []
  /\ parents_of 21 <$> (Examples.executed_tree Examples.nested_index false
                          ≫= fun tree => Examples.executed_tree tree false)
     = Some [14; 50]
  /\ (Examples.executed_tree Examples.nested_index false
        ≫= fun tree => Examples.executed_tree tree false)
     ≠ Examples.executed_tree Examples.nested_index false.
Proof. vm_compute. repeat split. discriminate. Qed.

(** ** The scope tree of a pass *)

Lemma new_registers {T} (h : Scope.Store T) (node : NodeId) (type : ScopeType.t)
    (p this : ScopeId) (h' : Scope.Store T) :
  p < length h ->
  Scope.new h node type (Some p) = (this, h') ->
  this = length h
  /\ Scope.deref h' this = Some (Scope.mk node type (Some p) [] [])
  /\ exists ps,
       Scope.deref h' p = Some ps
       /\ map_get (Scope.children ps) node = Some this.
Proof.
  intros Hp [= <- <-].
  assert (Hlen : length (Scope.set_child h p node (length h)) = length h)
    by apply update_length.
  split; [done|]. split.
  - simpl. rewrite Hlen. by rewrite decide_True.
  - destruct (deref_is_Some h p Hp) as [ps Hps].
    eexists. rewrite deref_older by lia. unfold Scope.set_child.
    rewrite (deref_update_eq _ _ _ _ Hps). split; [done|]. simpl. apply map_get_set_eq.
Qed.

Section ScopeTree.
Implicit Types (h : Scope.Store ArrayId).

Lemma deref_update h p i f s' :
  Scope.deref (Scope.update h p f) i = Some s' ->
  exists s, Scope.deref h i = Some s /\ (s' = s \/ s' = f s).
Proof.
  destruct (decide (p = i)) as [->|Hne].
  - destruct (Scope.deref h i) as [s|] eqn:Hs.
    + rewrite (deref_update_eq _ _ _ _ Hs). intros [= <-]. exists s. auto.
    + intros Hd. apply deref_lt in Hd. rewrite update_length in Hd.
      apply deref_is_Some in Hd as [? ?]. congruence.
  - rewrite deref_update_ne by done. intros Hs. exists s'. auto.
Qed.

Lemma scope_tree_lt h root : ArrayUnpacker.scope_tree h root -> root < length h.
Proof. intros [(s & Hs & _) _]. by eapply deref_lt. Qed.

Lemma scope_tree_update h root p f :
  (forall s, Scope.type (f s) = Scope.type s /\ Scope.parent (f s) = Scope.parent s) ->
  ArrayUnpacker.scope_tree h root -> ArrayUnpacker.scope_tree (Scope.update h p f) root.
Proof.
  intros Hf ((r & Hr & Hnone) & Htype & Hparent). split; [|split].
  - destruct (decide (p = root)) as [->|Hne].
    + exists (f r). rewrite (deref_update_eq _ _ _ _ Hr). split; [done|].
      by rewrite (proj2 (Hf r)).
    + exists r. by rewrite deref_update_ne.
  - intros i s' (s & Hs & [->| ->])%deref_update; [by eapply Htype|].
    rewrite (proj1 (Hf s)). by eapply Htype.
  - intros i s' (s & Hs & Hs')%deref_update Hi.
    destruct (Hparent i s Hs Hi) as (q & Hq & Hlt). exists q. split; [|done].
    destruct Hs' as [->| ->]; [done|]. by rewrite (proj2 (Hf s)).
Qed.

Lemma scope_tree_new h root n p i h' :
  ArrayUnpacker.scope_tree h root -> p < length h ->
  Scope.new h n ScopeType.Other (Some p) = (i, h') ->
  ArrayUnpacker.scope_tree h' root /\ i = length h /\ length h' = S (length h).
Proof.
  intros Htree Hp [= <- <-].
  pose proof (scope_tree_lt _ _ Htree) as Hroot.
  apply (scope_tree_update _ _ p
           (fun s => Scope.mk (Scope.node s) (Scope.type s) (Scope.parent s)
                       (map_set (Scope.children s) n (length h)) (Scope.elements s)))
    in Htree; [|done].
  fold (Scope.set_child h p n (length h)) in Htree.
  assert (Hlen : length (Scope.set_child h p n (length h)) = length h)
    by apply update_length.
  destruct Htree as ((r & Hr & Hnone) & Htype & Hparent).
  split; [|split; [done|cbn [length]; by rewrite Hlen]].
  split; [|split].
  - exists r. rewrite deref_older by lia. done.
  - intros i s. simpl. rewrite Hlen. case_decide; [by intros [= <-]|]. apply Htype.
  - intros i s. simpl. rewrite Hlen. case_decide as Hi.
    + intros [= <-] _. exists p. split; [done|lia].
    + apply Hparent.
Qed.

Lemma findArrays_enter_scopes root node parent s s' :
  ArrayUnpacker.finding_scopes root s ->
  ArrayUnpacker.findArrays_enter node parent s = Ok s' ->
  ArrayUnpacker.finding_scopes root s'.
Proof.
  intros (Hroot & Htree & Hscope). unfold ArrayUnpacker.findArrays_enter.
  destruct (ArrayUnpacker.isScopeType node).
  { destruct (Scope.new _ _ _ _) as [i h'] eqn:Hnew. intros [= <-].
    destruct (scope_tree_new _ _ _ _ _ _ Htree Hscope Hnew) as (Htree' & -> & Hlen).
    split; [done|]. split; [done|]. simpl. lia. }
  destruct (_ && _); [|by intros [= <-]].
  destruct (ArrayUnpacker.binding_name node) as [name|]; simpl; [|done].
  destruct (ArrayUnpacker.init_elements node) as [elements|]; simpl; [|done].
  intros [= <-]. split; [done|]. simpl. split.
  - by apply scope_tree_update.
  - unfold Scope.set_element. by rewrite update_length.
Qed.

Lemma findArrays_leave_scopes root node s s' :
  ArrayUnpacker.finding_scopes root s ->
  ArrayUnpacker.findArrays_leave node s = Ok s' ->
  ArrayUnpacker.finding_scopes root s'.
Proof.
  intros (Hroot & Htree & Hscope). unfold ArrayUnpacker.findArrays_leave.
  unfold ArrayUnpacker.the_scope. simpl.
  destruct (Scope.deref _ _) as [scope|] eqn:Hderef; simpl; [|done].
  destruct (Scope.parent scope) as [p|] eqn:Hp; [|by intros [= <-]].
  case_bool_decide; [|by intros [= <-]]. intros [= <-].
  split; [done|]. split; [done|]. simpl.
  destruct Htree as ((r & Hr & Hnone) & _ & Hparent).
  destruct (decide (ArrayUnpacker.f_scope s = root)) as [Heq|Hne].
  - rewrite Heq in Hderef. congruence.
  - destruct (Hparent _ _ Hderef Hne) as (q & Hq & Hlt). simplify_eq. lia.
Qed.

Lemma findArrays_scopes self found self' :
  ArrayUnpacker.scope_tree (ArrayUnpacker.scopes self) (ArrayUnpacker.globalScope self) ->
  ArrayUnpacker.findArrays self = Ok (found, self') ->
  ArrayUnpacker.globalScope self' = ArrayUnpacker.globalScope self
  /\ ArrayUnpacker.scope_tree (ArrayUnpacker.scopes self') (ArrayUnpacker.globalScope self').
Proof.
  intros Htree. unfold ArrayUnpacker.findArrays.
  destruct (traverse _ _ _ _ _) as [s|] eqn:Hwalk; simpl; [|done]. intros [= <- <-].
  assert (Hs : ArrayUnpacker.finding_scopes (ArrayUnpacker.globalScope self) s).
  { eapply (traverse_invariant _ _ (ArrayUnpacker.finding_scopes (ArrayUnpacker.globalScope self)));
      [| | |exact Hwalk].
    - intros n p t t' _. apply findArrays_enter_scopes.
    - intros n t t' _. apply findArrays_leave_scopes.
    - split; [done|]. split; [done|]. simpl. by eapply scope_tree_lt. }
  destruct Hs as (Hroot & Htree' & _). by rewrite Hroot.
Qed.

Lemma unpackArrays_scopes self self' :
  ArrayUnpacker.unpackArrays self = Ok self' ->
  ArrayUnpacker.globalScope self' = ArrayUnpacker.globalScope self
  /\ ArrayUnpacker.scopes self' = ArrayUnpacker.scopes self
  /\ ArrayUnpacker.arrayNodes self' = ArrayUnpacker.arrayNodes self
  /\ ArrayUnpacker.shouldRemoveArrays self' = ArrayUnpacker.shouldRemoveArrays self.
Proof.
  unfold ArrayUnpacker.unpackArrays.
  destruct (traverse _ _ _ _ _) as [s|] eqn:Hwalk; simpl; [|done]. intros [= <-].
  eapply (traverse_invariant _ _
            (fun s => ArrayUnpacker.globalScope (ArrayUnpacker.u_self s)
                      = ArrayUnpacker.globalScope self
                      /\ ArrayUnpacker.scopes (ArrayUnpacker.u_self s)
                         = ArrayUnpacker.scopes self
                      /\ ArrayUnpacker.arrayNodes (ArrayUnpacker.u_self s)
                         = ArrayUnpacker.arrayNodes self
                      /\ ArrayUnpacker.shouldRemoveArrays (ArrayUnpacker.u_self s)
                         = ArrayUnpacker.shouldRemoveArrays self));
    [| | |exact Hwalk]; [| |done].
  - intros n p t t' _ Ht. unfold ArrayUnpacker.unpackArrays_enter.
    destruct (ArrayUnpacker.isScopeType n).
    { destruct (ArrayUnpacker.the_scope _ _); simpl; [|done]. by intros [= <-]. }
    destruct (ArrayUnpacker.isSimpleArrayAccess n); [|by intros [= <-]].
    destruct (ArrayUnpacker.object_name n) as [name|]; simpl; [|done].
    destruct (ArrayUnpacker.defined _) as [scope|]; simpl; [|done].
    destruct (Scope.get _ scope name) as [array|]; [|by intros [= <-]].
    destruct (ArrayUnpacker.expression_value n) as [index|]; simpl; [|done].
    destruct (_ !! array) as [descriptor|]; [|done].
    destruct (ArrayUnpacker.element_at _ index) as [[replacement|]|];
      [|by intros [= <-]..].
    destruct p as [p|]; [|done]. by intros [= <-].
  - intros n t t' _ Ht. unfold ArrayUnpacker.unpackArrays_leave.
    destruct (ArrayUnpacker.the_scope _ _) as [scope|]; simpl; [|done].
    destruct (Scope.parent scope); [|by intros [= <-]].
    case_bool_decide; by intros [= <-].
Qed.

Lemma running_scope_tree tree removeArrays self :
  ArrayUnpacker.running tree removeArrays self ->
  ArrayUnpacker.scope_tree (ArrayUnpacker.scopes self) (ArrayUnpacker.globalScope self).
Proof.
  induction 1 as [|self found self' _ IH Hfind|self self' _ IH Hunpack].
  - split; [|split].
    + by eexists.
    + intros i s. simpl. case_decide; [by intros [= <-]|done].
    + intros i s. simpl. case_decide; [by intros [= <-]|done].
  - by apply (findArrays_scopes _ _ _ IH) in Hfind as [_ ?].
  - apply unpackArrays_scopes in Hunpack as (-> & -> & _). done.
Qed.
End ScopeTree.

(** C4 (as the code has it): in every pass object of a run, the root
    scope ([globalScope]) has kind [Other] (as every scope the pass
    opens) and no parent, and every other scope has one parent, an older
    scope of the store.  The constructor of [Scope], given a parent,
    registers the new scope in the parent's [children] under the opening
    node. *)
Theorem scope_tree_of_a_pass_run :
  (forall (tree : Node) (removeArrays : bool) (self : ArrayUnpacker.t),
      ArrayUnpacker.running tree removeArrays self ->
      (exists root,
          Scope.deref (ArrayUnpacker.scopes self) (ArrayUnpacker.globalScope self) = Some root
          /\ Scope.type root = ScopeType.Other
          /\ Scope.parent root = None)
      /\ (forall i s,
          Scope.deref (ArrayUnpacker.scopes self) i = Some s ->
          i ≠ ArrayUnpacker.globalScope self ->
          Scope.type s = ScopeType.Other
          /\ exists p ps,
               Scope.parent s = Some p
               /\ Scope.deref (ArrayUnpacker.scopes self) p = Some ps))
  /\ (forall (T : Type) (h : Scope.Store T) (node : NodeId) (type : ScopeType.t)
        (p this : ScopeId) (h' : Scope.Store T),
      p < length h ->
      Scope.new h node type (Some p) = (this, h') ->
      Scope.deref h' this = Some (Scope.mk node type (Some p) [] [])
      /\ exists ps,
           Scope.deref h' p = Some ps
           /\ map_get (Scope.children ps) node = Some this).
Proof.
  split.
  - intros tree removeArrays self Hrun.
    destruct (running_scope_tree _ _ _ Hrun) as ((r & Hr & Hnone) & Htype & Hparent).
    split.
    + exists r. split; [done|]. split; [by eapply Htype|done].
    + intros i s Hs Hi. split; [by eapply Htype|].
      destruct (Hparent i s Hs Hi) as (p & Hp & Hlt).
      assert (Hvalid : p < length (ArrayUnpacker.scopes self)).
      { apply deref_lt in Hs. lia. }
      apply deref_is_Some in Hvalid as [ps Hps]. by exists p, ps.
  - intros T h node type p this h' Hp Hnew.
    by destruct (new_registers _ _ _ _ _ _ Hp Hnew) as (_ & ? & ?).
Qed.

(** The root scope after the first discovery round on
    [function f() { const a = [1, 2]; a[0]; }], and the constructor of
    [Scope] at a third scope under the block scope of
    [Examples.global_and_block]. *)
Lemma scope_tree_of_a_pass_run_witness :
  (exists root,
      Scope.deref (ArrayUnpacker.scopes (Examples.discovered Examples.in_function true))
        (ArrayUnpacker.globalScope (Examples.discovered Examples.in_function true))
      = Some root
      /\ Scope.type root = ScopeType.Other
      /\ Scope.parent root = None)
  /\ Scope.deref
       (snd (Scope.new Examples.global_and_block 2 ScopeType.Other (Some 1))) 2
     = Some (Scope.mk 2 ScopeType.Other (Some 1) [] [])
  /\ exists ps,
       Scope.deref (snd (Scope.new Examples.global_and_block 2 ScopeType.Other (Some 1))) 1
       = Some ps
       /\ map_get (Scope.children ps) 2 = Some 2.
Proof.
  split.
  - refine (proj1 (proj1 scope_tree_of_a_pass_run Examples.in_function true
                     (Examples.discovered Examples.in_function true) _)).
    apply (ArrayUnpacker.running_findArrays _ _ (ArrayUnpacker.new Examples.in_function true)
             true).
    + constructor.
    + vm_compute. reflexivity.
  - apply (proj2 scope_tree_of_a_pass_run nat Examples.global_and_block 2 ScopeType.Other 1 2).
    + vm_compute. lia.
    + reflexivity.
Defined.

(** C4 (as stated) fails: the root scope that the constructor of the pass
    builds, and that the pass keeps, has kind [Other], not [Global]. *)
Lemma root_scope_of_the_pass_is_not_global :
  Scope.type_at
    (ArrayUnpacker.scopes (ArrayUnpacker.new Examples.out_of_range true))
    (ArrayUnpacker.globalScope (ArrayUnpacker.new Examples.out_of_range true))
  = Some ScopeType.Other
  /\ Scope.type_at
       (ArrayUnpacker.scopes (ArrayUnpacker.new Examples.out_of_range true))
       (ArrayUnpacker.globalScope (ArrayUnpacker.new Examples.out_of_range true))
     ≠ Some ScopeType.Global
  /\ (match Examples.executed Examples.in_function true with
      | Some (Ok self) =>
          Scope.type_at (ArrayUnpacker.scopes self) (ArrayUnpacker.globalScope self)
      | _ => None
      end) = Some ScopeType.Other.
Proof. vm_compute. repeat split. discriminate. Qed.

(** ** The nodes and the declarators of a tree *)

Lemma nodes_trans (m n t : Node) : n ∈ nodes t -> m ∈ nodes n -> m ∈ nodes t.
Proof.
  induction t as [id type|id type children IH] using Node_ind; intros Hn Hm.
  - apply elem_of_cons in Hn as [->|Hn]; [done|by apply elem_of_nil in Hn].
  - apply nodes_Inner in Hn as [->|(c & Hc & Hn)]; [done|].
    apply nodes_Inner. right. exists c. split; [done|].
    rewrite Forall_forall in IH. by apply (IH (Some c) Hc).
Qed.

Lemma elem_of_declarators (id : NodeId) (t : Node) :
  id ∈ declarators t <-> exists n, n ∈ nodes t /\ isDeclarator n = true /\ node_id n = id.
Proof.
  unfold declarators. rewrite elem_of_list_to_set, list_elem_of_fmap. split.
  - intros (n & -> & Hn). apply list_elem_of_filter in Hn as [Hd Hn]. by exists n.
  - intros (n & Hn & Hd & <-). exists n. split; [done|]. by apply list_elem_of_filter.
Qed.

Lemma declarators_nodes (n t : Node) : n ∈ nodes t -> declarators n ⊆ declarators t.
Proof.
  intros Hn id (m & Hm & Hd & Hid)%elem_of_declarators.
  apply elem_of_declarators. exists m. split; [by eapply nodes_trans|done].
Qed.

Lemma size_list_to_set_length (l : list NodeId) :
  size (list_to_set l : gset NodeId) ≤ length l.
Proof.
  induction l as [|x l IH]; cbn [list_to_set length].
  - rewrite size_empty. lia.
  - rewrite size_union_alt, size_singleton.
    assert (Hle : size (list_to_set l ∖ {[x]} : gset NodeId)
                  ≤ size (list_to_set l : gset NodeId)).
    { apply subseteq_size. intros y Hy. by apply elem_of_difference in Hy as [? _]. }
    lia.
Qed.

Lemma declarators_size (t : Node) : size (declarators t) ≤ length (nodes t).
Proof.
  unfold declarators.
  etrans; [apply size_list_to_set_length|]. rewrite length_fmap. apply length_filter.
Qed.

Lemma replaceNode_nodes (parent node : NodeId) (replacement t m : Node) :
  m ∈ nodes (replaceNode parent node replacement t) ->
  m ∈ nodes replacement
  \/ exists m0, m0 ∈ nodes t /\ node_id m0 = node_id m /\ isDeclarator m0 = isDeclarator m.
Proof.
  revert m. induction t as [id type|id type children IH] using Node_ind; intros m.
  - simpl. intros Hm. right. by exists m.
  - cbn [replaceNode]. intros [->|(c' & Hc' & Hm)]%nodes_Inner.
    + right. exists (Inner id type children). split; [apply nodes_self|done].
    + apply list_elem_of_fmap in Hc' as ([c|] & Hslot & Hc); [|done].
      destruct (_ && _).
      * injection Hslot as ->. by left.
      * injection Hslot as ->. rewrite Forall_forall in IH.
        destruct (IH (Some c) Hc m Hm) as [?|(m0 & Hm0 & Hid & Hd)]; [by left|].
        right. exists m0. split; [|done]. by eapply nodes_child.
Qed.

Lemma replaceNode_declarators (parent node : NodeId) (replacement t : Node) :
  declarators (replaceNode parent node replacement t)
  ⊆ declarators t ∪ declarators replacement.
Proof.
  intros id (m & Hm & Hd & Hid)%elem_of_declarators. apply elem_of_union.
  destruct (replaceNode_nodes _ _ _ _ _ Hm) as [Hr|(m0 & Hm0 & Hid0 & Hd0)].
  - right. apply elem_of_declarators. by exists m.
  - left. apply elem_of_declarators. exists m0. split; [done|]. split; congruence.
Qed.

(** ** The set of seen declarators *)

Lemma isLiteralArrayDeclaration_declarator (n : Node) :
  ArrayUnpacker.isLiteralArrayDeclaration n = true -> isDeclarator n = true.
Proof. by destruct n as [|? [] ?]. Qed.

Lemma init_elements_nodes (n e : Node) (elements : list (option Node)) :
  ArrayUnpacker.init_elements n = Ok elements -> Some e ∈ elements -> e ∈ nodes n.
Proof.
  destruct n as [|id [] [|binding [|[[|ida [] es]|] [|]]]]; try done.
  simpl. intros [= ->] He.
  apply nodes_Inner. right. exists (Inner ida ArrayExpression elements). split.
  - apply elem_of_cons. right. apply elem_of_cons. by left.
  - apply nodes_Inner. right. exists e. split; [done|apply nodes_self].
Qed.

Section Seen.
Variable U : gset NodeId.
Implicit Types (self : ArrayUnpacker.t).

Lemma findArrays_seen self found self' :
  declarators (ArrayUnpacker.ast self) ⊆ U ->
  ArrayUnpacker.arrayNodes self ⊆ U ->
  ArrayUnpacker.elements_within U (ArrayUnpacker.arrays self) ->
  ArrayUnpacker.findArrays self = Ok (found, self') ->
  ArrayUnpacker.ast self' = ArrayUnpacker.ast self
  /\ ArrayUnpacker.shouldRemoveArrays self' = ArrayUnpacker.shouldRemoveArrays self
  /\ ArrayUnpacker.arrayNodes self ⊆ ArrayUnpacker.arrayNodes self'
  /\ ArrayUnpacker.arrayNodes self' ⊆ U
  /\ ArrayUnpacker.elements_within U (ArrayUnpacker.arrays self')
  /\ (found = true ->
      exists id, id ∈ ArrayUnpacker.arrayNodes self' /\ id ∉ ArrayUnpacker.arrayNodes self)
  /\ (found = false ->
      ArrayUnpacker.arrayNodes self' = ArrayUnpacker.arrayNodes self
      /\ ArrayUnpacker.arrays self' = ArrayUnpacker.arrays self).
Proof.
  intros Hdecl Hseen Hwithin. unfold ArrayUnpacker.findArrays.
  destruct (traverse _ _ _ _ _) as [s|] eqn:Hwalk; simpl; [|done]. intros [= <- <-].
  eapply (traverse_invariant _ _
    (fun s =>
       ArrayUnpacker.ast (ArrayUnpacker.f_self s) = ArrayUnpacker.ast self
       /\ ArrayUnpacker.shouldRemoveArrays (ArrayUnpacker.f_self s)
          = ArrayUnpacker.shouldRemoveArrays self
       /\ ArrayUnpacker.arrayNodes self ⊆ ArrayUnpacker.arrayNodes (ArrayUnpacker.f_self s)
       /\ ArrayUnpacker.arrayNodes (ArrayUnpacker.f_self s) ⊆ U
       /\ ArrayUnpacker.elements_within U (ArrayUnpacker.arrays (ArrayUnpacker.f_self s))
       /\ (ArrayUnpacker.f_foundArrays s = true ->
           exists id, id ∈ ArrayUnpacker.arrayNodes (ArrayUnpacker.f_self s)
                      /\ id ∉ ArrayUnpacker.arrayNodes self)
       /\ (ArrayUnpacker.f_foundArrays s = false ->
           ArrayUnpacker.arrayNodes (ArrayUnpacker.f_self s) = ArrayUnpacker.arrayNodes self
           /\ ArrayUnpacker.arrays (ArrayUnpacker.f_self s) = ArrayUnpacker.arrays self)));
    [| | |exact Hwalk].
  - intros n p t t' Hn (Hast & Hflag & Hmono & Hbound & Hel & Hfound & Hnone).
    unfold ArrayUnpacker.findArrays_enter.
    destruct (ArrayUnpacker.isScopeType n).
    { destruct (Scope.new _ _ _ _). by intros [= <-]. }
    destruct (ArrayUnpacker.isLiteralArrayDeclaration n) eqn:Hlit; simpl;
      [|by intros [= <-]].
    case_bool_decide as Hnew; simpl; [by intros [= <-]|].
    destruct (ArrayUnpacker.binding_name n) as [name|]; simpl; [|done].
    destruct (ArrayUnpacker.init_elements n) as [elements|] eqn:Hinit; simpl; [|done].
    intros [= <-]. simpl.
    assert (Hid : node_id n ∈ U).
    { apply Hdecl, elem_of_declarators. exists n.
      split; [done|]. split; [by apply isLiteralArrayDeclaration_declarator|done]. }
    split; [done|]. split; [done|]. split; [set_solver|]. split; [set_solver|].
    split; [|split; [|done]].
    + intros d e [Hd|Hd%list_elem_of_singleton]%elem_of_app He; [by eapply Hel|].
      subst d. simpl in He. etrans; [|exact Hdecl].
      apply declarators_nodes. eapply nodes_trans; [exact Hn|].
      by eapply init_elements_nodes.
    + intros _. exists (node_id n). split; [set_solver|].
      intros Hold. apply Hnew, Hmono, Hold.
  - intros n t t' _ Ht. unfold ArrayUnpacker.findArrays_leave.
    destruct (ArrayUnpacker.the_scope _ _) as [scope|]; simpl; [|done].
    destruct (Scope.parent scope); [|by intros [= <-]].
    case_bool_decide; by intros [= <-].
  - simpl. repeat split; try done.
Qed.

Lemma unpackArrays_seen self self' :
  declarators (ArrayUnpacker.ast self) ⊆ U ->
  ArrayUnpacker.elements_within U (ArrayUnpacker.arrays self) ->
  ArrayUnpacker.unpackArrays self = Ok self' ->
  declarators (ArrayUnpacker.ast self') ⊆ U
  /\ ArrayUnpacker.elements_within U (ArrayUnpacker.arrays self').
Proof.
  intros Hdecl Hwithin. unfold ArrayUnpacker.unpackArrays.
  destruct (traverse _ _ _ _ _) as [s|] eqn:Hwalk; simpl; [|done]. intros [= <-].
  eapply (traverse_invariant _ _
    (fun s =>
       declarators (ArrayUnpacker.ast (ArrayUnpacker.u_self s)) ⊆ U
       /\ ArrayUnpacker.elements_within U (ArrayUnpacker.arrays (ArrayUnpacker.u_self s))));
    [| | |exact Hwalk]; [| |done].
  - intros n p t t' _ [Hd Hel]. unfold ArrayUnpacker.unpackArrays_enter.
    destruct (ArrayUnpacker.isScopeType n).
    { destruct (ArrayUnpacker.the_scope _ _); simpl; [|done]. by intros [= <-]. }
    destruct (ArrayUnpacker.isSimpleArrayAccess n); [|by intros [= <-]].
    destruct (ArrayUnpacker.object_name n) as [name|]; simpl; [|done].
    destruct (ArrayUnpacker.defined _) as [scope|]; simpl; [|done].
    destruct (Scope.get _ scope name) as [array|]; [|by intros [= <-]].
    destruct (ArrayUnpacker.expression_value n) as [index|]; simpl; [|done].
    destruct (_ !! array) as [descriptor|] eqn:Harray; [|done].
    destruct (ArrayUnpacker.element_at _ index) as [[replacement|]|] eqn:Helement;
      [|by intros [= <-]..].
    destruct p as [p|]; [|done]. intros [= <-]. simpl.
    assert (Hr : Some replacement ∈ Array.elements descriptor).
    { unfold ArrayUnpacker.element_at in Helement.
      destruct (_ && _); [|done]. by eapply list_elem_of_lookup_2. }
    assert (Hdescriptor : descriptor ∈ ArrayUnpacker.arrays (ArrayUnpacker.u_self t))
      by (by eapply list_elem_of_lookup_2).
    split.
    + etrans; [apply replaceNode_declarators|].
      apply union_least; [done|]. by eapply Hel.
    + intros d e Hd' He.
      apply list_elem_of_lookup in Hd' as [j Hj].
      destruct (decide (array = j)) as [->|Hne].
      * rewrite list_lookup_insert_eq in Hj by (by eapply lookup_lt_Some).
        injection Hj as <-. by eapply Hel.
      * rewrite list_lookup_insert_ne in Hj by done.
        eapply Hel; [|exact He]. by eapply list_elem_of_lookup_2.
  - intros n t t' _ Ht. unfold ArrayUnpacker.unpackArrays_leave.
    destruct (ArrayUnpacker.the_scope _ _) as [scope|]; simpl; [|done].
    destruct (Scope.parent scope); [|by intros [= <-]].
    case_bool_decide; by intros [= <-].
Qed.

(** The loop ends within as many rounds as there are declarators not
    yet seen, and one more. *)
Lemma fixpoint_loop_ends (rounds : nat) self :
  declarators (ArrayUnpacker.ast self) ⊆ U ->
  ArrayUnpacker.arrayNodes self ⊆ U ->
  ArrayUnpacker.elements_within U (ArrayUnpacker.arrays self) ->
  size (U ∖ ArrayUnpacker.arrayNodes self) < rounds ->
  exists r, ArrayUnpacker.fixpoint_loop rounds self = Some r.
Proof.
  revert self. induction rounds as [|rounds IH]; intros self Hdecl Hseen Hwithin Hsize;
    [lia|].
  simpl. destruct (ArrayUnpacker.findArrays self) as [[[|] self1]|e] eqn:Hfind;
    [|by eexists..].
  destruct (findArrays_seen _ _ _ Hdecl Hseen Hwithin Hfind)
    as (Hast & _ & Hmono & Hbound & Hwithin1 & Hnew & _).
  destruct (Hnew eq_refl) as (id & Hid & Hfresh).
  destruct (ArrayUnpacker.unpackArrays self1) as [self2|e] eqn:Hunpack; [|by eexists].
  rewrite <- Hast in Hdecl.
  destruct (unpackArrays_seen _ _ Hdecl Hwithin1 Hunpack) as (Hdecl2 & Hwithin2).
  apply unpackArrays_scopes in Hunpack as (_ & _ & Hseen2 & _).
  apply IH; [done|by rewrite Hseen2|done|].
  rewrite Hseen2.
  assert (Hlt : size (U ∖ ArrayUnpacker.arrayNodes self1)
                < size (U ∖ ArrayUnpacker.arrayNodes self)).
  { apply subset_size. split; [set_solver|].
    intros Hsub. assert (Hin : id ∈ U ∖ ArrayUnpacker.arrayNodes self) by set_solver.
    apply Hsub in Hin. set_solver. }
  lia.
Qed.
End Seen.

Lemma running_seen (tree : Node) (removeArrays : bool) (self : ArrayUnpacker.t) :
  ArrayUnpacker.running tree removeArrays self ->
  declarators (ArrayUnpacker.ast self) ⊆ declarators tree
  /\ ArrayUnpacker.arrayNodes self ⊆ declarators tree
  /\ ArrayUnpacker.elements_within (declarators tree) (ArrayUnpacker.arrays self).
Proof.
  induction 1 as [|self found self' _ (Hd & Hs & He) Hfind|self self' _ (Hd & Hs & He) Hunpack].
  - split; [done|]. split; [apply empty_subseteq|].
    intros d e Hd. by apply elem_of_nil in Hd.
  - destruct (findArrays_seen _ _ _ _ Hd Hs He Hfind) as (-> & _ & _ & ? & ? & _). done.
  - destruct (unpackArrays_seen _ _ _ Hd He Hunpack) as (? & ?).
    apply unpackArrays_scopes in Hunpack as (_ & _ & -> & _). done.
Qed.

(** ** Discovery on a tree without new arrays *)

Lemma literal_array_fields (n : Node) :
  ArrayUnpacker.isLiteralArrayDeclaration n = true ->
  (exists name, ArrayUnpacker.binding_name n = Ok name)
  /\ (exists elements, ArrayUnpacker.init_elements n = Ok elements)
  /\ ArrayUnpacker.isScopeType n = false.
Proof.
  destruct n as [|id [] [|[[idb []|]|] [|[[|ida [] es]|] [|]]]]; try done.
  intros _. split; [by eexists|]. split; [by eexists|done].
Qed.

Lemma findArrays_total (self : ArrayUnpacker.t) :
  ArrayUnpacker.scope_tree (ArrayUnpacker.scopes self) (ArrayUnpacker.globalScope self) ->
  exists found self', ArrayUnpacker.findArrays self = Ok (found, self').
Proof.
  intros Htree. unfold ArrayUnpacker.findArrays.
  destruct (traverse_total ArrayUnpacker.findArrays_enter ArrayUnpacker.findArrays_leave
              (ArrayUnpacker.finding_scopes (ArrayUnpacker.globalScope self))
              (ArrayUnpacker.ast self)) with
    (p := @None Node)
    (s := ArrayUnpacker.finding self (ArrayUnpacker.globalScope self) false)
    as (s' & -> & _).
  - intros n p s _ Hs.
    assert (Hok : exists s', ArrayUnpacker.findArrays_enter n p s = Ok s').
    { unfold ArrayUnpacker.findArrays_enter.
      destruct (ArrayUnpacker.isScopeType n).
      { destruct (Scope.new _ _ _ _). by eexists. }
      destruct (ArrayUnpacker.isLiteralArrayDeclaration n) eqn:Hlit; simpl; [|by eexists].
      destruct (bool_decide _); simpl; [by eexists|].
      destruct (literal_array_fields n Hlit) as ((name & ->) & (elements & ->) & _).
      simpl. by eexists. }
    destruct Hok as [s' Hs']. exists s'. split; [done|].
    by eapply findArrays_enter_scopes.
  - intros n s _ Hs.
    assert (Hok : exists s', ArrayUnpacker.findArrays_leave n s = Ok s').
    { unfold ArrayUnpacker.findArrays_leave, ArrayUnpacker.the_scope. simpl.
      destruct Hs as (_ & _ & Hlt). apply deref_is_Some in Hlt as [scope ->]. simpl.
      destruct (Scope.parent scope); [|by eexists].
      destruct (bool_decide _); by eexists. }
    destruct Hok as [s' Hs']. exists s'. split; [done|].
    by eapply findArrays_leave_scopes.
  - split; [done|]. split; [done|]. simpl. by eapply scope_tree_lt.
  - simpl. by eexists _, _.
Qed.

(** What a discovery round leaves as it is, and what a round that finds
    nothing leaves as it is. *)
Lemma findArrays_frame (self : ArrayUnpacker.t) (found : bool) (self' : ArrayUnpacker.t) :
  ArrayUnpacker.findArrays self = Ok (found, self') ->
  ArrayUnpacker.ast self' = ArrayUnpacker.ast self
  /\ ArrayUnpacker.shouldRemoveArrays self' = ArrayUnpacker.shouldRemoveArrays self
  /\ (found = false ->
      ArrayUnpacker.arrayNodes self' = ArrayUnpacker.arrayNodes self
      /\ ArrayUnpacker.arrays self' = ArrayUnpacker.arrays self).
Proof.
  unfold ArrayUnpacker.findArrays.
  destruct (traverse _ _ _ _ _) as [s|] eqn:Hwalk; simpl; [|done]. intros [= <- <-].
  eapply (traverse_invariant _ _
    (fun s =>
       ArrayUnpacker.ast (ArrayUnpacker.f_self s) = ArrayUnpacker.ast self
       /\ ArrayUnpacker.shouldRemoveArrays (ArrayUnpacker.f_self s)
          = ArrayUnpacker.shouldRemoveArrays self
       /\ (ArrayUnpacker.f_foundArrays s = false ->
           ArrayUnpacker.arrayNodes (ArrayUnpacker.f_self s) = ArrayUnpacker.arrayNodes self
           /\ ArrayUnpacker.arrays (ArrayUnpacker.f_self s) = ArrayUnpacker.arrays self)));
    [| | |exact Hwalk]; [| |done].
  - intros n p t t' _ (Hast & Hflag & Hnone). unfold ArrayUnpacker.findArrays_enter.
    destruct (ArrayUnpacker.isScopeType n).
    { destruct (Scope.new _ _ _ _). by intros [= <-]. }
    destruct (_ && _); [|by intros [= <-]].
    destruct (ArrayUnpacker.binding_name n) as [name|]; simpl; [|done].
    destruct (ArrayUnpacker.init_elements n) as [elements|]; simpl; [|done].
    by intros [= <-].
  - intros n t t' _ Ht. unfold ArrayUnpacker.findArrays_leave.
    destruct (ArrayUnpacker.the_scope _ _) as [scope|]; simpl; [|done].
    destruct (Scope.parent scope); [|by intros [= <-]].
    case_bool_decide; by intros [= <-].
Qed.

(** A discovery round that finds nothing has met no literal array
    declaration outside the set of seen declarators. *)
Lemma findArrays_false_all_seen (self self' : ArrayUnpacker.t) (n : Node) :
  ArrayUnpacker.findArrays self = Ok (false, self') ->
  n ∈ nodes (ArrayUnpacker.ast self) ->
  ArrayUnpacker.isLiteralArrayDeclaration n = true ->
  node_id n ∈ ArrayUnpacker.arrayNodes self.
Proof.
  intros Hfind Hn Hlit.
  destruct (findArrays_frame _ _ _ Hfind) as (_ & _ & Hsame).
  destruct (Hsame eq_refl) as [<- _]. revert Hfind.
  unfold ArrayUnpacker.findArrays.
  destruct (traverse _ _ _ _ _) as [s|] eqn:Hwalk; simpl; [|done]. intros [= Hfound <-].
  assert (Hgood : ArrayUnpacker.f_foundArrays s = true
                  \/ node_id n ∈ ArrayUnpacker.arrayNodes (ArrayUnpacker.f_self s)).
  { eapply (traverse_reaches _ _
              (fun s => ArrayUnpacker.f_foundArrays s = true
                        \/ node_id n ∈ ArrayUnpacker.arrayNodes (ArrayUnpacker.f_self s))
              _ n Hn); [| | |exact Hwalk].
    - intros p t t'. unfold ArrayUnpacker.findArrays_enter.
      destruct (literal_array_fields n Hlit) as ((name & ->) & (elements & ->) & ->).
      rewrite Hlit. simpl. case_bool_decide as Hseen; simpl.
      + intros [= <-]. by right.
      + intros [= <-]. by left.
    - intros m p t t' Hgood. unfold ArrayUnpacker.findArrays_enter.
      destruct (ArrayUnpacker.isScopeType m).
      { destruct (Scope.new _ _ _ _). by intros [= <-]. }
      destruct (_ && _); [|by intros [= <-]].
      destruct (ArrayUnpacker.binding_name m) as [name|]; simpl; [|done].
      destruct (ArrayUnpacker.init_elements m) as [elements|]; simpl; [|done].
      intros [= <-]. by left.
    - intros m t t' Hgood. unfold ArrayUnpacker.findArrays_leave.
      destruct (ArrayUnpacker.the_scope _ _) as [scope|]; simpl; [|done].
      destruct (Scope.parent scope); [|by intros [= <-]].
      case_bool_decide; by intros [= <-]. }
  destruct Hgood; [congruence|done].
Qed.

(** On a tree whose literal array declarations are all seen, a discovery
    round finds nothing. *)
Lemma findArrays_all_seen_false (self : ArrayUnpacker.t) (found : bool)
    (self' : ArrayUnpacker.t) :
  (forall n, n ∈ nodes (ArrayUnpacker.ast self) ->
             ArrayUnpacker.isLiteralArrayDeclaration n = true ->
             node_id n ∈ ArrayUnpacker.arrayNodes self) ->
  ArrayUnpacker.findArrays self = Ok (found, self') ->
  found = false.
Proof.
  intros Hseen. unfold ArrayUnpacker.findArrays.
  destruct (traverse _ _ _ _ _) as [s|] eqn:Hwalk; simpl; [|done]. intros [= <- <-].
  eapply (traverse_invariant _ _
    (fun s => ArrayUnpacker.f_foundArrays s = false
              /\ ArrayUnpacker.arrayNodes (ArrayUnpacker.f_self s)
                 = ArrayUnpacker.arrayNodes self));
    [| | |exact Hwalk]; [| |done].
  - intros n p t t' Hn (Hfound & Hsame). unfold ArrayUnpacker.findArrays_enter.
    destruct (ArrayUnpacker.isScopeType n).
    { destruct (Scope.new _ _ _ _). by intros [= <-]. }
    destruct (ArrayUnpacker.isLiteralArrayDeclaration n) eqn:Hlit; simpl;
      [|by intros [= <-]].
    rewrite Hsame, bool_decide_true by by apply Hseen. simpl. by intros [= <-].
  - intros n t t' _ Ht. unfold ArrayUnpacker.findArrays_leave.
    destruct (ArrayUnpacker.the_scope _ _) as [scope|]; simpl; [|done].
    destruct (Scope.parent scope); [|by intros [= <-]].
    case_bool_decide; by intros [= <-].
Qed.

(** ** The scopes mirror the blocks of the tree *)

Section Mirror.
Implicit Types (h : Scope.Store ArrayId) (K : list NodeId).

Lemma deref_update_Some h p f i ss :
  Scope.deref h i = Some ss ->
  Scope.deref (Scope.update h p f) i = Some (if decide (p = i) then f ss else ss).
Proof.
  intros Hss. case_decide as Hp.
  - subst p. by apply deref_update_eq.
  - by rewrite deref_update_ne.
Qed.

Lemma extends_refl K h : ArrayUnpacker.extends K h h.
Proof. intros i ss Hss. by exists ss. Qed.

Lemma extends_trans K1 K2 h1 h2 h3 :
  ArrayUnpacker.extends K1 h1 h2 -> ArrayUnpacker.extends K2 h2 h3 ->
  ArrayUnpacker.extends (K1 ++ K2) h1 h3.
Proof.
  intros H12 H23 i ss Hss.
  destruct (H12 i ss Hss) as (ss2 & Hss2 & Hnode2 & Hparent2 & Hchildren2).
  destruct (H23 i ss2 Hss2) as (ss3 & Hss3 & Hnode3 & Hparent3 & Hchildren3).
  exists ss3. split; [done|]. split; [congruence|]. split; [congruence|].
  intros key Hkey. rewrite not_elem_of_app in Hkey. destruct Hkey as [Hk1 Hk2].
  by rewrite Hchildren3, Hchildren2.
Qed.

Lemma extends_set_element h s name array :
  ArrayUnpacker.extends [] h (Scope.set_element h s name array).
Proof.
  intros i ss Hss. unfold Scope.set_element.
  rewrite (deref_update_Some _ _ _ _ _ Hss). eexists. split; [done|].
  by case_decide.
Qed.

Lemma extends_new h n type p c h' :
  Scope.new h n type (Some p) = (c, h') -> ArrayUnpacker.extends [n] h h'.
Proof.
  intros [= <- <-] i ss Hss.
  pose proof (deref_lt _ _ _ Hss) as Hlt.
  rewrite deref_older by (unfold Scope.set_child; rewrite update_length; lia).
  unfold Scope.set_child. rewrite (deref_update_Some _ _ _ _ _ Hss).
  eexists. split; [done|]. case_decide; [|done]. simpl.
  split; [done|]. split; [done|].
  intros key Hkey. apply map_get_set_ne. intros ->. apply Hkey, list_elem_of_singleton. done.
Qed.

Lemma all_children_forall (P : Node -> Prop) (children : list (option Node)) :
  ArrayUnpacker.all_children P children <-> forall c, Some c ∈ children -> P c.
Proof.
  induction children as [|[c|] cs IH]; simpl.
  - split; [|done]. intros _ c Hc. by apply elem_of_nil in Hc.
  - rewrite IH. split.
    + intros [Hc Hcs] c' [[= ->]|Hc']%elem_of_cons; [done|by apply Hcs].
    + intros Hall. split; [apply Hall, elem_of_cons; by left|].
      intros c' Hc'. apply Hall, elem_of_cons. by right.
  - rewrite IH. split.
    + intros Hcs c' [?|Hc']%elem_of_cons; [done|by apply Hcs].
    + intros Hall c' Hc'. apply Hall, elem_of_cons. by right.
Qed.

Lemma scope_ids_child (id : NodeId) (type : InnerType) (children : list (option Node))
    (c : Node) (k : NodeId) :
  Some c ∈ children -> k ∈ ArrayUnpacker.scope_ids c ->
  k ∈ ArrayUnpacker.scope_ids (Inner id type children).
Proof.
  intros Hc Hk. cbn [ArrayUnpacker.scope_ids]. apply elem_of_app. right.
  apply list_elem_of_In, in_flat_map. exists (Some c). split; by apply list_elem_of_In.
Qed.

Lemma scope_ids_nodes (t n : Node) :
  n ∈ nodes t -> ArrayUnpacker.isScopeType n = true -> node_id n ∈ ArrayUnpacker.scope_ids t.
Proof.
  induction t as [id type|id type children IH] using Node_ind; intros Hn Hscope.
  - apply elem_of_cons in Hn as [->|Hn]; [done|by apply elem_of_nil in Hn].
  - apply nodes_Inner in Hn as [->|(c & Hc & Hn)].
    + cbn [ArrayUnpacker.scope_ids]. rewrite Hscope. apply elem_of_app. left.
      by apply list_elem_of_singleton.
    + rewrite Forall_forall in IH. eapply scope_ids_child; [exact Hc|].
      by apply (IH (Some c) Hc).
Qed.

Lemma stays_extends K h h' s id :
  ArrayUnpacker.extends K h h' -> ArrayUnpacker.stays h s id -> ArrayUnpacker.stays h' s id.
Proof.
  intros Hext (ss & Hss & Hstay).
  destruct (Hext s ss Hss) as (ss' & Hss' & Hnode & Hparent & _).
  exists ss'. split; [done|]. by rewrite Hnode, Hparent.
Qed.

Lemma registered_extends K h h' s id c :
  ArrayUnpacker.extends K h h' -> id ∉ K ->
  ArrayUnpacker.registered h s id c -> ArrayUnpacker.registered h' s id c.
Proof.
  intros Hext Hid (ss & sc & Hss & Hchild & Hsc & Hnode & Hparent).
  destruct (Hext s ss Hss) as (ss' & Hss' & _ & _ & Hchildren).
  destruct (Hext c sc Hsc) as (sc' & Hsc' & Hnode' & Hparent' & _).
  exists ss', sc'. split; [done|]. split; [by rewrite Hchildren|].
  split; [done|]. split; congruence.
Qed.

Lemma mirrors_extends K h h' (t : Node) :
  ArrayUnpacker.extends K h h' ->
  (forall k, k ∈ ArrayUnpacker.scope_ids t -> k ∉ K) ->
  forall s, ArrayUnpacker.mirrors h t s -> ArrayUnpacker.mirrors h' t s.
Proof.
  intros Hext. induction t as [id type|id type children IH] using Node_ind; intros HK s.
  - simpl. by apply stays_extends with K.
  - cbn [ArrayUnpacker.mirrors].
    assert (Hchildren : forall s',
              ArrayUnpacker.all_children (fun t' => ArrayUnpacker.mirrors h t' s') children ->
              ArrayUnpacker.all_children (fun t' => ArrayUnpacker.mirrors h' t' s') children).
    { intros s'. rewrite !all_children_forall. intros Hall c Hc.
      rewrite Forall_forall in IH. apply (IH (Some c) Hc); [|by apply Hall].
      intros k Hk. apply HK. by eapply scope_ids_child. }
    destruct (ArrayUnpacker.isScopeType (Inner id type children)) eqn:Hscope.
    + intros (c & Hreg & Hall). exists c. split; [|by apply Hchildren].
      eapply registered_extends; [exact Hext| |exact Hreg].
      apply HK. cbn [ArrayUnpacker.scope_ids]. rewrite Hscope.
      apply elem_of_app. left. by apply list_elem_of_singleton.
    + intros [Hstay Hall]. split; [by apply stays_extends with K h|by apply Hchildren].
Qed.
End Mirror.

(** ** The rewrite traversal returns *)

Lemma first_binding_Some {T} (h : Scope.Store T) (name : string) (ids : list ScopeId) (v : T) :
  Scope.first_binding h name ids = Some v ->
  exists i, Scope.binding_at h i name = Some v.
Proof.
  induction ids as [|i ids IH]; simpl; [done|].
  destruct (Scope.binding_at h i name) as [w|] eqn:Hi; [|done].
  intros [= <-]. by exists i.
Qed.

Lemma simple_access_fields (n : Node) :
  ArrayUnpacker.isSimpleArrayAccess n = true ->
  (exists name, ArrayUnpacker.object_name n = Ok name)
  /\ (exists index, ArrayUnpacker.expression_value n = Ok index).
Proof.
  destruct n as [|id [] [|[[ido []|]|] [|[[idi []|]|] [|]]]]; try done.
  intros _. split; by eexists.
Qed.

Section RewriteReturns.
Variable h : Scope.Store ArrayId.

Lemma unpackArrays_leave_stays (n : Node) (self : ArrayUnpacker.t) (s : ScopeId) :
  ArrayUnpacker.scopes self = h ->
  ArrayUnpacker.stays h s (node_id n) ->
  ArrayUnpacker.unpackArrays_leave n (ArrayUnpacker.unpacking self (Some s))
  = Ok (ArrayUnpacker.unpacking self (Some s)).
Proof.
  intros Hh (ss & Hss & Hstay).
  unfold ArrayUnpacker.unpackArrays_leave, ArrayUnpacker.the_scope. simpl.
  rewrite Hh, Hss. simpl. destruct (Scope.parent ss) as [q|]; [|done].
  destruct Hstay as [?|Hne]; [done|]. rewrite bool_decide_false; [done|congruence].
Qed.

Lemma unpackArrays_leave_registered (n : Node) (self : ArrayUnpacker.t) (s c : ScopeId) :
  ArrayUnpacker.scopes self = h ->
  ArrayUnpacker.registered h s (node_id n) c ->
  ArrayUnpacker.unpackArrays_leave n (ArrayUnpacker.unpacking self (Some c))
  = Ok (ArrayUnpacker.unpacking self (Some s)).
Proof.
  intros Hh (ss & sc & _ & _ & Hsc & Hnode & Hparent).
  unfold ArrayUnpacker.unpackArrays_leave, ArrayUnpacker.the_scope. simpl.
  rewrite Hh, Hsc. simpl. rewrite Hparent, bool_decide_true; done.
Qed.

Lemma unpackArrays_enter_registered (n : Node) (p : option Node) (self : ArrayUnpacker.t)
    (s c : ScopeId) :
  ArrayUnpacker.scopes self = h ->
  ArrayUnpacker.isScopeType n = true ->
  ArrayUnpacker.registered h s (node_id n) c ->
  ArrayUnpacker.unpackArrays_enter n p (ArrayUnpacker.unpacking self (Some s))
  = Ok (ArrayUnpacker.unpacking self (Some c)).
Proof.
  intros Hh Hscope (ss & sc & Hss & Hchild & _).
  unfold ArrayUnpacker.unpackArrays_enter, ArrayUnpacker.the_scope. simpl.
  rewrite Hscope, Hh, Hss. simpl. by rewrite Hchild.
Qed.

Lemma unpackArrays_enter_plain (n : Node) (p : option Node) (self : ArrayUnpacker.t)
    (s : ScopeId) :
  ArrayUnpacker.scopes self = h ->
  ArrayUnpacker.bound_arrays_exist self ->
  ArrayUnpacker.isScopeType n = false ->
  (p = None -> ArrayUnpacker.isSimpleArrayAccess n = false) ->
  exists self',
    ArrayUnpacker.unpackArrays_enter n p (ArrayUnpacker.unpacking self (Some s))
    = Ok (ArrayUnpacker.unpacking self' (Some s))
    /\ ArrayUnpacker.scopes self' = h
    /\ ArrayUnpacker.bound_arrays_exist self'.
Proof.
  intros Hh Hbound Hscope Hroot.
  unfold ArrayUnpacker.unpackArrays_enter. simpl. rewrite Hscope.
  destruct (ArrayUnpacker.isSimpleArrayAccess n) eqn:Haccess; [|by exists self].
  destruct (simple_access_fields n Haccess) as ((name & ->) & (index & ->)). simpl.
  destruct (Scope.get _ s name) as [array|] eqn:Hget; [|by exists self].
  assert (Hlt : array < length (ArrayUnpacker.arrays self)).
  { rewrite get_chain in Hget. apply first_binding_Some in Hget as [i Hi].
    unfold Scope.binding_at in Hi.
    destruct (Scope.deref _ i) as [ss|] eqn:Hss; [|done]. by eapply Hbound. }
  destruct (_ !! array) as [descriptor|] eqn:Hdescriptor;
    [|apply lookup_ge_None in Hdescriptor; lia].
  destruct (ArrayUnpacker.element_at _ index) as [[replacement|]|]; [|by exists self..].
  destruct p as [p|]; [|specialize (Hroot eq_refl); congruence].
  eexists. split; [done|]. split; [done|].
  intros i ss name' array' Hss Harray'. simpl. rewrite length_insert.
  by eapply Hbound.
Qed.

Lemma unpackArrays_walk_returns (t : Node) :
  forall (s : ScopeId) (p : option Node) (self : ArrayUnpacker.t),
    ArrayUnpacker.mirrors h t s ->
    ArrayUnpacker.scopes self = h ->
    ArrayUnpacker.bound_arrays_exist self ->
    (p = None -> ArrayUnpacker.isSimpleArrayAccess t = false) ->
    exists self',
      traverse ArrayUnpacker.unpackArrays_enter ArrayUnpacker.unpackArrays_leave t p
        (ArrayUnpacker.unpacking self (Some s))
      = Ok (ArrayUnpacker.unpacking self' (Some s))
      /\ ArrayUnpacker.scopes self' = h
      /\ ArrayUnpacker.bound_arrays_exist self'.
Proof.
  induction t as [id type|id type children IH] using Node_ind;
    intros s p self Hmirror Hh Hbound Hroot.
  - simpl in Hmirror. cbn [traverse].
    destruct (unpackArrays_enter_plain (Leaf id type) p self s Hh Hbound eq_refl Hroot)
      as (self1 & -> & Hh1 & Hbound1).
    simpl. rewrite unpackArrays_leave_stays by done. by exists self1.
  - cbn [traverse ArrayUnpacker.mirrors] in *.
    set (node := Inner id type children) in *.
    assert (Hloop : forall (cur : ScopeId) (self1 : ArrayUnpacker.t),
              ArrayUnpacker.all_children (fun t' => ArrayUnpacker.mirrors h t' cur) children ->
              ArrayUnpacker.scopes self1 = h ->
              ArrayUnpacker.bound_arrays_exist self1 ->
              exists self2,
                visit_each
                  (fun c => traverse ArrayUnpacker.unpackArrays_enter
                              ArrayUnpacker.unpackArrays_leave c (Some node))
                  children (ArrayUnpacker.unpacking self1 (Some cur))
                = Ok (ArrayUnpacker.unpacking self2 (Some cur))
                /\ ArrayUnpacker.scopes self2 = h
                /\ ArrayUnpacker.bound_arrays_exist self2).
    { intros cur self1 Hall Hh1 Hbound1. rewrite all_children_forall in Hall.
      destruct (visit_each_total
                  (fun st => exists self2,
                       st = ArrayUnpacker.unpacking self2 (Some cur)
                       /\ ArrayUnpacker.scopes self2 = h
                       /\ ArrayUnpacker.bound_arrays_exist self2)
                  (fun c => traverse ArrayUnpacker.unpackArrays_enter
                              ArrayUnpacker.unpackArrays_leave c (Some node))
                  children) with (s := ArrayUnpacker.unpacking self1 (Some cur))
        as (st & Hst & self2 & -> & Hh2 & Hbound2).
      - intros c st Hc (self2 & -> & Hh2 & Hbound2).
        rewrite Forall_forall in IH.
        destruct (IH (Some c) Hc cur (Some node) self2 (Hall c Hc) Hh2 Hbound2)
          as (self3 & Hwalk & Hh3 & Hbound3); [done|].
        eexists. split; [exact Hwalk|]. by exists self3.
      - by exists self1.
      - by exists self2. }
    destruct (ArrayUnpacker.isScopeType node) eqn:Hscope.
    + destruct Hmirror as (c & Hreg & Hall).
      rewrite (unpackArrays_enter_registered node p self s c Hh Hscope Hreg). simpl.
      destruct (Hloop c self Hall Hh Hbound) as (self2 & -> & Hh2 & Hbound2). simpl.
      rewrite (unpackArrays_leave_registered node self2 s c Hh2 Hreg). by exists self2.
    + destruct Hmirror as [Hstay Hall].
      destruct (unpackArrays_enter_plain node p self s Hh Hbound Hscope Hroot)
        as (self1 & -> & Hh1 & Hbound1). simpl.
      destruct (Hloop s self1 Hall Hh1 Hbound1) as (self2 & -> & Hh2 & Hbound2). simpl.
      rewrite (unpackArrays_leave_stays node self2 s Hh2 Hstay). by exists self2.
Qed.
End RewriteReturns.

(** ** The discovery traversal builds the mirror *)

Section DiscoveryMirrors.
Implicit Types (h : Scope.Store ArrayId) (st : ArrayUnpacker.Finding).

Lemma stays_all_extends K h h' s N :
  ArrayUnpacker.extends K h h' -> ArrayUnpacker.stays_all h s N -> ArrayUnpacker.stays_all h' s N.
Proof.
  intros Hext (ss & Hss & Hstay).
  destruct (Hext s ss Hss) as (ss' & Hss' & Hnode & Hparent & _).
  exists ss'. split; [done|]. by rewrite Hnode, Hparent.
Qed.

Lemma stays_all_stays h s N n :
  ArrayUnpacker.stays_all h s N -> n ∈ N -> ArrayUnpacker.stays h s (node_id n).
Proof.
  intros (ss & Hss & Hstay) Hn. exists ss. split; [done|].
  destruct Hstay as [?|Hne]; [by left|right; by apply Hne].
Qed.

Lemma stays_all_subseteq h s N N' :
  ArrayUnpacker.stays_all h s N -> (forall n, n ∈ N' -> n ∈ N) -> ArrayUnpacker.stays_all h s N'.
Proof.
  intros (ss & Hss & Hstay) Hsub. exists ss. split; [done|].
  destruct Hstay as [?|Hne]; [by left|right]. intros n Hn. by apply Hne, Hsub.
Qed.

Lemma findArrays_leave_stays n st :
  ArrayUnpacker.stays (ArrayUnpacker.scopes (ArrayUnpacker.f_self st))
    (ArrayUnpacker.f_scope st) (node_id n) ->
  ArrayUnpacker.findArrays_leave n st = Ok st.
Proof.
  intros (ss & Hss & Hstay).
  unfold ArrayUnpacker.findArrays_leave, ArrayUnpacker.the_scope. simpl.
  rewrite Hss. simpl. destruct (Scope.parent ss) as [q|]; [|done].
  destruct Hstay as [?|Hne]; [done|]. rewrite bool_decide_false; [done|congruence].
Qed.

Lemma findArrays_enter_plain n p st st' :
  ArrayUnpacker.isScopeType n = false ->
  ArrayUnpacker.findArrays_enter n p st = Ok st' ->
  ArrayUnpacker.f_scope st' = ArrayUnpacker.f_scope st
  /\ ArrayUnpacker.extends []
       (ArrayUnpacker.scopes (ArrayUnpacker.f_self st))
       (ArrayUnpacker.scopes (ArrayUnpacker.f_self st')).
Proof.
  intros Hscope. unfold ArrayUnpacker.findArrays_enter. rewrite Hscope.
  destruct (_ && _); [|intros [= <-]; split; [done|apply extends_refl]].
  destruct (ArrayUnpacker.binding_name n) as [name|]; simpl; [|done].
  destruct (ArrayUnpacker.init_elements n) as [elements|]; simpl; [|done].
  intros [= <-]. split; [done|]. simpl. apply extends_set_element.
Qed.

Lemma discovery_mirrors_children (children : list (option Node)) :
  Forall (fun slot => match slot with
                      | Some c => ArrayUnpacker.discovery_mirrors c
                      | None => True
                      end) children ->
  NoDup (flat_map (fun slot => match slot with
                               | Some c => ArrayUnpacker.scope_ids c
                               | None => []
                               end) children) ->
  forall (parent : option Node) st st',
    (forall c, Some c ∈ children ->
       ArrayUnpacker.stays_all (ArrayUnpacker.scopes (ArrayUnpacker.f_self st))
         (ArrayUnpacker.f_scope st) (nodes c)) ->
    visit_each
      (fun c => traverse ArrayUnpacker.findArrays_enter ArrayUnpacker.findArrays_leave c parent)
      children st = Ok st' ->
    ArrayUnpacker.f_scope st' = ArrayUnpacker.f_scope st
    /\ ArrayUnpacker.extends
         (flat_map (fun slot => match slot with
                                | Some c => ArrayUnpacker.scope_ids c
                                | None => []
                                end) children)
         (ArrayUnpacker.scopes (ArrayUnpacker.f_self st))
         (ArrayUnpacker.scopes (ArrayUnpacker.f_self st'))
    /\ ArrayUnpacker.all_children
         (fun t' => ArrayUnpacker.mirrors (ArrayUnpacker.scopes (ArrayUnpacker.f_self st')) t'
                      (ArrayUnpacker.f_scope st))
         children.
Proof.
  induction 1 as [|[c|] cs Hc _ IH]; cbn [flat_map visit_each ArrayUnpacker.all_children];
    intros Hnd parent st st' Hstays.
  - intros [= <-]. split; [done|]. split; [apply extends_refl|done].
  - destruct (traverse _ _ c parent st) as [st1|] eqn:Hwalk; simpl; [|done].
    intros Hrest. apply NoDup_app in Hnd as (Hnd_c & Hdisjoint & Hnd_cs).
    destruct (Hc parent st st1) as (Hscope1 & Hext1 & Hmirror1); [|exact Hwalk|].
    { apply Hstays, elem_of_cons. by left. }
    destruct (IH Hnd_cs parent st1 st') as (Hscope' & Hext' & Hall'); [|exact Hrest|].
    { intros c' Hc'. rewrite Hscope1. eapply stays_all_extends; [exact Hext1|].
      apply Hstays, elem_of_cons. by right. }
    split; [congruence|]. split; [by eapply extends_trans|].
    rewrite <- Hscope1. split; [|done].
    rewrite Hscope1. eapply mirrors_extends; [exact Hext'| |exact Hmirror1].
    intros k Hk. by apply Hdisjoint.
  - intros Hrest. apply (IH Hnd parent st st'); [|done].
    intros c' Hc'. apply Hstays, elem_of_cons. by right.
Qed.

Lemma scope_ids_Inner (id : NodeId) (type : InnerType) (children : list (option Node)) :
  ArrayUnpacker.scope_ids (Inner id type children)
  = (if ArrayUnpacker.isScopeType (Inner id type children) then [id] else [])
    ++ flat_map (fun slot => match slot with
                             | Some c => ArrayUnpacker.scope_ids c
                             | None => []
                             end) children.
Proof. reflexivity. Qed.

Lemma mirrors_Inner h (id : NodeId) (type : InnerType) (children : list (option Node))
    (s : ScopeId) :
  ArrayUnpacker.mirrors h (Inner id type children) s
  = if ArrayUnpacker.isScopeType (Inner id type children)
    then exists c, ArrayUnpacker.registered h s id c
                   /\ ArrayUnpacker.all_children
                        (fun t' => ArrayUnpacker.mirrors h t' c) children
    else ArrayUnpacker.stays h s id
         /\ ArrayUnpacker.all_children (fun t' => ArrayUnpacker.mirrors h t' s) children.
Proof. reflexivity. Qed.

Lemma findArrays_walk_mirrors (t : Node) :
  NoDup (ArrayUnpacker.scope_ids t) ->
  (forall n, n ∈ nodes t -> ArrayUnpacker.isScopeType n = false ->
             node_id n ∉ ArrayUnpacker.scope_ids t) ->
  ArrayUnpacker.discovery_mirrors t.
Proof.
  induction t as [id type|id type children IH] using Node_ind; intros Hnd Hplain p st st' Hstays.
  - cbn [traverse]. simpl.
    rewrite findArrays_leave_stays.
    + intros [= <-]. split; [done|]. split; [apply extends_refl|].
      simpl. eapply (stays_all_stays _ _ _ (Leaf id type)); [exact Hstays|apply nodes_self].
    + eapply (stays_all_stays _ _ _ (Leaf id type)); [exact Hstays|apply nodes_self].
  - rewrite scope_ids_Inner in Hnd.
    assert (HIH : Forall (fun slot => match slot with
                                      | Some c => ArrayUnpacker.discovery_mirrors c
                                      | None => True
                                      end) children).
    { rewrite Forall_forall in IH. apply Forall_forall. intros [c|] Hc; [|done].
      apply (IH (Some c) Hc).
      - apply NoDup_app in Hnd as (_ & _ & Hnd).
        clear -Hnd Hc. induction children as [|slot cs IHcs]; [by apply elem_of_nil in Hc|].
        simpl in Hnd. apply NoDup_app in Hnd as (Hhead & _ & Htail).
        apply elem_of_cons in Hc as [<-|Hc]; [done|by apply IHcs].
      - intros n Hn Hscope Hk. eapply (Hplain n); [by eapply nodes_child|done|].
        by eapply scope_ids_child. }
    clear IH. rewrite scope_ids_Inner, mirrors_Inner. cbn [traverse].
    set (node := Inner id type children) in *.
    destruct (ArrayUnpacker.findArrays_enter node p st) as [st1|] eqn:Henter;
      cbn [bind]; [|done].
    destruct (visit_each _ children st1) as [st2|] eqn:Hloop; cbn [bind]; [|done].
    intros Hleave.
    apply NoDup_app in Hnd as (_ & Hhead & Hnd).
    pose proof (fun Hst => discovery_mirrors_children children HIH Hnd _ _ _ Hst Hloop)
      as Hchildren.
    destruct (ArrayUnpacker.isScopeType node) eqn:Hscope.
    + (* a block or a function body *)
      destruct Hstays as (ss & Hss & _).
      unfold ArrayUnpacker.findArrays_enter in Henter. rewrite Hscope in Henter.
      destruct (Scope.new _ _ _ _) as [c h1] eqn:Hnew. injection Henter as <-.
      pose proof (deref_lt _ _ _ Hss) as Hlt.
      destruct (new_registers _ _ _ _ _ _ Hlt Hnew) as (-> & Hc & ps & Hps & Hchild).
      pose proof (extends_new _ _ _ _ _ _ Hnew) as Hext1.
      destruct Hchildren as (Hscope2 & Hext2 & Hall).
      { intros c' Hc'. simpl. eexists. split; [exact Hc|]. right. simpl.
        intros n Hn Heq.
        destruct (ArrayUnpacker.isScopeType n) eqn:Hn_scope.
        - apply (Hhead id); [by apply list_elem_of_singleton|].
          rewrite Heq. apply list_elem_of_In, in_flat_map. exists (Some c').
          split; [by apply list_elem_of_In|]. apply list_elem_of_In.
          by apply scope_ids_nodes.
        - apply (Hplain n); [by eapply nodes_child|done|].
          rewrite <- Heq. unfold node. rewrite scope_ids_Inner. fold node. rewrite Hscope.
          apply elem_of_app. left. by apply list_elem_of_singleton. }
      simpl in Hscope2, Hext2, Hall.
      destruct (Hext2 _ _ Hc) as (sc2 & Hsc2 & Hnode2 & Hparent2 & _).
      destruct (Hext2 _ _ Hps) as (ps2 & Hps2 & _ & _ & Hchildren2).
      simpl in Hnode2, Hparent2.
      unfold ArrayUnpacker.findArrays_leave, ArrayUnpacker.the_scope in Hleave.
      simpl in Hleave. rewrite Hscope2, Hsc2 in Hleave. simpl in Hleave.
      rewrite Hparent2, bool_decide_true in Hleave by done. injection Hleave as <-.
      split; [done|]. split; [by eapply extends_trans|].
      exists (length (ArrayUnpacker.scopes (ArrayUnpacker.f_self st))). split; [|done].
      exists ps2, sc2. split; [done|]. split; [|done].
      rewrite Hchildren2; [done|]. intros Hin. apply (Hhead id); [|done].
      by apply list_elem_of_singleton.
    + (* any other node *)
      destruct (findArrays_enter_plain _ _ _ _ Hscope Henter) as (Hscope1 & Hext1).
      destruct Hchildren as (Hscope2 & Hext2 & Hall).
      { intros c' Hc'. rewrite Hscope1. eapply stays_all_extends; [exact Hext1|].
        eapply stays_all_subseteq; [exact Hstays|]. intros n Hn. by eapply nodes_child. }
      assert (Hstay2 : ArrayUnpacker.stays (ArrayUnpacker.scopes (ArrayUnpacker.f_self st2))
                         (ArrayUnpacker.f_scope st) (node_id node)).
      { eapply stays_extends; [exact Hext2|]. eapply stays_extends; [exact Hext1|].
        eapply stays_all_stays; [exact Hstays|apply nodes_self]. }
      rewrite findArrays_leave_stays in Hleave by (by rewrite Hscope2, Hscope1).
      injection Hleave as <-.
      split; [congruence|]. split; [by eapply extends_trans|].
      split; [done|]. by rewrite <- Hscope1.
Qed.
End DiscoveryMirrors.

(** ** Well-formed pass objects *)

Lemma replaceNode_nodes_kind (parent node : NodeId) (replacement t m : Node) :
  m ∈ nodes (replaceNode parent node replacement t) ->
  m ∈ nodes replacement
  \/ exists m0, m0 ∈ nodes t /\ node_id m0 = node_id m
                /\ ArrayUnpacker.isScopeType m0 = ArrayUnpacker.isScopeType m.
Proof.
  revert m. induction t as [id type|id type children IH] using Node_ind; intros m.
  - simpl. intros Hm. right. by exists m.
  - cbn [replaceNode]. intros [->|(c' & Hc' & Hm)]%nodes_Inner.
    + right. exists (Inner id type children). split; [apply nodes_self|done].
    + apply list_elem_of_fmap in Hc' as ([c|] & Hslot & Hc); [|done].
      destruct (_ && _).
      * injection Hslot as ->. by left.
      * injection Hslot as ->. rewrite Forall_forall in IH.
        destruct (IH (Some c) Hc m Hm) as [?|(m0 & Hm0 & Hid & Hd)]; [by left|].
        right. exists m0. split; [|done]. by eapply nodes_child.
Qed.

Lemma replaceNode_scope_ids (parent node : NodeId) (replacement t : Node) :
  ArrayUnpacker.scope_ids replacement = [] ->
  ArrayUnpacker.scope_ids (replaceNode parent node replacement t)
    `sublist_of` ArrayUnpacker.scope_ids t.
Proof.
  intros Hleaf. induction t as [id type|id type children IH] using Node_ind; [done|].
  cbn [replaceNode]. rewrite !scope_ids_Inner. apply sublist_app; [done|].
  induction IH as [|[c|] cs Hc _ IHcs]; simpl; [done| |done].
  apply sublist_app; [|done].
  destruct (_ && _); [rewrite Hleaf; apply sublist_nil_l|done].
Qed.

Lemma replaceNode_isProgram (parent node : NodeId) (replacement t : Node) :
  ArrayUnpacker.isProgram (replaceNode parent node replacement t) = ArrayUnpacker.isProgram t.
Proof. by destruct t as [|id [] cs]. Qed.

Lemma isLiteral_leaf (e : Node) :
  ArrayUnpacker.isLiteral e = true ->
  ArrayUnpacker.isScopeType e = false /\ ArrayUnpacker.scope_ids e = [] /\ nodes e = [e].
Proof. by destruct e as [id []|]. Qed.

Lemma literal_array_elements (n e : Node) (elements : list (option Node)) :
  ArrayUnpacker.isLiteralArrayDeclaration n = true ->
  ArrayUnpacker.init_elements n = Ok elements ->
  Some e ∈ elements -> ArrayUnpacker.isLiteral e = true.
Proof.
  destruct n as [|id [] [|[[idb []|]|] [|[[|ida [] es]|] [|]]]]; try done.
  simpl. intros Hfind [= <-] He.
  destruct (find _ es) eqn:Hnone; [done|].
  apply list_elem_of_In in He. apply (find_none _ _ Hnone) in He.
  by apply negb_false_iff in He.
Qed.

Lemma findArrays_bound (self : ArrayUnpacker.t) (found : bool) (self' : ArrayUnpacker.t) :
  ArrayUnpacker.bound_arrays_exist self ->
  ArrayUnpacker.findArrays self = Ok (found, self') ->
  ArrayUnpacker.bound_arrays_exist self'.
Proof.
  intros Hbound. unfold ArrayUnpacker.findArrays.
  destruct (traverse _ _ _ _ _) as [s|] eqn:Hwalk; simpl; [|done]. intros [= <- <-].
  eapply (traverse_invariant _ _
            (fun s => ArrayUnpacker.bound_arrays_exist (ArrayUnpacker.f_self s)));
    [| | |exact Hwalk]; [| |done].
  - intros n p t t' _ Ht. unfold ArrayUnpacker.findArrays_enter.
    destruct (ArrayUnpacker.isScopeType n).
    { destruct (Scope.new _ _ _ _) as [c h1] eqn:Hnew. intros [= <-].
      injection Hnew as <- <-. intros i ss name array. simpl.
      unfold Scope.set_child. rewrite update_length. case_decide.
      - by intros [= <-].
      - intros (ss0 & Hss0 & [->| ->])%deref_update Harray;
          exact (Ht _ _ _ _ Hss0 Harray). }
    destruct (_ && _); [|by intros [= <-]].
    destruct (ArrayUnpacker.binding_name n) as [name|]; simpl; [|done].
    destruct (ArrayUnpacker.init_elements n) as [elements|]; simpl; [|done].
    intros [= <-]. intros i ss name' array. simpl. rewrite length_app. simpl.
    intros (ss0 & Hss0 & [->| ->])%deref_update.
    + intros Harray. pose proof (Ht _ _ _ _ Hss0 Harray). lia.
    + simpl. destruct (decide (name = name')) as [->|Hne].
      * rewrite map_get_set_eq. intros [= <-]. lia.
      * rewrite map_get_set_ne by done. intros Harray.
        pose proof (Ht _ _ _ _ Hss0 Harray). lia.
  - intros n t t' _ Ht. unfold ArrayUnpacker.findArrays_leave.
    destruct (ArrayUnpacker.the_scope _ _) as [scope|]; simpl; [|done].
    destruct (Scope.parent scope); [|by intros [= <-]].
    case_bool_decide; by intros [= <-].
Qed.

Lemma findArrays_distinct (self : ArrayUnpacker.t) (found : bool) (self' : ArrayUnpacker.t) :
  ArrayUnpacker.blocks_distinct self ->
  ArrayUnpacker.findArrays self = Ok (found, self') ->
  ArrayUnpacker.blocks_distinct self'.
Proof.
  intros (Hnd & Hplain & Hel) Hfind.
  destruct (findArrays_frame _ _ _ Hfind) as (Hast & _). revert Hfind.
  unfold ArrayUnpacker.findArrays.
  destruct (traverse _ _ _ _ _) as [s|] eqn:Hwalk; simpl; [|done]. intros [= <- <-].
  unfold ArrayUnpacker.blocks_distinct. rewrite Hast. split; [done|]. split; [done|].
  eapply (traverse_invariant _ _
            (fun s => forall descriptor e,
                 descriptor ∈ ArrayUnpacker.arrays (ArrayUnpacker.f_self s) ->
                 Some e ∈ Array.elements descriptor ->
                 ArrayUnpacker.isLiteral e = true
                 /\ node_id e ∉ ArrayUnpacker.scope_ids (ArrayUnpacker.ast self)));
    [| | |exact Hwalk]; [| |done].
  - intros n p t t' Hn Ht. unfold ArrayUnpacker.findArrays_enter.
    destruct (ArrayUnpacker.isScopeType n).
    { destruct (Scope.new _ _ _ _). by intros [= <-]. }
    destruct (ArrayUnpacker.isLiteralArrayDeclaration n) eqn:Hlit; simpl;
      [|by intros [= <-]].
    destruct (negb _); simpl; [|by intros [= <-]].
    destruct (ArrayUnpacker.binding_name n) as [name|]; simpl; [|done].
    destruct (ArrayUnpacker.init_elements n) as [elements|] eqn:Hinit; simpl; [|done].
    intros [= <-]. simpl.
    intros d e [Hd|Hd%list_elem_of_singleton]%elem_of_app He; [by eapply Ht|].
    subst d. simpl in He.
    pose proof (literal_array_elements _ _ _ Hlit Hinit He) as Hliteral.
    split; [done|]. apply Hplain; [|by apply isLiteral_leaf].
    eapply nodes_trans; [exact Hn|]. by eapply init_elements_nodes.
  - intros n t t' _ Ht. unfold ArrayUnpacker.findArrays_leave.
    destruct (ArrayUnpacker.the_scope _ _) as [scope|]; simpl; [|done].
    destruct (Scope.parent scope); [|by intros [= <-]].
    case_bool_decide; by intros [= <-].
Qed.

Lemma unpackArrays_distinct (self self' : ArrayUnpacker.t) :
  ArrayUnpacker.blocks_distinct self ->
  ArrayUnpacker.isProgram (ArrayUnpacker.ast self) = true ->
  ArrayUnpacker.unpackArrays self = Ok self' ->
  ArrayUnpacker.blocks_distinct self'
  /\ ArrayUnpacker.isProgram (ArrayUnpacker.ast self') = true.
Proof.
  intros Hdistinct Hprogram. unfold ArrayUnpacker.unpackArrays.
  destruct (traverse _ _ _ _ _) as [s|] eqn:Hwalk; simpl; [|done]. intros [= <-].
  eapply (traverse_invariant _ _
            (fun s => ArrayUnpacker.blocks_distinct (ArrayUnpacker.u_self s)
                      /\ ArrayUnpacker.isProgram (ArrayUnpacker.ast (ArrayUnpacker.u_self s))
                         = true));
    [| | |exact Hwalk]; [| |done].
  - intros n p t t' _ [(Hnd & Hplain & Hel) Hprog]. unfold ArrayUnpacker.unpackArrays_enter.
    destruct (ArrayUnpacker.isScopeType n).
    { destruct (ArrayUnpacker.the_scope _ _); simpl; [|done]. by intros [= <-]. }
    destruct (ArrayUnpacker.isSimpleArrayAccess n); [|by intros [= <-]].
    destruct (ArrayUnpacker.object_name n) as [name|]; simpl; [|done].
    destruct (ArrayUnpacker.defined _) as [scope|]; simpl; [|done].
    destruct (Scope.get _ scope name) as [array|]; [|by intros [= <-]].
    destruct (ArrayUnpacker.expression_value n) as [index|]; simpl; [|done].
    destruct (_ !! array) as [descriptor|] eqn:Harray; [|done].
    destruct (ArrayUnpacker.element_at _ index) as [[replacement|]|] eqn:Helement;
      [|by intros [= <-]..].
    destruct p as [p|]; [|done]. intros [= <-]. simpl.
    assert (Hr : Some replacement ∈ Array.elements descriptor).
    { unfold ArrayUnpacker.element_at in Helement.
      destruct (_ && _); [|done]. by eapply list_elem_of_lookup_2. }
    assert (Hdescriptor : descriptor ∈ ArrayUnpacker.arrays (ArrayUnpacker.u_self t))
      by (by eapply list_elem_of_lookup_2).
    destruct (Hel _ _ Hdescriptor Hr) as [Hliteral Hfresh].
    destruct (isLiteral_leaf _ Hliteral) as (Hr_scope & Hr_ids & Hr_nodes).
    pose proof (replaceNode_scope_ids (node_id p) (node_id n) replacement
                  (ArrayUnpacker.ast (ArrayUnpacker.u_self t)) Hr_ids) as Hsub.
    split; [|by rewrite replaceNode_isProgram].
    split; [by eapply sublist_NoDup|]. split.
    + intros m Hm Hm_scope Hin. apply (elem_of_sublist _ _ _ Hin) in Hsub.
      apply replaceNode_nodes_kind in Hm as [Hm|(m0 & Hm0 & Hid & Hkind)].
      * rewrite Hr_nodes in Hm. apply list_elem_of_singleton in Hm as ->. done.
      * apply (Hplain m0); [done|congruence|by rewrite Hid].
    + intros d e Hd He. simpl in Hd.
      assert (Hold : exists d0, d0 ∈ ArrayUnpacker.arrays (ArrayUnpacker.u_self t)
                                /\ Array.elements d0 = Array.elements d).
      { apply list_elem_of_lookup in Hd as [j Hj].
        destruct (decide (array = j)) as [->|Hne].
        - rewrite list_lookup_insert_eq in Hj by (by eapply lookup_lt_Some).
          injection Hj as <-. by exists descriptor.
        - rewrite list_lookup_insert_ne in Hj by done.
          exists d. split; [by eapply list_elem_of_lookup_2|done]. }
      destruct Hold as (d0 & Hd0 & Hsame). rewrite <- Hsame in He.
      destruct (Hel _ _ Hd0 He) as [? Hfresh0]. split; [done|].
      intros Hin. by apply Hfresh0, (elem_of_sublist _ _ _ Hin).
  - intros n t t' _ Ht. unfold ArrayUnpacker.unpackArrays_leave.
    destruct (ArrayUnpacker.the_scope _ _) as [scope|]; simpl; [|done].
    destruct (Scope.parent scope); [|by intros [= <-]].
    case_bool_decide; by intros [= <-].
Qed.

Lemma scope_ids_sublist (t : Node) :
  ArrayUnpacker.scope_ids t `sublist_of` (node_id <$> nodes t).
Proof.
  induction t as [id type|id type children IH] using Node_ind; [apply sublist_nil_l|].
  rewrite scope_ids_Inner. cbn [nodes fmap list_fmap].
  assert (Hchildren :
            flat_map (fun slot => match slot with
                                  | Some c => ArrayUnpacker.scope_ids c
                                  | None => []
                                  end) children
            `sublist_of` (node_id <$> flat_map (fun slot => match slot with
                                                              | Some c => nodes c
                                                              | None => []
                                                              end) children)).
  { induction IH as [|[c|] cs Hc _ IHcs]; simpl; [done| |done].
    rewrite fmap_app. by apply sublist_app. }
  destruct (ArrayUnpacker.isScopeType _); simpl.
  - by apply sublist_skip.
  - by apply sublist_cons.
Qed.

Lemma scope_ids_elem_of (t : Node) (k : NodeId) :
  k ∈ ArrayUnpacker.scope_ids t ->
  exists n, n ∈ nodes t /\ ArrayUnpacker.isScopeType n = true /\ node_id n = k.
Proof.
  induction t as [id type|id type children IH] using Node_ind; [by intros ?%elem_of_nil|].
  rewrite scope_ids_Inner. intros [Hk|Hk]%elem_of_app.
  - destruct (ArrayUnpacker.isScopeType _) eqn:Hscope; [|by apply elem_of_nil in Hk].
    apply list_elem_of_singleton in Hk as ->.
    exists (Inner id type children). split; [apply nodes_self|done].
  - apply list_elem_of_In, in_flat_map in Hk as ([c|] & Hc & Hk); [|done].
    apply list_elem_of_In in Hc, Hk. rewrite Forall_forall in IH.
    destruct (IH (Some c) Hc Hk) as (n & Hn & Hscope & Hid).
    exists n. split; [by eapply nodes_child|done].
Qed.

Lemma NoDup_fmap_elem_of_inj {A B} (f : A -> B) (l : list A) (x y : A) :
  NoDup (f <$> l) -> x ∈ l -> y ∈ l -> f x = f y -> x = y.
Proof.
  induction l as [|z l IH]; [by intros _ ?%elem_of_nil|].
  rewrite fmap_cons, NoDup_cons.
  intros [Hz Hnd] [->|Hx]%elem_of_cons [->|Hy]%elem_of_cons Heq; [done| | |by apply IH].
  - exfalso. apply Hz. rewrite Heq. by apply list_elem_of_fmap_2.
  - exfalso. apply Hz. rewrite <- Heq. by apply list_elem_of_fmap_2.
Qed.

Lemma new_well_formed (tree : Node) (removeArrays : bool) :
  NoDup (node_id <$> nodes tree) ->
  ArrayUnpacker.isProgram tree = true ->
  ArrayUnpacker.well_formed (ArrayUnpacker.new tree removeArrays).
Proof.
  intros Hnd Hprogram. split; [|split; [|split; [|done]]].
  - apply (running_scope_tree tree removeArrays). constructor.
  - intros i ss name array. simpl. case_decide; [|done]. by intros [= <-].
  - split; [|split].
    + eapply sublist_NoDup; [exact Hnd|apply scope_ids_sublist].
    + simpl. intros n Hn Hplain (m & Hm & Hscope & Hid)%scope_ids_elem_of.
      assert (m = n) as -> by (by eapply NoDup_fmap_elem_of_inj).
      congruence.
    + intros d e Hd. by apply elem_of_nil in Hd.
Qed.

Lemma findArrays_well_formed (self : ArrayUnpacker.t) (found : bool)
    (self' : ArrayUnpacker.t) :
  ArrayUnpacker.well_formed self ->
  ArrayUnpacker.findArrays self = Ok (found, self') ->
  ArrayUnpacker.well_formed self'
  /\ ArrayUnpacker.mirrors (ArrayUnpacker.scopes self') (ArrayUnpacker.ast self')
       (ArrayUnpacker.globalScope self').
Proof.
  intros (Htree & Hbound & Hdistinct & Hprogram) Hfind.
  destruct (findArrays_frame _ _ _ Hfind) as (Hast & _).
  destruct (findArrays_scopes _ _ _ Htree Hfind) as (Hroot & Htree').
  split.
  - split; [done|]. split; [by eapply findArrays_bound|].
    split; [by eapply findArrays_distinct|by rewrite Hast].
  - rewrite Hast, Hroot. revert Hfind. unfold ArrayUnpacker.findArrays.
    destruct (traverse _ _ _ _ _) as [s|] eqn:Hwalk; simpl; [|done]. intros [= <- <-].
    destruct Hdistinct as (Hnd & Hplain & _).
    eapply (findArrays_walk_mirrors _ Hnd Hplain) in Hwalk as (_ & _ & Hmirror); [done|].
    destruct Htree as ((r & Hr & Hnone) & _). exists r. split; [done|by left].
Qed.

Lemma unpackArrays_returns (self : ArrayUnpacker.t) :
  ArrayUnpacker.well_formed self ->
  ArrayUnpacker.mirrors (ArrayUnpacker.scopes self) (ArrayUnpacker.ast self)
    (ArrayUnpacker.globalScope self) ->
  exists self', ArrayUnpacker.unpackArrays self = Ok self' /\ ArrayUnpacker.well_formed self'.
Proof.
  intros (Htree & Hbound & Hdistinct & Hprogram) Hmirror.
  destruct (unpackArrays_walk_returns _ _ (ArrayUnpacker.globalScope self) None self
              Hmirror eq_refl Hbound) as (self' & Hwalk & Hscopes & Hbound').
  { intros _. by destruct (ArrayUnpacker.ast self) as [|id [] cs]. }
  assert (Hunpack : ArrayUnpacker.unpackArrays self = Ok self').
  { unfold ArrayUnpacker.unpackArrays. by rewrite Hwalk. }
  exists self'. split; [done|].
  destruct (unpackArrays_distinct _ _ Hdistinct Hprogram Hunpack) as [Hdistinct' Hprogram'].
  apply unpackArrays_scopes in Hunpack as (Hroot & _ & _).
  split; [by rewrite Hroot, Hscopes|done].
Qed.

(** On a well-formed pass object the loop returns a pass object. *)
Lemma fixpoint_loop_returns (U : gset NodeId) (rounds : nat) (self : ArrayUnpacker.t) :
  ArrayUnpacker.well_formed self ->
  declarators (ArrayUnpacker.ast self) ⊆ U ->
  ArrayUnpacker.arrayNodes self ⊆ U ->
  ArrayUnpacker.elements_within U (ArrayUnpacker.arrays self) ->
  size (U ∖ ArrayUnpacker.arrayNodes self) < rounds ->
  exists self', ArrayUnpacker.fixpoint_loop rounds self = Some (Ok self').
Proof.
  revert self. induction rounds as [|rounds IH];
    intros self Hwf Hdecl Hseen Hwithin Hsize; [lia|].
  simpl.
  destruct (findArrays_total self (proj1 Hwf)) as (found & self1 & Hfind). rewrite Hfind.
  destruct found; [|by eexists].
  destruct (findArrays_well_formed _ _ _ Hwf Hfind) as [Hwf1 Hmirror].
  destruct (findArrays_seen _ _ _ _ Hdecl Hseen Hwithin Hfind)
    as (Hast & _ & Hmono & Hbound & Hwithin1 & Hnew & _).
  destruct (Hnew eq_refl) as (id & Hid & Hfresh).
  destruct (unpackArrays_returns self1 Hwf1 Hmirror) as (self2 & Hunpack & Hwf2).
  rewrite Hunpack. rewrite <- Hast in Hdecl.
  destruct (unpackArrays_seen _ _ _ Hdecl Hwithin1 Hunpack) as (Hdecl2 & Hwithin2).
  apply unpackArrays_scopes in Hunpack as (_ & _ & Hseen2 & _).
  apply IH; [done|done|by rewrite Hseen2|done|].
  rewrite Hseen2.
  assert (Hlt : size (U ∖ ArrayUnpacker.arrayNodes self1)
                < size (U ∖ ArrayUnpacker.arrayNodes self)).
  { apply subset_size. split; [set_solver|].
    intros Hsub. assert (Hin : id ∈ U ∖ ArrayUnpacker.arrayNodes self) by set_solver.
    apply Hsub in Hin. set_solver. }
  lia.
Qed.

(** C3: a discovery round that finds a new array strictly increases the
    set of seen declarators, which stays within the declarators of the
    input tree, at most as many as the tree has nodes; so, for every input
    tree, the loop of [execute] ends, within one round more than the tree
    has nodes.  On a program whose nodes have identities of their own, no
    round throws and the loop ends with a pass object. *)
Theorem fixpoint_loop_terminates :
  (forall (tree : Node) (removeArrays : bool) (self self' : ArrayUnpacker.t),
      ArrayUnpacker.running tree removeArrays self ->
      ArrayUnpacker.findArrays self = Ok (true, self') ->
      ArrayUnpacker.arrayNodes self ⊂ ArrayUnpacker.arrayNodes self'
      /\ ArrayUnpacker.arrayNodes self' ⊆ declarators tree
      /\ size (ArrayUnpacker.arrayNodes self') ≤ length (nodes tree))
  /\ (forall (tree : Node) (removeArrays : bool),
      exists r,
        ArrayUnpacker.fixpoint_loop (S (length (nodes tree)))
          (ArrayUnpacker.new tree removeArrays) = Some r)
  /\ (forall (tree : Node) (removeArrays : bool),
      NoDup (node_id <$> nodes tree) ->
      ArrayUnpacker.isProgram tree = true ->
      exists self,
        ArrayUnpacker.fixpoint_loop (S (length (nodes tree)))
          (ArrayUnpacker.new tree removeArrays) = Some (Ok self)).
Proof.
  assert (Hfuel : forall tree removeArrays,
            size (declarators tree
                  ∖ ArrayUnpacker.arrayNodes (ArrayUnpacker.new tree removeArrays))
            < S (length (nodes tree))).
  { intros tree removeArrays. pose proof (declarators_size tree) as Hsize.
    assert (Hle : size (declarators tree
                        ∖ ArrayUnpacker.arrayNodes (ArrayUnpacker.new tree removeArrays))
                  ≤ size (declarators tree)).
    { apply subseteq_size. intros y Hy. by apply elem_of_difference in Hy as [? _]. }
    lia. }
  split; [|split].
  - intros tree removeArrays self self' Hrun Hfind.
    destruct (running_seen _ _ _ Hrun) as (Hd & Hs & He).
    destruct (findArrays_seen _ _ _ _ Hd Hs He Hfind)
      as (_ & _ & Hmono & Hbound & _ & Hnew & _).
    destruct (Hnew eq_refl) as (id & Hid & Hfresh).
    split; [|split; [done|]].
    + split; [done|]. intros Hsub. by apply Hfresh, Hsub.
    + etrans; [by apply subseteq_size|apply declarators_size].
  - intros tree removeArrays.
    destruct (running_seen tree removeArrays _ (ArrayUnpacker.running_new _ _))
      as (Hd & Hs & He).
    by apply (fixpoint_loop_ends (declarators tree)).
  - intros tree removeArrays Hnd Hprogram.
    destruct (running_seen tree removeArrays _ (ArrayUnpacker.running_new _ _))
      as (Hd & Hs & He).
    apply (fixpoint_loop_returns (declarators tree)); [|done..].
    by apply new_well_formed.
Qed.

(** The first discovery round on [const a = [1, 2]; a[5];], and the loop
    on that program. *)
Lemma fixpoint_loop_terminates_witness :
  (ArrayUnpacker.arrayNodes (ArrayUnpacker.new Examples.out_of_range true)
     ⊂ ArrayUnpacker.arrayNodes (Examples.discovered Examples.out_of_range true)
   /\ ArrayUnpacker.arrayNodes (Examples.discovered Examples.out_of_range true)
      ⊆ declarators Examples.out_of_range
   /\ size (ArrayUnpacker.arrayNodes (Examples.discovered Examples.out_of_range true))
      ≤ length (nodes Examples.out_of_range))
  /\ exists self,
       ArrayUnpacker.fixpoint_loop (S (length (nodes Examples.out_of_range)))
         (ArrayUnpacker.new Examples.out_of_range true) = Some (Ok self).
Proof.
  split.
  - apply (proj1 fixpoint_loop_terminates Examples.out_of_range true
             (ArrayUnpacker.new Examples.out_of_range true)
             (Examples.discovered Examples.out_of_range true)).
    + constructor.
    + reflexivity.
  - apply (proj2 (proj2 fixpoint_loop_terminates) Examples.out_of_range true).
    + apply (bool_decide_unpack _). vm_compute. exact I.
    + reflexivity.
Defined.

Lemma running_flag (tree : Node) (removeArrays : bool) (self : ArrayUnpacker.t) :
  ArrayUnpacker.running tree removeArrays self ->
  ArrayUnpacker.shouldRemoveArrays self = removeArrays.
Proof.
  induction 1 as [|self found self' _ IH Hfind|self self' _ IH Hunpack]; [done| |].
  - apply findArrays_frame in Hfind as (_ & -> & _). done.
  - apply unpackArrays_scopes in Hunpack as (_ & _ & _ & ->). done.
Qed.

(** The loop ends on a discovery round that finds nothing. *)
Lemma fixpoint_loop_result (tree : Node) (removeArrays : bool) (rounds : nat)
    (self self' : ArrayUnpacker.t) :
  ArrayUnpacker.running tree removeArrays self ->
  ArrayUnpacker.fixpoint_loop rounds self = Some (Ok self') ->
  exists last,
    ArrayUnpacker.running tree removeArrays last
    /\ ArrayUnpacker.findArrays last = Ok (false, self').
Proof.
  revert self. induction rounds as [|rounds IH]; intros self Hrun; simpl; [done|].
  destruct (ArrayUnpacker.findArrays self) as [[[|] self1]|e] eqn:Hfind; [| |done].
  - destruct (ArrayUnpacker.unpackArrays self1) as [self2|e] eqn:Hunpack; [|done].
    apply IH. eapply ArrayUnpacker.running_unpackArrays; [|exact Hunpack].
    eapply ArrayUnpacker.running_findArrays; [exact Hrun|exact Hfind].
  - intros [= <-]. by exists self.
Qed.

(** C5 (as the code has it): once a pass with cleanup disabled has run,
    running [execute] again on the same pass object, whose set of seen
    declarators persists, discovers nothing (the first discovery round
    finds no new array) and leaves the tree, the seen declarators and the
    descriptors as they are. *)
Theorem rerun_of_the_same_pass_object_changes_nothing
    (tree : Node) (rounds : nat) (self : ArrayUnpacker.t) :
  ArrayUnpacker.execute rounds (ArrayUnpacker.new tree false) = Some (Ok self) ->
  exists self',
    ArrayUnpacker.findArrays self = Ok (false, self')
    /\ (forall rounds', ArrayUnpacker.execute (S rounds') self = Some (Ok self'))
    /\ ArrayUnpacker.ast self' = ArrayUnpacker.ast self
    /\ ArrayUnpacker.arrayNodes self' = ArrayUnpacker.arrayNodes self
    /\ ArrayUnpacker.arrays self' = ArrayUnpacker.arrays self.
Proof.
  unfold ArrayUnpacker.execute at 1.
  destruct (ArrayUnpacker.fixpoint_loop rounds _) as [[self0|e]|] eqn:Hloop; [|done..].
  destruct (fixpoint_loop_result tree false _ _ _ (ArrayUnpacker.running_new _ _) Hloop)
    as (last & Hlast & Hfind).
  assert (Hrun : ArrayUnpacker.running tree false self0)
    by (by eapply ArrayUnpacker.running_findArrays).
  rewrite (running_flag _ _ _ Hrun). intros [= <-].
  destruct (findArrays_frame _ _ _ Hfind) as (Hast & _ & Hsame).
  destruct (Hsame eq_refl) as [Hseen Harrays].
  destruct (findArrays_total self0 (running_scope_tree _ _ _ Hrun)) as (found & self' & Hagain).
  assert (found = false) as ->.
  { eapply findArrays_all_seen_false; [|exact Hagain].
    intros n Hn Hlit. rewrite Hseen. rewrite Hast in Hn.
    by eapply findArrays_false_all_seen. }
  destruct (findArrays_frame _ _ _ Hagain) as (Hast' & Hflag' & Hsame').
  destruct (Hsame' eq_refl) as [Hseen' Harrays'].
  exists self'. split; [done|]. split; [|done].
  intros rounds'. unfold ArrayUnpacker.execute. simpl. rewrite Hagain.
  by rewrite Hflag', (running_flag _ _ _ Hrun).
Qed.

(** A second [execute] on the pass object that has run on
    [const a = [1, 2]; a[0]; a[0];]. *)
Lemma rerun_of_the_same_pass_object_changes_nothing_witness :
  exists self',
    ArrayUnpacker.findArrays (Examples.executed_self Examples.inlined_twice false)
    = Ok (false, self')
    /\ (forall rounds',
        ArrayUnpacker.execute (S rounds') (Examples.executed_self Examples.inlined_twice false)
        = Some (Ok self'))
    /\ ArrayUnpacker.ast self'
       = ArrayUnpacker.ast (Examples.executed_self Examples.inlined_twice false)
    /\ ArrayUnpacker.arrayNodes self'
       = ArrayUnpacker.arrayNodes (Examples.executed_self Examples.inlined_twice false)
    /\ ArrayUnpacker.arrays self'
       = ArrayUnpacker.arrays (Examples.executed_self Examples.inlined_twice false).
Proof.
  apply (rerun_of_the_same_pass_object_changes_nothing Examples.inlined_twice 2).
  vm_compute. reflexivity.
Defined.

(** ** The slots of a tree *)

Lemma elem_of_parents_of (x q : NodeId) (t : Node) :
  q ∈ parents_of x t
  <-> exists type children c,
        Inner q type children ∈ nodes t /\ Some c ∈ children /\ node_id c = x.
Proof.
  unfold parents_of. rewrite list_elem_of_In, in_flat_map. split.
  - intros ([|id type children] & Hm & Hq); [done|].
    apply list_elem_of_In, list_elem_of_fmap in Hq as (slot & -> & Hslot).
    apply list_elem_of_filter in Hslot as [Hholds Hslot].
    destruct slot as [c|]; [|done]. apply bool_decide_eq_true in Hholds.
    exists type, children, c. by rewrite list_elem_of_In.
  - intros (type & children & c & Hm & Hc & Hid).
    exists (Inner q type children). split; [by apply list_elem_of_In|].
    apply list_elem_of_In, list_elem_of_fmap. exists (Some c). split; [done|].
    apply list_elem_of_filter. split; [|done]. simpl. by apply bool_decide_eq_true.
Qed.

Lemma simple_access_nodes (a m : Node) :
  ArrayUnpacker.isSimpleArrayAccess a = true -> m ∈ nodes a ->
  m = a \/ exists id type, m = Leaf id type.
Proof.
  destruct a as [|id [] [|[[ido []|]|] [|[[idi []|]|] [|]]]]; try done.
  intros _ Hm. simpl in Hm.
  apply elem_of_cons in Hm as [->|Hm]; [by left|]. right.
  apply elem_of_cons in Hm as [->|Hm]; [by eexists _, _|].
  apply elem_of_cons in Hm as [->|Hm]; [by eexists _, _|].
  by apply elem_of_nil in Hm.
Qed.

Lemma simple_access_replaceNode (parent node : NodeId) (replacement a : Node) :
  ArrayUnpacker.isSimpleArrayAccess a = true -> node_id a ≠ parent ->
  replaceNode parent node replacement a = a.
Proof.
  destruct a as [|id [] [|[[ido []|]|] [|[[idi []|]|] [|]]]]; try done.
  intros _ Hne. simpl in *. by rewrite !(bool_decide_false (id = parent)).
Qed.

Lemma replaceNode_node_id (parent node : NodeId) (replacement t : Node) :
  node_id (replaceNode parent node replacement t) = node_id t
  /\ ArrayUnpacker.isLiteral (replaceNode parent node replacement t) = ArrayUnpacker.isLiteral t.
Proof. by destruct t. Qed.

Lemma replaceNode_images (parent node : NodeId) (replacement t m : Node) :
  m ∈ nodes (replaceNode parent node replacement t) ->
  m ∈ nodes replacement
  \/ exists m0, m0 ∈ nodes t /\ m = replaceNode parent node replacement m0.
Proof.
  revert m. induction t as [id type|id type children IH] using Node_ind; intros m.
  - simpl. intros ->%list_elem_of_singleton. right. exists (Leaf id type).
    split; [apply nodes_self|done].
  - cbn [replaceNode]. intros [->|(c' & Hc' & Hm)]%nodes_Inner.
    + right. exists (Inner id type children). split; [apply nodes_self|done].
    + apply list_elem_of_fmap in Hc' as ([c|] & Hslot & Hc); [|done].
      destruct (_ && _).
      * injection Hslot as ->. by left.
      * injection Hslot as ->. rewrite Forall_forall in IH.
        destruct (IH (Some c) Hc m Hm) as [?|(m0 & Hm0 & ->)]; [by left|].
        right. exists m0. split; [by eapply nodes_child|done].
Qed.

(** The slot of [parent] that held [node] holds [replacement]. *)
Lemma parents_of_replaceNode_site (parent node : NodeId) (replacement t : Node) :
  parent ∈ parents_of node t ->
  parent ∈ parents_of (node_id replacement) (replaceNode parent node replacement t).
Proof.
  rewrite !elem_of_parents_of. intros (type & children & c & Hm & Hc & Hid).
  revert Hm. induction t as [id0 type0|id0 type0 children0 IH] using Node_ind.
  - simpl. by intros [=]%list_elem_of_singleton.
  - intros [[= <- <- <-]|(c0 & Hc0 & Hm)]%nodes_Inner.
    + exists type, (map (fun slot =>
                 match slot with
                 | Some c =>
                     if bool_decide (parent = parent) && bool_decide (node_id c = node)
                     then Some replacement
                     else Some (replaceNode parent node replacement c)
                 | None => None
                 end) children), replacement.
      split; [apply nodes_self|]. split; [|done].
      apply list_elem_of_fmap. exists (Some c). split; [|done].
      by rewrite !bool_decide_true.
    + destruct (bool_decide (id0 = parent) && bool_decide (node_id c0 = node)) eqn:Hhit.
      * apply andb_prop in Hhit as [->%bool_decide_eq_true Hn%bool_decide_eq_true].
        eexists type0, _, replacement. split; [apply nodes_self|]. split; [|done].
        apply list_elem_of_fmap. exists (Some c0). split; [|done].
        by rewrite !bool_decide_true.
      * rewrite Forall_forall in IH.
        destruct (IH (Some c0) Hc0 Hm) as (type' & children' & c' & Hm' & Hc' & Hid').
        exists type', children', c'. split; [|done].
        eapply nodes_child; [|exact Hm']. cbn [replaceNode].
        apply list_elem_of_fmap. exists (Some c0). split; [|done]. by rewrite Hhit.
Qed.

(** Where the identity [node] is that of accesses [name[index]] only, a
    slot that does not belong to such an access and does not hold one
    holds what it held. *)
Lemma parents_of_replaceNode_keeps (parent node : NodeId) (replacement t : Node)
    (q x : NodeId) :
  (forall a, a ∈ nodes t -> node_id a = node -> ArrayUnpacker.isSimpleArrayAccess a = true) ->
  q ≠ node -> x ≠ node ->
  q ∈ parents_of x t ->
  q ∈ parents_of x (replaceNode parent node replacement t).
Proof.
  intros Haccess Hq Hx. rewrite !elem_of_parents_of.
  intros (type & children & c & Hm & Hc & Hid). revert Haccess Hm.
  induction t as [id0 type0|id0 type0 children0 IH] using Node_ind; intros Haccess.
  - simpl. by intros [=]%list_elem_of_singleton.
  - intros [[= <- <- <-]|(c0 & Hc0 & Hm)]%nodes_Inner.
    + eexists type, _, (replaceNode parent node replacement c).
      split; [apply nodes_self|]. split.
      * apply list_elem_of_fmap. exists (Some c). split; [|done].
        rewrite (bool_decide_false (node_id c = node)) by congruence.
        by rewrite andb_false_r.
      * by rewrite (proj1 (replaceNode_node_id _ _ _ _)).
    + destruct (bool_decide (id0 = parent) && bool_decide (node_id c0 = node)) eqn:Hhit.
      * apply andb_prop in Hhit as [_ Hn%bool_decide_eq_true]. exfalso.
        assert (Hsimple : ArrayUnpacker.isSimpleArrayAccess c0 = true).
        { apply Haccess; [|done]. eapply nodes_child; [exact Hc0|apply nodes_self]. }
        destruct (simple_access_nodes _ _ Hsimple Hm) as [<-|(? & ? & ?)]; [|done].
        by apply Hq.
      * rewrite Forall_forall in IH.
        destruct (IH (Some c0) Hc0) as (type' & children' & c' & Hm' & Hc' & Hid'); [|done|].
        { intros a Ha. apply Haccess. by eapply nodes_child. }
        exists type', children', c'. split; [|done].
        eapply nodes_child; [|exact Hm']. cbn [replaceNode].
        apply list_elem_of_fmap. exists (Some c0). split; [|done]. by rewrite Hhit.
Qed.

(** After the rewrite the identity of an access [name[index]] is still
    that of accesses only, when the slot rewritten is not a slot of such
    an access and the replacement is a literal of another identity. *)
Lemma replaceNode_accesses (parent node other : NodeId) (replacement t : Node) :
  ArrayUnpacker.isLiteral replacement = true ->
  node_id replacement ≠ other -> parent ≠ other ->
  (forall a, a ∈ nodes t -> node_id a = other -> ArrayUnpacker.isSimpleArrayAccess a = true) ->
  forall a, a ∈ nodes (replaceNode parent node replacement t) -> node_id a = other ->
            ArrayUnpacker.isSimpleArrayAccess a = true.
Proof.
  intros Hliteral Hr Hp Haccess a Ha Hid.
  destruct (isLiteral_leaf _ Hliteral) as (_ & _ & Hnodes).
  apply replaceNode_images in Ha as [Ha|(a0 & Ha0 & ->)].
  { rewrite Hnodes in Ha. apply list_elem_of_singleton in Ha as ->. done. }
  rewrite (proj1 (replaceNode_node_id _ _ _ _)) in Hid.
  pose proof (Haccess a0 Ha0 Hid) as Hsimple.
  rewrite simple_access_replaceNode; [done..|congruence].
Qed.

(** ** Inlining: the node handed to [replaceNode] *)

Lemma element_at_Some (elements : list (option Node)) (index : Q) (x : option Node) :
  ArrayUnpacker.element_at elements index = Some x ->
  exists n, Qred index = inject_Z (Z.of_nat n) /\ elements !! n = Some x.
Proof.
  unfold ArrayUnpacker.element_at.
  destruct (Qred index) as [num den] eqn:Hred. simpl.
  destruct (bool_decide (den = 1%positive)) eqn:Hden; [|done].
  destruct (bool_decide (0 ≤ num)%Z) eqn:Hnum; [|done]. simpl.
  apply bool_decide_eq_true in Hden as ->. apply bool_decide_eq_true in Hnum.
  intros Hx. exists (Z.to_nat num). split; [|done].
  unfold inject_Z. by rewrite Z2Nat.id.
Qed.

(** The rewrite visitor at an access that resolves to an element. *)
Lemma unpackArrays_enter_rewrites (self : ArrayUnpacker.t) (scope : ScopeId)
    (node p : Node) (name : string) (index : Q) (array : ArrayId)
    (descriptor : Array.t) (e : Node) :
  ArrayUnpacker.isSimpleArrayAccess node = true ->
  ArrayUnpacker.object_name node = Ok name ->
  ArrayUnpacker.expression_value node = Ok index ->
  Scope.get (ArrayUnpacker.scopes self) scope name = Some array ->
  ArrayUnpacker.arrays self !! array = Some descriptor ->
  ArrayUnpacker.element_at (Array.elements descriptor) index = Some (Some e) ->
  ArrayUnpacker.unpackArrays_enter node (Some p) (ArrayUnpacker.unpacking self (Some scope))
  = Ok (ArrayUnpacker.unpacking
          (ArrayUnpacker.mk
             (replaceNode (node_id p) (node_id node) e (ArrayUnpacker.ast self))
             (ArrayUnpacker.shouldRemoveArrays self) (ArrayUnpacker.globalScope self)
             (ArrayUnpacker.arrayNodes self) (ArrayUnpacker.scopes self)
             (<[array := Array.incr descriptor]> (ArrayUnpacker.arrays self)))
          (Some scope)).
Proof.
  intros Hsimple Hname Hindex Hget Harray Helement.
  unfold ArrayUnpacker.unpackArrays_enter. simpl.
  rewrite (object_name_not_scope _ _ Hname), Hsimple, Hname. simpl.
  rewrite Hget, Hindex. simpl. by rewrite Harray, Helement.
Qed.

(** C2 (as the code has it).  At a literal array declaration that it has
    not seen, and nowhere else, discovery appends a descriptor; its
    elements are the children of the array literal themselves, which the
    array literal holds.  Every rewrite hands to [replaceNode] the element
    at the index of the access, of the descriptor that the name of the
    access resolves to: that node itself, with its identity, not a copy;
    the slot of the parent that held the access then holds it.  Two
    accesses that resolve to one element are both rewritten so, and in a
    tree that holds the array literal and the two sites, where the
    identities of the two accesses are those of accesses only, the array
    literal and both sites then hold the same node. *)
Theorem inlined_node_is_the_descriptor_element :
  (forall (node : Node) (parent : option Node) (s s' : ArrayUnpacker.Finding),
      ArrayUnpacker.findArrays_enter node parent s = Ok s' ->
      (ArrayUnpacker.isLiteralArrayDeclaration node = true
       /\ (node_id node ∉ ArrayUnpacker.arrayNodes (ArrayUnpacker.f_self s))
       /\ exists binding name literal elements,
            node = Inner (node_id node) VariableDeclarator
                     [Some (Leaf binding (BindingIdentifier name));
                      Some (Inner literal ArrayExpression elements)]
            /\ ArrayUnpacker.arrays (ArrayUnpacker.f_self s')
               = ArrayUnpacker.arrays (ArrayUnpacker.f_self s)
                 ++ [Array.mk (node_id node) (node_id <$> parent) name elements 0]
            /\ forall t e, node ∈ nodes t -> Some e ∈ elements ->
                           literal ∈ parents_of (node_id e) t)
      \/ ((ArrayUnpacker.isLiteralArrayDeclaration node = false
           \/ node_id node ∈ ArrayUnpacker.arrayNodes (ArrayUnpacker.f_self s))
          /\ ArrayUnpacker.arrays (ArrayUnpacker.f_self s')
             = ArrayUnpacker.arrays (ArrayUnpacker.f_self s)))
  /\ (forall (node : Node) (parent : option Node) (s s' : ArrayUnpacker.Unpacking),
      ArrayUnpacker.unpackArrays_enter node parent s = Ok s' ->
      ArrayUnpacker.u_self s' = ArrayUnpacker.u_self s
      \/ exists p scope name index array descriptor n replacement,
           parent = Some p
           /\ ArrayUnpacker.isSimpleArrayAccess node = true
           /\ ArrayUnpacker.object_name node = Ok name
           /\ ArrayUnpacker.expression_value node = Ok index
           /\ ArrayUnpacker.u_scope s = Some scope
           /\ Scope.get (ArrayUnpacker.scopes (ArrayUnpacker.u_self s)) scope name = Some array
           /\ ArrayUnpacker.arrays (ArrayUnpacker.u_self s) !! array = Some descriptor
           /\ Qred index = inject_Z (Z.of_nat n)
           /\ Array.elements descriptor !! n = Some (Some replacement)
           /\ s' = ArrayUnpacker.unpacking
                     (ArrayUnpacker.mk
                        (replaceNode (node_id p) (node_id node) replacement
                           (ArrayUnpacker.ast (ArrayUnpacker.u_self s)))
                        (ArrayUnpacker.shouldRemoveArrays (ArrayUnpacker.u_self s))
                        (ArrayUnpacker.globalScope (ArrayUnpacker.u_self s))
                        (ArrayUnpacker.arrayNodes (ArrayUnpacker.u_self s))
                        (ArrayUnpacker.scopes (ArrayUnpacker.u_self s))
                        (<[array := Array.incr descriptor]>
                           (ArrayUnpacker.arrays (ArrayUnpacker.u_self s))))
                     (ArrayUnpacker.u_scope s)
           /\ (node_id p ∈ parents_of (node_id node) (ArrayUnpacker.ast (ArrayUnpacker.u_self s)) ->
               node_id p ∈ parents_of (node_id replacement)
                            (ArrayUnpacker.ast (ArrayUnpacker.u_self s'))))
  /\ (forall (self : ArrayUnpacker.t) (array : ArrayId) (descriptor : Array.t) (n : nat)
             (e : Node) (literal : NodeId)
             (node1 node2 p1 p2 : Node) (scope1 scope2 : ScopeId) (name1 name2 : string)
             (index1 index2 : Q),
      ArrayUnpacker.arrays self !! array = Some descriptor ->
      Array.elements descriptor !! n = Some (Some e) ->
      ArrayUnpacker.isSimpleArrayAccess node1 = true ->
      ArrayUnpacker.object_name node1 = Ok name1 ->
      ArrayUnpacker.expression_value node1 = Ok index1 ->
      Qeq index1 (inject_Z (Z.of_nat n)) ->
      Scope.get (ArrayUnpacker.scopes self) scope1 name1 = Some array ->
      ArrayUnpacker.isSimpleArrayAccess node2 = true ->
      ArrayUnpacker.object_name node2 = Ok name2 ->
      ArrayUnpacker.expression_value node2 = Ok index2 ->
      Qeq index2 (inject_Z (Z.of_nat n)) ->
      Scope.get (ArrayUnpacker.scopes self) scope2 name2 = Some array ->
      exists s1 s2,
        ArrayUnpacker.unpackArrays_enter node1 (Some p1)
          (ArrayUnpacker.unpacking self (Some scope1)) = Ok s1
        /\ ArrayUnpacker.unpackArrays_enter node2 (Some p2)
             (ArrayUnpacker.unpacking (ArrayUnpacker.u_self s1) (Some scope2)) = Ok s2
        /\ ArrayUnpacker.ast (ArrayUnpacker.u_self s2)
           = replaceNode (node_id p2) (node_id node2) e
               (replaceNode (node_id p1) (node_id node1) e (ArrayUnpacker.ast self))
        /\ ArrayUnpacker.arrays (ArrayUnpacker.u_self s2) !! array
           = Some (Array.incr (Array.incr descriptor))
        /\ (ArrayUnpacker.isLiteral e = true ->
            Inner literal ArrayExpression (Array.elements descriptor)
              ∈ nodes (ArrayUnpacker.ast self) ->
            node_id p1 ∈ parents_of (node_id node1) (ArrayUnpacker.ast self) ->
            node_id p2 ∈ parents_of (node_id node2) (ArrayUnpacker.ast self) ->
            node_id node1 ≠ node_id node2 ->
            Forall (fun a => node_id a = node_id node1 \/ node_id a = node_id node2 ->
                             ArrayUnpacker.isSimpleArrayAccess a = true)
              (nodes (ArrayUnpacker.ast self)) ->
            literal ∈ parents_of (node_id e) (ArrayUnpacker.ast (ArrayUnpacker.u_self s2))
            /\ node_id p1 ∈ parents_of (node_id e) (ArrayUnpacker.ast (ArrayUnpacker.u_self s2))
            /\ node_id p2 ∈ parents_of (node_id e)
                              (ArrayUnpacker.ast (ArrayUnpacker.u_self s2)))).
Proof.
  split; [|split].
  - intros node parent s s'. unfold ArrayUnpacker.findArrays_enter.
    destruct (ArrayUnpacker.isScopeType node) eqn:Hscope.
    { intros [= <-]. right. split; [|done]. left. by destruct node as [|? [] ?]. }
    destruct (ArrayUnpacker.isLiteralArrayDeclaration node) eqn:Hdecl;
      [|intros [= <-]; right; split; [by left|done]].
    case_bool_decide as Hseen; simpl; [intros [= <-]; right; split; [by right|done]|].
    destruct node as [|id [] [|[[binding []|]|] [|[[|literal [] elements]|] [|]]]];
      try done.
    simpl. intros [= <-]. left. split; [done|]. split; [done|].
    exists binding, name, literal, elements.
    split; [done|]. split; [done|].
    intros t e Ht He. apply elem_of_parents_of. exists ArrayExpression, elements, e.
    split; [|done]. eapply nodes_trans; [exact Ht|].
    eapply nodes_child; [|apply nodes_self]. apply elem_of_cons. right.
    apply elem_of_cons. by left.
  - intros node parent s s'. unfold ArrayUnpacker.unpackArrays_enter.
    destruct (ArrayUnpacker.isScopeType node).
    { destruct (ArrayUnpacker.the_scope _ _); simpl; [|done]. intros [= <-]. by left. }
    destruct (ArrayUnpacker.isSimpleArrayAccess node) eqn:Hsimple; [|intros [= <-]; by left].
    destruct (ArrayUnpacker.object_name node) as [name|] eqn:Hname; simpl; [|done].
    destruct (ArrayUnpacker.u_scope s) as [scope|] eqn:Hscope; simpl; [|done].
    destruct (Scope.get _ scope name) as [array|] eqn:Hget; [|intros [= <-]; by left].
    destruct (ArrayUnpacker.expression_value node) as [index|] eqn:Hindex; simpl; [|done].
    destruct (_ !! array) as [descriptor|] eqn:Harray; [|done].
    destruct (ArrayUnpacker.element_at _ index) as [[replacement|]|] eqn:Helement;
      [|intros [= <-]; by left..].
    destruct parent as [p|]; [|done]. intros [= <-]. right.
    destruct (element_at_Some _ _ _ Helement) as (n & Hn & Hel).
    exists p, scope, name, index, array, descriptor, n, replacement.
    repeat (split; [done|]). simpl. apply parents_of_replaceNode_site.
  - intros self array descriptor n e literal node1 node2 p1 p2 scope1 scope2 name1 name2
      index1 index2 Harray He Hsimple1 Hname1 Hindex1 Hn1 Hget1
      Hsimple2 Hname2 Hindex2 Hn2 Hget2.
    assert (Hel1 : ArrayUnpacker.element_at (Array.elements descriptor) index1 = Some (Some e))
      by (by rewrite (element_at_natural _ _ n Hn1)).
    assert (Hel2 : ArrayUnpacker.element_at (Array.elements descriptor) index2 = Some (Some e))
      by (by rewrite (element_at_natural _ _ n Hn2)).
    eexists _, _. split.
    { by apply (unpackArrays_enter_rewrites self scope1 node1 p1 name1 index1 array descriptor e). }
    simpl. split.
    { apply (unpackArrays_enter_rewrites _ scope2 node2 p2 name2 index2 array
               (Array.incr descriptor) e); try done.
      simpl. apply list_lookup_insert_eq. by eapply lookup_lt_Some. }
    simpl. split; [done|]. split.
    { rewrite list_insert_insert_eq. apply list_lookup_insert_eq. by eapply lookup_lt_Some. }
    intros Hliteral Hlit Hsite1 Hsite2 Hne Haccess. rewrite Forall_forall in Haccess.
    set (t := ArrayUnpacker.ast self) in *.
    assert (Hin : Some e ∈ Array.elements descriptor) by (by eapply list_elem_of_lookup_2).
    assert (He_t : e ∈ nodes t).
    { eapply nodes_trans; [exact Hlit|]. eapply nodes_child; [exact Hin|apply nodes_self]. }
    assert (Hnot : forall m, m ∈ nodes t -> ArrayUnpacker.isSimpleArrayAccess m = false ->
                             node_id m ≠ node_id node1 /\ node_id m ≠ node_id node2).
    { intros m Hm Hplain. split; intros Hid.
      - rewrite (Haccess m Hm) in Hplain; [done|by left].
      - rewrite (Haccess m Hm) in Hplain; [done|by right]. }
    destruct (Hnot e He_t) as [He1 He2]; [by destruct e as [? []|]|].
    destruct (Hnot _ Hlit) as [Hl1 Hl2]; [done|]. simpl in Hl1, Hl2.
    assert (Hparent : forall p x, p ∈ parents_of x t ->
              (x = node_id node1 \/ x = node_id node2) ->
              p ≠ node_id node1 /\ p ≠ node_id node2).
    { intros p x (type & children & c & Hm & Hc & Hid)%elem_of_parents_of Hx.
      apply (Hnot (Inner p type children)); [done|].
      assert (Hc_simple : ArrayUnpacker.isSimpleArrayAccess c = true).
      { apply Haccess; [|by rewrite Hid].
        eapply nodes_trans; [exact Hm|]. eapply nodes_child; [exact Hc|apply nodes_self]. }
      destruct (ArrayUnpacker.isSimpleArrayAccess (Inner p type children)) eqn:Hp; [|done].
      exfalso. simpl in Hp. destruct type; try done.
      destruct children as [|[[ido []|]|] [|[[idi []|]|] [|]]]; try done.
      apply elem_of_cons in Hc as [[= ->]|Hc]; [done|].
      apply elem_of_cons in Hc as [[= ->]|Hc]; [done|].
      by apply elem_of_nil in Hc. }
    destruct (Hparent _ _ Hsite1) as [_ Hp12]; [by left|].
    destruct (Hparent _ _ Hsite2) as [Hp21 _]; [by right|].
    set (t1 := replaceNode (node_id p1) (node_id node1) e t).
    assert (Haccess1 : forall a, a ∈ nodes t -> node_id a = node_id node1 ->
                                 ArrayUnpacker.isSimpleArrayAccess a = true)
      by (intros a Ha Hid; apply Haccess; [done|by left]).
    assert (Haccess2 : forall a, a ∈ nodes t1 -> node_id a = node_id node2 ->
                                 ArrayUnpacker.isSimpleArrayAccess a = true).
    { apply replaceNode_accesses; [done..|].
      intros a Ha Hid. apply Haccess; [done|by right]. }
    split; [|split].
    + apply parents_of_replaceNode_keeps; [done..|].
      apply parents_of_replaceNode_keeps; [done..|].
      apply elem_of_parents_of. by exists ArrayExpression, (Array.elements descriptor), e.
    + apply parents_of_replaceNode_keeps; [done..|].
      by apply parents_of_replaceNode_site.
    + apply parents_of_replaceNode_site.
      by apply parents_of_replaceNode_keeps.
Qed.

(** The theorem at [const a = [1, 2]; a[0]; a[0];], after discovery: the
    rewrites at the accesses 31 (under statement 30) and 41 (under
    statement 40) leave node 20 held by the array literal 14 and by both
    statements. *)
Lemma inlined_node_is_the_descriptor_element_witness :
  14 ∈ parents_of 20
         (replaceNode 40 41 (Examples.number 20 1)
            (replaceNode 30 31 (Examples.number 20 1) Examples.inlined_twice))
  /\ 30 ∈ parents_of 20
            (replaceNode 40 41 (Examples.number 20 1)
               (replaceNode 30 31 (Examples.number 20 1) Examples.inlined_twice))
  /\ 40 ∈ parents_of 20
            (replaceNode 40 41 (Examples.number 20 1)
               (replaceNode 30 31 (Examples.number 20 1) Examples.inlined_twice)).
Proof.
  destruct (proj2 (proj2 inlined_node_is_the_descriptor_element)
              (Examples.discovered Examples.inlined_twice false) 0
              (Array.mk 12 (Some 11) "a"
                 [Some (Examples.number 20 1); Some (Examples.number 21 2)] 0)
              0 (Examples.number 20 1) 14
              (Inner 31 ComputedMemberExpression
                 [Some (Leaf 32 (IdentifierExpression "a")); Some (Examples.number 33 0)])
              (Inner 41 ComputedMemberExpression
                 [Some (Leaf 42 (IdentifierExpression "a")); Some (Examples.number 43 0)])
              (Inner 30 (OtherInner "ExpressionStatement") [])
              (Inner 40 (OtherInner "ExpressionStatement") [])
              0 0 "a" "a" (inject_Z 0) (inject_Z 0))
    as (s1 & s2 & _ & _ & Hast & _ & Hslots); try reflexivity.
  rewrite Hast in Hslots. apply Hslots.
  - reflexivity.
  - vm_compute. repeat constructor.
  - vm_compute. repeat constructor.
  - vm_compute. repeat constructor.
  - vm_compute. lia.
  - apply (bool_decide_unpack _). vm_compute. exact I.
Defined.

(** C2 (as stated) fails.  In [const a = [1, 2]; a[0]; a[0];] the literal
    [1] is node 20, held by the array literal (node 14).  After the pass
    the same node 20 is held by the array literal and by both statements
    (nodes 30 and 40) at which it was inlined: one node in three slots. *)
Lemma inlined_element_is_shared_between_parents :
  parents_of 20 Examples.inlined_twice = [14]
  /\ parents_of 20 <$> Examples.executed_tree Examples.inlined_twice false
     = Some [14; 30; 40]
  /\ Examples.executed_tree Examples.inlined_twice false
     = Some (Inner 0 Script
               [Some (Examples.array_statement 10 "a"
                        [Some (Examples.number 20 1); Some (Examples.number 21 2)]);
                Some (Inner 30 (OtherInner "ExpressionStatement")
                        [Some (Examples.number 20 1)]);
                Some (Inner 40 (OtherInner "ExpressionStatement")
                        [Some (Examples.number 20 1)])]).
Proof. vm_compute. repeat split. Qed.

(** * Further properties of the code *)

(** ** [scope.ts]: the parent chain *)

Section ScopeChain.
Context {T : Type}.
Implicit Types (h : Scope.Store T) (this : ScopeId) (name : string).

Lemma chain_older s h this :
  this < length h -> Scope.chain (s :: h) this = Scope.chain h this.
Proof. intros Hlt. simpl. destruct (decide (this = length h)); [lia|done]. Qed.

Lemma chain_head h this :
  this < length h -> exists far, Scope.chain h this = this :: far.
Proof.
  induction h as [|s h IH]; simpl; [lia|]. intros Hlt.
  destruct (decide (this = length h)); [by eexists|]. apply IH. lia.
Qed.

Lemma chain_update h p f this :
  (forall s, Scope.parent (f s) = Scope.parent s) ->
  Scope.chain (Scope.update h p f) this = Scope.chain h this.
Proof.
  intros Hf. revert this. induction h as [|s h IH]; simpl; intros this; [done|].
  destruct (decide (p = length h)) as [->|Hp]; simpl.
  - destruct (decide (this = length h)); [by rewrite Hf|done].
  - rewrite update_length. destruct (decide (this = length h)); [|apply IH].
    destruct (Scope.parent s); [by rewrite IH|done].
Qed.

Lemma deref_update_at h p f i :
  Scope.deref (Scope.update h p f) i
  = (fun s => if decide (p = i) then f s else s) <$> Scope.deref h i.
Proof.
  destruct (Scope.deref h i) as [s|] eqn:Hs; simpl.
  - case_decide as Hp; [subst p; by apply deref_update_eq|by rewrite deref_update_ne].
  - destruct (Scope.deref (Scope.update h p f) i) as [s'|] eqn:Hs'; [|done].
    apply deref_lt in Hs'. rewrite update_length in Hs'.
    apply deref_is_Some in Hs' as [? ?]. congruence.
Qed.

Lemma type_at_update h p f i :
  (forall s, Scope.type (f s) = Scope.type s) ->
  Scope.type_at (Scope.update h p f) i = Scope.type_at h i.
Proof.
  intros Hf. unfold Scope.type_at. rewrite deref_update_at.
  destruct (Scope.deref h i) as [s|]; simpl; [|done]. case_decide; by rewrite ?Hf.
Qed.

Lemma binding_at_set_element_name h this i name name' element :
  name ≠ name' ->
  Scope.binding_at (Scope.set_element h this name element) i name'
  = Scope.binding_at h i name'.
Proof.
  intros Hne. unfold Scope.binding_at, Scope.set_element. rewrite deref_update_at.
  destruct (Scope.deref h i) as [s|]; simpl; [|done].
  case_decide; simpl; [by apply map_get_set_ne|done].
Qed.

Lemma first_binding_app h name near far :
  Scope.first_binding h name (near ++ far)
  = match Scope.first_binding h name near with
    | Some v => Some v
    | None => Scope.first_binding h name far
    end.
Proof.
  induction near as [|i near IH]; simpl; [done|].
  by destruct (Scope.binding_at h i name).
Qed.

Lemma get_set_element h target name element this name' :
  Scope.get (Scope.set_element h target name element) this name'
  = Scope.first_binding (Scope.set_element h target name element) name' (Scope.chain h this).
Proof. rewrite get_chain. unfold Scope.set_element at 2. by rewrite chain_update. Qed.

Lemma first_binding_reaches h target name element near far :
  target < length h ->
  Forall (fun i => Scope.binding_at h i name = None) near ->
  Scope.first_binding (Scope.set_element h target name element) name (near ++ target :: far)
  = Some element.
Proof.
  intros Hlt Hnear. induction Hnear as [|i near Hi _ IH]; simpl.
  - by rewrite binding_at_set_element_eq.
  - destruct (decide (target = i)) as [->|Hne].
    + by rewrite binding_at_set_element_eq.
    + by rewrite binding_at_set_element_other, Hi.
Qed.
End ScopeChain.

(** X1: [getDeclarationScope] returns the current scope for ['const'] and
    ['let']; for ['var'] (and for ['global']) it returns the nearest scope
    on the chain, the current one included, whose kind is [Function] or
    [Global] (is [Global]), and throws exactly when the chain has none.  *)
Theorem getDeclarationScope_returns_nearest_scope_of_kind
    {T} (h : Scope.Store T) (this : ScopeId) :
  Scope.getDeclarationScope h this VariableType.const = Ok this
  /\ Scope.getDeclarationScope h this VariableType.let_ = Ok this
  /\ forall type kinds,
       (type = VariableType.var /\ kinds = [ScopeType.Function; ScopeType.Global])
       \/ (type = VariableType.global /\ kinds = [ScopeType.Global]) ->
       ((exists e, Scope.getDeclarationScope h this type = Throw e)
        <-> Forall (fun i => Scope.has_type_in h kinds i = false) (Scope.chain h this))
       /\ (forall near target far,
           Scope.chain h this = near ++ target :: far ->
           Forall (fun i => Scope.has_type_in h kinds i = false) near ->
           Scope.has_type_in h kinds target = true ->
           Scope.getDeclarationScope h this type = Ok target).
Proof.
  split; [done|]. split; [done|].
  intros type kinds Hkind.
  assert (Hget : Scope.getDeclarationScope h this type
                 = match find (Scope.has_type_in h kinds) (Scope.chain h this) with
                   | Some scope => Ok scope
                   | None =>
                       Throw (JsError ("Failed to find scope for variable declaration type "
                                       +:+ VariableType.to_string type))
                   end).
  { destruct Hkind as [[-> ->]|[-> ->]]; unfold Scope.getDeclarationScope;
      by rewrite findScope_chain. }
  rewrite Hget. split.
  - rewrite <- find_None_Forall.
    destruct (find _ _); split; [intros [e He]; done|done|done|by eexists].
  - intros near target far -> Hnear Htarget. by rewrite (find_first _ near far target).
Qed.

(** The theorem for ['global'] at the block scope of
    [Examples.global_and_block], and for ['var'] at the root scope of a
    pass, whose kind is [Other]. *)
Lemma getDeclarationScope_returns_nearest_scope_of_kind_witness :
  Scope.getDeclarationScope Examples.global_and_block 1 VariableType.global = Ok 0
  /\ exists e,
       Scope.getDeclarationScope
         (ArrayUnpacker.scopes (ArrayUnpacker.new Examples.out_of_range true)) 0
         VariableType.var = Throw e.
Proof.
  split.
  - apply (proj2 (proj2 (proj2 (getDeclarationScope_returns_nearest_scope_of_kind
                                  Examples.global_and_block 1))
                    VariableType.global [ScopeType.Global]
                    (or_intror (conj eq_refl eq_refl)))
             [1] 0 []).
    + reflexivity.
    + repeat constructor.
    + reflexivity.
  - apply (proj1 (proj2 (proj2 (getDeclarationScope_returns_nearest_scope_of_kind
                                  (ArrayUnpacker.scopes
                                     (ArrayUnpacker.new Examples.out_of_range true)) 0))
                    VariableType.var [ScopeType.Function; ScopeType.Global]
                    (or_introl (conj eq_refl eq_refl)))).
    repeat constructor.
Defined.

(** X2: for the kinds ['const'], ['let'] and ['var'], [add] binds the name
    in the scope that [getDeclarationScope] returns for the kind, and it
    throws exactly when [getDeclarationScope] throws. *)
Theorem add_binds_in_the_declaration_scope
    {T} (h : Scope.Store T) (this : ScopeId) (name : string) (element : T)
    (type : VariableType.t) :
  type ≠ VariableType.global ->
  match Scope.getDeclarationScope h this type with
  | Ok scope =>
      Scope.add h this name element (Some type) = Ok (Scope.set_element h scope name element)
  | Throw _ => exists e, Scope.add h this name element (Some type) = Throw e
  end.
Proof.
  intros Hkind. destruct type; try done; unfold Scope.getDeclarationScope, Scope.add; simpl.
  destruct (Scope.findScope h this _); [done|by eexists].
Qed.

Lemma add_binds_in_the_declaration_scope_witness :
  Scope.add Examples.function_and_block 1 "x" 7 (Some VariableType.var)
  = Ok (Scope.set_element Examples.function_and_block 0 "x" 7).
Proof.
  apply (add_binds_in_the_declaration_scope Examples.function_and_block 1 "x" 7
           VariableType.var).
  discriminate.
Defined.

(** X3: after [add] of a ['const'] or ['let'] binding (or with the kind
    left out) in a scope, [get] of the name from that scope, and from every
    scope below it with no nearer binding of the name, returns the new
    element; [get] of another name, and [get] from a scope whose chain
    does not pass through that scope, return what they returned before. *)
Theorem get_after_add
    {T} (h : Scope.Store T) (this : ScopeId) (name : string) (element : T)
    (type : option VariableType.t) (h' : Scope.Store T) :
  type = None \/ type = Some VariableType.const \/ type = Some VariableType.let_ ->
  this < length h ->
  Scope.add h this name element type = Ok h' ->
  Scope.get h' this name = Some element
  /\ (forall from near far,
        Scope.chain h from = near ++ this :: far ->
        Forall (fun i => Scope.binding_at h i name = None) near ->
        Scope.get h' from name = Some element)
  /\ (forall from name', name' ≠ name -> Scope.get h' from name' = Scope.get h from name')
  /\ (forall from name', this ∉ Scope.chain h from ->
        Scope.get h' from name' = Scope.get h from name').
Proof.
  intros Hkind Hlt Hadd.
  assert (h' = Scope.set_element h this name element) as ->.
  { destruct Hkind as [->|[->| ->]]; by injection Hadd as <-. }
  split; [by apply get_set_element_eq|]. split; [|split].
  - intros from near far Hchain Hnear.
    rewrite get_set_element, Hchain. by apply first_binding_reaches.
  - intros from name' Hne. rewrite get_set_element, get_chain.
    apply first_binding_ext. intros i _. by apply binding_at_set_element_name.
  - intros from name' Hout. rewrite get_set_element, get_chain.
    apply first_binding_ext. intros i Hi. apply binding_at_set_element_other.
    intros ->. by apply Hout.
Qed.

(** The theorem in [Examples.shadowing], at a binding of [y] added to the
    scope [B]: it is seen from [D], the child of [B]. *)
Lemma get_after_add_witness :
  Scope.get (Scope.set_element Examples.shadowing 1 "y" 5) 1 "y" = Some 5
  /\ Scope.get (Scope.set_element Examples.shadowing 1 "y" 5) 3 "y" = Some 5
  /\ Scope.get (Scope.set_element Examples.shadowing 1 "y" 5) 2 "y"
     = Scope.get Examples.shadowing 2 "y".
Proof.
  pose proof (get_after_add Examples.shadowing 1 "y" 5 None
                (Scope.set_element Examples.shadowing 1 "y" 5)
                (or_introl eq_refl)) as H.
  destruct H as (Hthis & Hbelow & _ & Hout).
  - vm_compute. lia.
  - reflexivity.
  - split; [exact Hthis|]. split.
    + apply (Hbelow 3 [3] [0]); [reflexivity|repeat constructor].
    + apply (Hout 2 "y"). vm_compute. intros Hin.
      repeat (apply elem_of_cons in Hin as [Hin|Hin]; [discriminate Hin|]).
      by apply elem_of_nil in Hin.
Defined.

(** X4: a binding added with kind ['var'] lands in the nearest [Function]
    or [Global] scope of the chain.  A later [get] from the scope where it
    was added returns it when no scope nearer than that one binds the
    name; when a nearer scope binds the name, [get] still returns the
    nearer binding. *)
Theorem get_after_add_var
    {T} (h : Scope.Store T) (this : ScopeId) (name : string) (element : T)
    (near : list ScopeId) (target : ScopeId) (far : list ScopeId) :
  let hoisting := [ScopeType.Function; ScopeType.Global] in
  Scope.chain h this = near ++ target :: far ->
  Forall (fun i => Scope.has_type_in h hoisting i = false) near ->
  Scope.has_type_in h hoisting target = true ->
  exists h',
    Scope.add h this name element (Some VariableType.var) = Ok h'
    /\ Scope.get h' target name = Some element
    /\ (Forall (fun i => Scope.binding_at h i name = None) near ->
        Scope.get h' this name = Some element)
    /\ (forall v, Scope.first_binding h name near = Some v ->
        Scope.get h' this name = Some v).
Proof.
  intros hoisting Hchain Hnear Htarget.
  assert (Hlt : target < length h).
  { apply (chain_lt h this). rewrite Hchain. apply elem_of_app. right.
    apply elem_of_cons. by left. }
  exists (Scope.set_element h target name element). split; [|split; [|split]].
  - unfold Scope.add. simpl. rewrite findScope_chain. fold hoisting.
    by rewrite Hchain, (find_first _ near far target).
  - by apply get_set_element_eq.
  - intros Hfree. rewrite get_set_element, Hchain. by apply first_binding_reaches.
  - intros v Hv. rewrite get_set_element, Hchain, first_binding_app.
    rewrite (first_binding_ext _ h name near); [by rewrite Hv|].
    intros i Hi. apply binding_at_set_element_other. intros ->.
    rewrite Forall_forall in Hnear. specialize (Hnear _ Hi). congruence.
Qed.

(** The theorem at the block scope of [Examples.function_and_block]. *)
Lemma get_after_add_var_witness :
  exists h',
    Scope.add Examples.function_and_block 1 "x" 7 (Some VariableType.var) = Ok h'
    /\ Scope.get h' 0 "x" = Some 7
    /\ (Forall (fun i => Scope.binding_at Examples.function_and_block i "x" = None) [1] ->
        Scope.get h' 1 "x" = Some 7)
    /\ (forall v, Scope.first_binding Examples.function_and_block "x" [1] = Some v ->
        Scope.get h' 1 "x" = Some v).
Proof.
  apply (get_after_add_var Examples.function_and_block 1 "x" 7 [1] 0 []).
  - reflexivity.
  - repeat constructor.
  - reflexivity.
Defined.

(** ** [scope.ts]: the constructor *)

Section ScopeConstructor.
Context {T : Type}.
Implicit Types (h : Scope.Store T) (this : ScopeId) (name : string).

Lemma map_set_keys_present {K V} `{EqDecision K} (m : JsMap K V) (k : K) (v w : V) :
  map_get m k = Some w -> (map_set m k v).*1 = m.*1.
Proof.
  induction m as [|[k' v'] m IH]; simpl; [done|].
  destruct (decide (k = k')) as [->|Hne]; [done|].
  intros Hget. rewrite !fmap_cons. by rewrite IH.
Qed.

Lemma has_type_in_set_child h p n child types i :
  Scope.has_type_in (Scope.set_child h p n child) types i = Scope.has_type_in h types i.
Proof. unfold Scope.has_type_in, Scope.set_child. by rewrite type_at_update. Qed.

Lemma findScope_set_child h p n child this types :
  Scope.findScope (Scope.set_child h p n child) this types = Scope.findScope h this types.
Proof.
  rewrite !findScope_chain. unfold Scope.set_child at 2. rewrite chain_update by done.
  apply find_ext_elem_of. intros i _. apply has_type_in_set_child.
Qed.

Lemma findScope_older s h this types :
  this < length h -> Scope.findScope (s :: h) this types = Scope.findScope h this types.
Proof. intros Hlt. simpl. destruct (decide (this = length h)); [lia|done]. Qed.
End ScopeConstructor.

(** X5: [new Scope(node, type, parent)] gives a scope with a fresh address
    and no binding of its own.  [get] from the new scope returns what
    [get] from the parent returns ([null] without a parent), and for the
    scopes there were, [get] and [findScope] return what they returned
    before. *)
Theorem new_scope_reads_through_its_parent
    {T} (h : Scope.Store T) (node : NodeId) (type : ScopeType.t) (parent : option ScopeId)
    (this : ScopeId) (h' : Scope.Store T) :
  Scope.new h node type parent = (this, h') ->
  Scope.deref h this = None
  /\ (forall name, Scope.binding_at h' this name = None)
  /\ (forall name, Scope.get h' this name
                   = match parent with
                     | Some p => Scope.get h p name
                     | None => None
                     end)
  /\ (forall from name, from < length h -> Scope.get h' from name = Scope.get h from name)
  /\ (forall from types, from < length h ->
        Scope.findScope h' from types = Scope.findScope h from types).
Proof.
  intros Hnew. destruct (new_get _ _ _ _ _ _ Hnew) as (-> & Hlen & Holder & Hthis).
  injection Hnew as <-.
  assert (Hlen' : forall p, length (Scope.set_child h p node (length h)) = length h)
    by (intros p; apply update_length).
  split; [|split; [|split; [done|split; [done|]]]].
  - destruct (Scope.deref h (length h)) as [s|] eqn:Hs; [|done].
    apply deref_lt in Hs. lia.
  - intros name. unfold Scope.binding_at.
    destruct parent as [p|]; [rewrite <- (Hlen' p) at 2|]; by rewrite deref_newest.
  - intros from types Hfrom. destruct parent as [p|].
    + rewrite findScope_older by (by rewrite Hlen'). apply findScope_set_child.
    + by rewrite findScope_older.
Qed.

(** The theorem at a fourth scope opened under the sibling [S] in
    [Examples.shadowing]. *)
Lemma new_scope_reads_through_its_parent_witness :
  Scope.get (snd (Scope.new Examples.shadowing 9 ScopeType.Other (Some 2))) 4 "x"
  = Scope.get Examples.shadowing 2 "x".
Proof.
  apply (new_scope_reads_through_its_parent Examples.shadowing 9 ScopeType.Other (Some 2)
           4 (snd (Scope.new Examples.shadowing 9 ScopeType.Other (Some 2)))).
  reflexivity.
Defined.

(** X6: a second [new Scope] for the same node under the same parent
    takes the place of the first in the parent's [children]: the entry of
    the node now leads to the second scope, the keys of [children] and the
    entries of the other nodes stay as they are, and the first scope is
    still there, with its parent, but no longer registered. *)
Theorem new_scope_replaces_the_child_of_the_same_node
    {T} (h : Scope.Store T) (node : NodeId) (type1 type2 : ScopeType.t) (p : ScopeId)
    (first : ScopeId) (h1 : Scope.Store T) (second : ScopeId) (h2 : Scope.Store T) :
  p < length h ->
  Scope.new h node type1 (Some p) = (first, h1) ->
  Scope.new h1 node type2 (Some p) = (second, h2) ->
  first ≠ second
  /\ Scope.deref h2 first = Some (Scope.mk node type1 (Some p) [] [])
  /\ exists ps1 ps2,
       Scope.deref h1 p = Some ps1
       /\ Scope.deref h2 p = Some ps2
       /\ map_get (Scope.children ps1) node = Some first
       /\ map_get (Scope.children ps2) node = Some second
       /\ (Scope.children ps2).*1 = (Scope.children ps1).*1
       /\ forall other, other ≠ node ->
            map_get (Scope.children ps2) other = map_get (Scope.children ps1) other.
Proof.
  intros Hp Hnew1 Hnew2.
  destruct (new_registers _ _ _ _ _ _ Hp Hnew1) as (-> & Hfirst & ps1 & Hps1 & Hchild1).
  destruct (new_get _ _ _ _ _ _ Hnew1) as (_ & Hlen1 & _).
  assert (Hp1 : p < length h1) by lia.
  destruct (new_registers _ _ _ _ _ _ Hp1 Hnew2) as (-> & Hsecond & ps2 & Hps2 & Hchild2).
  split; [lia|]. injection Hnew2 as <-.
  assert (Hlen : length (Scope.set_child h1 p node (length h1)) = length h1)
    by apply update_length.
  rewrite deref_older in Hps2 by lia.
  unfold Scope.set_child in Hps2. rewrite (deref_update_eq _ _ _ _ Hps1) in Hps2.
  injection Hps2 as <-. split.
  - rewrite deref_older by lia. unfold Scope.set_child.
    rewrite deref_update_ne by lia. done.
  - exists ps1. eexists. split; [done|]. split.
    { rewrite deref_older by lia. unfold Scope.set_child.
      by rewrite (deref_update_eq _ _ _ _ Hps1). }
    simpl. split; [done|]. split; [apply map_get_set_eq|]. split.
    + by eapply map_set_keys_present.
    + intros other Hother. by apply map_get_set_ne.
Qed.

(** The theorem at two scopes opened for node 7 under the root of
    [Examples.global_and_block]. *)
Lemma new_scope_replaces_the_child_of_the_same_node_witness :
  2 ≠ 3
  /\ Scope.deref
       (snd (Scope.new (snd (Scope.new Examples.global_and_block 7 ScopeType.Other (Some 0)))
               7 ScopeType.Other (Some 0))) 2
     = Some (Scope.mk 7 ScopeType.Other (Some 0) [] []).
Proof.
  pose proof (new_scope_replaces_the_child_of_the_same_node
                Examples.global_and_block 7 ScopeType.Other ScopeType.Other 0
                2 (snd (Scope.new Examples.global_and_block 7 ScopeType.Other (Some 0)))
                3 (snd (Scope.new (snd (Scope.new Examples.global_and_block 7
                                          ScopeType.Other (Some 0)))
                          7 ScopeType.Other (Some 0)))) as H.
  destruct H as (Hne & Hfirst & _).
  - vm_compute. lia.
  - reflexivity.
  - reflexivity.
  - split; [exact Hne|exact Hfirst].
Defined.

(** ** [arrayUnpacker.ts]: the discovery round *)

Lemma elem_of_literal_arrays (id : NodeId) (t : Node) :
  id ∈ literal_arrays t
  <-> exists n, n ∈ nodes t /\ ArrayUnpacker.isLiteralArrayDeclaration n = true /\ node_id n = id.
Proof.
  unfold literal_arrays. rewrite elem_of_list_to_set, list_elem_of_fmap. split.
  - intros (n & -> & Hn). apply list_elem_of_filter in Hn as [Hd Hn]. by exists n.
  - intros (n & Hn & Hd & <-). exists n. split; [done|]. by apply list_elem_of_filter.
Qed.

Lemma literal_array_slots (n : Node) (elements : list (option Node)) :
  ArrayUnpacker.isLiteralArrayDeclaration n = true ->
  ArrayUnpacker.init_elements n = Ok elements ->
  Forall literal_or_hole elements.
Proof.
  intros Hlit Hinit. apply Forall_forall. intros [e|] He; [|done].
  by eapply literal_array_elements.
Qed.

Lemma findArrays_enter_appending (self : ArrayUnpacker.t) (n : Node) (p : option Node)
    (s s' : ArrayUnpacker.Finding) :
  n ∈ nodes (ArrayUnpacker.ast self) ->
  appending self s ->
  ArrayUnpacker.findArrays_enter n p s = Ok s' ->
  appending self s'.
Proof.
  intros Hn (Hast & Hflag & Hroot & new & Harrays & Hseen & [Hnd Hnew] & Hfound).
  unfold ArrayUnpacker.findArrays_enter.
  destruct (ArrayUnpacker.isScopeType n).
  { destruct (Scope.new _ _ _ _). intros [= <-]. by repeat (split; [done|]); exists new. }
  destruct (ArrayUnpacker.isLiteralArrayDeclaration n) eqn:Hlit; simpl;
    [|intros [= <-]; by repeat (split; [done|]); exists new].
  case_bool_decide as Hunseen; simpl;
    [intros [= <-]; by repeat (split; [done|]); exists new|].
  destruct (ArrayUnpacker.binding_name n) as [name|]; simpl; [|done].
  destruct (ArrayUnpacker.init_elements n) as [elements|] eqn:Hinit; simpl; [|done].
  intros [= <-]. simpl. repeat (split; [done|]).
  exists (new ++ [Array.new (node_id n) (node_id <$> p) name elements]).
  rewrite Hseen in Hunseen. rewrite Harrays, Hseen, fmap_app, list_to_set_app_L. simpl.
  split; [by rewrite app_assoc|]. split; [set_solver|]. split; [split|].
  - rewrite fmap_app. apply NoDup_app. split; [done|]. split; [|apply NoDup_singleton].
    intros id Hid ->%list_elem_of_singleton. apply Hunseen. set_solver.
  - apply Forall_app. split; [done|]. apply Forall_singleton. simpl.
    split; [apply elem_of_literal_arrays; by exists n|].
    split; [set_solver|]. split; [done|]. by eapply literal_array_slots.
  - split; [intros _|done]. by destruct new.
Qed.

Lemma findArrays_leave_self (n : Node) (s s' : ArrayUnpacker.Finding) :
  ArrayUnpacker.findArrays_leave n s = Ok s' ->
  ArrayUnpacker.f_self s' = ArrayUnpacker.f_self s
  /\ ArrayUnpacker.f_foundArrays s' = ArrayUnpacker.f_foundArrays s.
Proof.
  unfold ArrayUnpacker.findArrays_leave.
  destruct (ArrayUnpacker.the_scope _ _) as [scope|]; simpl; [|done].
  destruct (Scope.parent scope); [|by intros [= <-]].
  case_bool_decide; by intros [= <-].
Qed.

Lemma findArrays_appending (self : ArrayUnpacker.t) (found : bool) (self' : ArrayUnpacker.t) :
  ArrayUnpacker.findArrays self = Ok (found, self') ->
  appending self (ArrayUnpacker.finding self' (ArrayUnpacker.globalScope self) found).
Proof.
  unfold ArrayUnpacker.findArrays.
  destruct (traverse _ _ _ _ _) as [s|] eqn:Hwalk; simpl; [|done]. intros [= <- <-].
  assert (Hs : appending self s).
  { eapply (traverse_invariant _ _ (appending self)); [| | |exact Hwalk].
    - intros n p t t' Hn. by apply findArrays_enter_appending.
    - intros n t t' _ Ht Hleave. apply findArrays_leave_self in Hleave as [Hself Hfound].
      unfold appending. by rewrite Hself, Hfound.
    - repeat (split; [done|]). exists []. simpl.
      split; [by rewrite app_nil_r|]. split; [set_solver|].
      split; [split; [apply NoDup_nil_2|done]|done]. }
  exact Hs.
Qed.

(** After a discovery round every literal array declaration of the tree
    is among the seen declarators. *)
Lemma findArrays_sees_all (self : ArrayUnpacker.t) (found : bool) (self' : ArrayUnpacker.t)
    (n : Node) :
  ArrayUnpacker.findArrays self = Ok (found, self') ->
  n ∈ nodes (ArrayUnpacker.ast self) ->
  ArrayUnpacker.isLiteralArrayDeclaration n = true ->
  node_id n ∈ ArrayUnpacker.arrayNodes self'.
Proof.
  intros Hfind Hn Hlit. revert Hfind. unfold ArrayUnpacker.findArrays.
  destruct (traverse _ _ _ _ _) as [s|] eqn:Hwalk; simpl; [|done]. intros [= _ <-].
  eapply (traverse_reaches _ _
            (fun s => node_id n ∈ ArrayUnpacker.arrayNodes (ArrayUnpacker.f_self s))
            _ n Hn); [| | |exact Hwalk].
  - intros p t t'. unfold ArrayUnpacker.findArrays_enter.
    destruct (literal_array_fields n Hlit) as ((name & ->) & (elements & ->) & ->).
    rewrite Hlit. simpl. case_bool_decide as Hseen; simpl.
    + by intros [= <-].
    + intros [= <-]. simpl. set_solver.
  - intros m p t t' Hgood. unfold ArrayUnpacker.findArrays_enter.
    destruct (ArrayUnpacker.isScopeType m).
    { destruct (Scope.new _ _ _ _). by intros [= <-]. }
    destruct (_ && _); [|by intros [= <-]].
    destruct (ArrayUnpacker.binding_name m) as [name|]; simpl; [|done].
    destruct (ArrayUnpacker.init_elements m) as [elements|]; simpl; [|done].
    intros [= <-]. simpl. set_solver.
  - intros m t t' Hgood Hleave. apply findArrays_leave_self in Hleave as [-> _]. done.
Qed.

(** X7: a discovery round that returns reports a discovery exactly when
    the tree holds a literal array declaration that the pass object has
    not seen yet. *)
Theorem findArrays_reports_unseen_literal_arrays
    (self : ArrayUnpacker.t) (found : bool) (self' : ArrayUnpacker.t) :
  ArrayUnpacker.findArrays self = Ok (found, self') ->
  found = true
  <-> exists n,
        n ∈ nodes (ArrayUnpacker.ast self)
        /\ ArrayUnpacker.isLiteralArrayDeclaration n = true
        /\ node_id n ∉ ArrayUnpacker.arrayNodes self.
Proof.
  intros Hfind. split.
  - intros ->. destruct (findArrays_appending _ _ _ Hfind)
      as (_ & _ & _ & new & _ & _ & [_ Hnew] & Hfound).
    simpl in Hfound. destruct new as [|d new]; [by destruct (proj1 Hfound eq_refl)|].
    apply Forall_cons in Hnew as [(Hd & Hunseen & _) _].
    apply elem_of_literal_arrays in Hd as (n & Hn & Hlit & Hid).
    exists n. by rewrite Hid.
  - intros (n & Hn & Hlit & Hunseen). destruct found; [done|].
    destruct Hunseen. by eapply findArrays_false_all_seen.
Qed.

(** The theorem at the first discovery round on [const a = [1, 2]; a[5];]. *)
Lemma findArrays_reports_unseen_literal_arrays_witness :
  true = true
  <-> exists n,
        n ∈ nodes (ArrayUnpacker.ast (ArrayUnpacker.new Examples.out_of_range false))
        /\ ArrayUnpacker.isLiteralArrayDeclaration n = true
        /\ node_id n ∉ ArrayUnpacker.arrayNodes (ArrayUnpacker.new Examples.out_of_range false).
Proof.
  apply (findArrays_reports_unseen_literal_arrays
           (ArrayUnpacker.new Examples.out_of_range false) true
           (Examples.discovered Examples.out_of_range false)).
  vm_compute. reflexivity.
Defined.

(** X8: after a discovery round the seen declarators are those seen
    before and the literal array declarations of the tree. *)
Theorem findArrays_marks_the_literal_arrays
    (self : ArrayUnpacker.t) (found : bool) (self' : ArrayUnpacker.t) :
  ArrayUnpacker.findArrays self = Ok (found, self') ->
  ArrayUnpacker.arrayNodes self'
  = ArrayUnpacker.arrayNodes self ∪ literal_arrays (ArrayUnpacker.ast self).
Proof.
  intros Hfind.
  destruct (findArrays_appending _ _ _ Hfind)
    as (_ & _ & _ & new & _ & Hseen & [_ Hnew] & _). simpl in Hseen.
  apply set_eq. intros id. rewrite Hseen, !elem_of_union. split.
  - intros [?|Hid]; [by left|right].
    apply elem_of_list_to_set, list_elem_of_fmap in Hid as (d & -> & Hd).
    rewrite Forall_forall in Hnew. by apply Hnew.
  - intros [?|Hid]; [by left|].
    apply elem_of_literal_arrays in Hid as (n & Hn & Hlit & <-).
    rewrite <- elem_of_union, <- Hseen. by eapply findArrays_sees_all.
Qed.

(** The theorem at the first discovery round on [const a = [1, 2]; a[5];]. *)
Lemma findArrays_marks_the_literal_arrays_witness :
  ArrayUnpacker.arrayNodes (Examples.discovered Examples.out_of_range false)
  = ArrayUnpacker.arrayNodes (ArrayUnpacker.new Examples.out_of_range false)
    ∪ literal_arrays (ArrayUnpacker.ast (ArrayUnpacker.new Examples.out_of_range false)).
Proof.
  apply (findArrays_marks_the_literal_arrays
           (ArrayUnpacker.new Examples.out_of_range false) true).
  vm_compute. reflexivity.
Defined.

(** X9: a discovery round leaves the tree and the descriptors there were
    as they are (elements and usage counters included); it appends one
    descriptor for each literal array declaration it had not seen, with a
    usage counter of zero and with elements that are literals or holes. *)
Theorem findArrays_appends_fresh_descriptors
    (self : ArrayUnpacker.t) (found : bool) (self' : ArrayUnpacker.t) :
  ArrayUnpacker.findArrays self = Ok (found, self') ->
  ArrayUnpacker.ast self' = ArrayUnpacker.ast self
  /\ ArrayUnpacker.shouldRemoveArrays self' = ArrayUnpacker.shouldRemoveArrays self
  /\ ArrayUnpacker.globalScope self' = ArrayUnpacker.globalScope self
  /\ exists new,
       ArrayUnpacker.arrays self' = ArrayUnpacker.arrays self ++ new
       /\ list_to_set (Array.node <$> new)
          = literal_arrays (ArrayUnpacker.ast self) ∖ ArrayUnpacker.arrayNodes self
       /\ fresh_descriptors self new.
Proof.
  intros Hfind.
  destruct (findArrays_appending _ _ _ Hfind)
    as (Hast & Hflag & Hroot & new & Harrays & Hseen & [Hnd Hnew] & _).
  simpl in *. repeat (split; [done|]). exists new. split; [done|]. split; [|done].
  assert (Hall : forall id, id ∈ literal_arrays (ArrayUnpacker.ast self) ->
                            id ∈ ArrayUnpacker.arrayNodes self').
  { intros id (n & Hn & Hlit & <-)%elem_of_literal_arrays. by eapply findArrays_sees_all. }
  rewrite Forall_forall in Hnew.
  apply set_eq. intros id. rewrite elem_of_difference. split.
  - intros Hid. apply elem_of_list_to_set, list_elem_of_fmap in Hid as (d & -> & Hd).
    destruct (Hnew d Hd) as (? & ? & _). done.
  - intros [Hid Hunseen]. apply Hall in Hid. rewrite Hseen in Hid. set_solver.
Qed.

(** The theorem at the first discovery round on [const a = [1, 2]; a[5];]. *)
Lemma findArrays_appends_fresh_descriptors_witness :
  ArrayUnpacker.ast (Examples.discovered Examples.out_of_range false)
  = ArrayUnpacker.ast (ArrayUnpacker.new Examples.out_of_range false).
Proof.
  apply (findArrays_appends_fresh_descriptors
           (ArrayUnpacker.new Examples.out_of_range false) true).
  vm_compute. reflexivity.
Defined.

(** ** [arrayUnpacker.ts]: the rewrite round *)

Lemma counted_up_refl (d : Array.t) : counted_up d d.
Proof. by repeat split. Qed.

Lemma counted_up_incr (d d' : Array.t) : counted_up d d' -> counted_up d (Array.incr d').
Proof. intros (? & ? & ? & ? & ?). repeat split; simpl; try done. lia. Qed.

Lemma counted_up_nodes (l l' : list Array.t) :
  Forall2 counted_up l l' ->
  Array.node <$> l' = Array.node <$> l
  /\ Array.elements <$> l' = Array.elements <$> l
  /\ Array.parentNode <$> l' = Array.parentNode <$> l.
Proof.
  induction 1 as [|d d' l l' (Hnode & Hparent & _ & Helements & _) _ (IH1 & IH2 & IH3)];
    [done|].
  rewrite !fmap_cons. by rewrite Hnode, Hparent, Helements, IH1, IH2, IH3.
Qed.

Lemma unpackArrays_leave_self (n : Node) (s s' : ArrayUnpacker.Unpacking) :
  ArrayUnpacker.unpackArrays_leave n s = Ok s' ->
  ArrayUnpacker.u_self s' = ArrayUnpacker.u_self s.
Proof.
  unfold ArrayUnpacker.unpackArrays_leave.
  destruct (ArrayUnpacker.the_scope _ _) as [scope|]; simpl; [|done].
  destruct (Scope.parent scope); [|by intros [= <-]].
  case_bool_decide; by intros [= <-].
Qed.

Lemma unpackArrays_enter_counting (self : ArrayUnpacker.t) (n : Node) (p : option Node)
    (s s' : ArrayUnpacker.Unpacking) :
  counting self s ->
  ArrayUnpacker.unpackArrays_enter n p s = Ok s' ->
  counting self s'.
Proof.
  intros [Hall Htree]. unfold ArrayUnpacker.unpackArrays_enter.
  destruct (ArrayUnpacker.isScopeType n).
  { destruct (ArrayUnpacker.the_scope _ _); simpl; [|done]. by intros [= <-]. }
  destruct (ArrayUnpacker.isSimpleArrayAccess n); [|by intros [= <-]].
  destruct (ArrayUnpacker.object_name n) as [name|]; simpl; [|done].
  destruct (ArrayUnpacker.defined _) as [scope|]; simpl; [|done].
  destruct (Scope.get _ scope name) as [array|]; [|by intros [= <-]].
  destruct (ArrayUnpacker.expression_value n) as [index|]; simpl; [|done].
  destruct (_ !! array) as [descriptor|] eqn:Harray; [|done].
  destruct (ArrayUnpacker.element_at _ index) as [[replacement|]|]; [|by intros [= <-]..].
  destruct p as [p|]; [|done]. intros [= <-]. simpl.
  destruct (Forall2_lookup_r _ _ _ _ _ Hall Harray) as (d & Hd & Hup).
  split.
  - rewrite <- (list_insert_id _ _ _ Hd). apply Forall2_insert; [done|].
    by apply counted_up_incr.
  - right. exists array, d, (Array.incr descriptor). split; [done|]. split.
    + apply list_lookup_insert_eq. by eapply lookup_lt_Some.
    + destruct Hup as (_ & _ & _ & _ & Hle). simpl. lia.
Qed.

Lemma unpackArrays_counting (self self' : ArrayUnpacker.t) :
  ArrayUnpacker.unpackArrays self = Ok self' ->
  Forall2 counted_up (ArrayUnpacker.arrays self) (ArrayUnpacker.arrays self')
  /\ (ArrayUnpacker.ast self' = ArrayUnpacker.ast self
      \/ exists i d d',
           ArrayUnpacker.arrays self !! i = Some d
           /\ ArrayUnpacker.arrays self' !! i = Some d'
           /\ Array.replaceCount d < Array.replaceCount d').
Proof.
  unfold ArrayUnpacker.unpackArrays.
  destruct (traverse _ _ _ _ _) as [s|] eqn:Hwalk; simpl; [|done]. intros [= <-].
  assert (Hs : counting self s); [|exact Hs].
  eapply (traverse_invariant _ _ (counting self)); [| | |exact Hwalk].
  - intros n p t t' _. apply unpackArrays_enter_counting.
  - intros n t t' _ Ht Hleave. apply unpackArrays_leave_self in Hleave.
    unfold counting. by rewrite Hleave.
  - split; [|by left]. apply Forall2_same_length_lookup_2; [done|].
    intros i d d' Hd Hd'. simpl in Hd'. rewrite Hd in Hd'. injection Hd' as <-.
    apply counted_up_refl.
Qed.

(** X10: a rewrite round leaves the scopes and the set of seen
    declarators as they are; every descriptor keeps its declarator, its
    parent, its name and its elements, and its usage counter does not go
    down; and when the round has changed the tree, the usage counter of
    some descriptor has gone up. *)
Theorem unpackArrays_only_counts_up (self self' : ArrayUnpacker.t) :
  ArrayUnpacker.unpackArrays self = Ok self' ->
  ArrayUnpacker.scopes self' = ArrayUnpacker.scopes self
  /\ ArrayUnpacker.arrayNodes self' = ArrayUnpacker.arrayNodes self
  /\ Forall2 counted_up (ArrayUnpacker.arrays self) (ArrayUnpacker.arrays self')
  /\ (ArrayUnpacker.ast self' = ArrayUnpacker.ast self
      \/ exists i d d',
           ArrayUnpacker.arrays self !! i = Some d
           /\ ArrayUnpacker.arrays self' !! i = Some d'
           /\ Array.replaceCount d < Array.replaceCount d').
Proof.
  intros Hunpack. destruct (unpackArrays_counting _ _ Hunpack) as [Hall Htree].
  apply unpackArrays_scopes in Hunpack as (_ & Hscopes & Hseen & _). done.
Qed.

(** The theorem at the rewrite round on [const a = [1, 2]; a[0]; a[0];]. *)
Lemma unpackArrays_only_counts_up_witness :
  Forall2 counted_up
    (ArrayUnpacker.arrays (Examples.discovered Examples.inlined_twice false))
    [Array.mk 12 (Some 11) "a" [Some (Examples.number 20 1); Some (Examples.number 21 2)] 2].
Proof.
  refine (proj1 (proj2 (proj2 (unpackArrays_only_counts_up
                                 (Examples.discovered Examples.inlined_twice false)
                                 (Examples.executed_self Examples.inlined_twice false) _)))).
  vm_compute. reflexivity.
Defined.

(** X11: in every pass object of a run, each seen declarator has exactly
    one descriptor, and the elements of every descriptor are literals or
    holes. *)
Theorem one_descriptor_for_each_seen_declarator
    (tree : Node) (removeArrays : bool) (self : ArrayUnpacker.t) :
  ArrayUnpacker.running tree removeArrays self ->
  NoDup (Array.node <$> ArrayUnpacker.arrays self)
  /\ list_to_set (Array.node <$> ArrayUnpacker.arrays self) = ArrayUnpacker.arrayNodes self
  /\ Forall (fun d => Forall literal_or_hole (Array.elements d)) (ArrayUnpacker.arrays self).
Proof.
  induction 1 as [|self found self' _ (Hnd & Hseen & Hlit) Hfind
                  |self self' _ (Hnd & Hseen & Hlit) Hunpack].
  - split; [apply NoDup_nil_2|]. split; [done|]. apply Forall_nil_2.
  - destruct (findArrays_appending _ _ _ Hfind)
      as (_ & _ & _ & new & Harrays & Hmarked & [Hnd_new Hnew] & _).
    simpl in Harrays, Hmarked.
    rewrite Harrays, Hmarked, fmap_app, list_to_set_app_L, Hseen. split; [|split; [done|]].
    + apply NoDup_app. split; [done|]. split; [|done].
      intros id Hold Hid. apply list_elem_of_fmap in Hid as (d & -> & Hd).
      rewrite Forall_forall in Hnew. destruct (Hnew d Hd) as (_ & Hunseen & _).
      apply Hunseen. rewrite <- Hseen. by apply elem_of_list_to_set.
    + apply Forall_app. split; [done|].
      eapply Forall_impl; [exact Hnew|]. by intros d (_ & _ & _ & ?).
  - destruct (unpackArrays_counting _ _ Hunpack) as [Hall _]. simpl in Hall.
    destruct (counted_up_nodes _ _ Hall) as (Hnodes & Helements & _).
    apply unpackArrays_scopes in Hunpack as (_ & _ & -> & _).
    rewrite Hnodes. split; [done|]. split; [done|].
    apply Forall_fmap in Hlit. apply Forall_fmap. by rewrite Helements.
Qed.

(** The theorem at the pass object after the first discovery round on
    [const a = [1, 2]; a[0]; a[0];]. *)
Lemma one_descriptor_for_each_seen_declarator_witness :
  NoDup (Array.node <$> ArrayUnpacker.arrays (Examples.discovered Examples.inlined_twice false)).
Proof.
  refine (proj1 (one_descriptor_for_each_seen_declarator Examples.inlined_twice false
                   (Examples.discovered Examples.inlined_twice false) _)).
  apply (ArrayUnpacker.running_findArrays _ _ (ArrayUnpacker.new Examples.inlined_twice false)
           true).
  - constructor.
  - vm_compute. reflexivity.
Defined.

(** [elements[index]] for an index that is not a natural number. *)
Lemma element_at_not_natural (elements : list (option Node)) (index : Q) :
  (forall n : nat, ~ Qeq index (inject_Z (Z.of_nat n))) ->
  ArrayUnpacker.element_at elements index = None.
Proof.
  intros Hindex. unfold ArrayUnpacker.element_at.
  destruct (bool_decide (Qden (Qred index) = 1%positive)) eqn:Hden; [|done].
  destruct (bool_decide (0 ≤ Qnum (Qred index))%Z) eqn:Hnum; [|done].
  apply bool_decide_eq_true in Hden, Hnum.
  destruct (Hindex (Z.to_nat (Qnum (Qred index)))).
  rewrite <- (Qred_correct index) at 1. rewrite Z2Nat.id by done.
  destruct (Qred index) as [num den]. simpl in *. subst den.
  unfold Qeq. simpl. lia.
Qed.

(** X12: an access [name[index]] whose index is not a natural number (a
    negative number, a fraction) is left as it is by the rewrite
    visitor, whatever the name resolves to: nothing is thrown, the tree
    and the usage counters stay as they are. *)
Theorem access_at_a_non_natural_index_is_left_unchanged
    (self : ArrayUnpacker.t) (scope : ScopeId) (node : Node) (parent : option Node)
    (name : string) (index : Q) :
  ArrayUnpacker.object_name node = Ok name ->
  ArrayUnpacker.expression_value node = Ok index ->
  (forall n : nat, ~ Qeq index (inject_Z (Z.of_nat n))) ->
  (forall array, Scope.get (ArrayUnpacker.scopes self) scope name = Some array ->
                 is_Some (ArrayUnpacker.arrays self !! array)) ->
  ArrayUnpacker.unpackArrays_enter node parent (ArrayUnpacker.unpacking self (Some scope))
  = Ok (ArrayUnpacker.unpacking self (Some scope)).
Proof.
  intros Hname Hindex Hnat Hbound. unfold ArrayUnpacker.unpackArrays_enter. simpl.
  rewrite (object_name_not_scope _ _ Hname), Hname. simpl.
  destruct (ArrayUnpacker.isSimpleArrayAccess node); [|done].
  destruct (Scope.get _ scope name) as [array|] eqn:Hget; [|done].
  rewrite Hindex. simpl. destruct (Hbound array eq_refl) as [descriptor ->].
  by rewrite element_at_not_natural.
Qed.

(** The theorem at the access [a[1/2]] after the discovery round on
    [const a = [1, 2]; a[5];]. *)
Lemma access_at_a_non_natural_index_is_left_unchanged_witness :
  ArrayUnpacker.unpackArrays_enter
    (Inner 31 ComputedMemberExpression
       [Some (Leaf 32 (IdentifierExpression "a"));
        Some (Leaf 33 (LiteralNumericExpression (1 # 2)))])
    None
    (ArrayUnpacker.unpacking (Examples.discovered Examples.out_of_range true) (Some 0))
  = Ok (ArrayUnpacker.unpacking (Examples.discovered Examples.out_of_range true) (Some 0)).
Proof.
  apply (access_at_a_non_natural_index_is_left_unchanged
           (Examples.discovered Examples.out_of_range true) 0 _ None "a" (1 # 2)).
  - reflexivity.
  - reflexivity.
  - intros n. unfold Qeq. simpl. lia.
  - intros array. vm_compute. intros [= <-]. by eexists.
Defined.

Lemma isLiteralArrayDeclaration_intro (id idb ida : NodeId) (name : string)
    (elements : list (option Node)) :
  Forall literal_or_hole elements ->
  ArrayUnpacker.isLiteralArrayDeclaration
    (Inner id VariableDeclarator
       [Some (Leaf idb (BindingIdentifier name));
        Some (Inner ida ArrayExpression elements)]) = true.
Proof.
  intros Helements. simpl.
  induction Helements as [|[e|] es He _ IH]; simpl; [done| |done].
  simpl in He. by rewrite He.
Qed.

(** X13: discovery followed by rewrite at one site.  When the discovery
    visitor has entered an unseen declarator [name = [elements]] in a
    scope, the rewrite visitor, at an access [name[i]] in that scope whose
    index is that of an element (not a hole), hands that element to
    [replaceNode] and sets the usage counter of the new descriptor to 1. *)
Theorem discovered_array_is_inlined_at_an_access
    (self : ArrayUnpacker.t) (scope : ScopeId) (found : bool)
    (id idb ida : NodeId) (name : string) (elements : list (option Node))
    (declaration : option Node)
    (ia io ii : NodeId) (index : Q) (i : nat) (e : Node) (p : Node) :
  let declarator := Inner id VariableDeclarator
                      [Some (Leaf idb (BindingIdentifier name));
                       Some (Inner ida ArrayExpression elements)] in
  let access := Inner ia ComputedMemberExpression
                  [Some (Leaf io (IdentifierExpression name));
                   Some (Leaf ii (LiteralNumericExpression index))] in
  Forall literal_or_hole elements ->
  id ∉ ArrayUnpacker.arrayNodes self ->
  scope < length (ArrayUnpacker.scopes self) ->
  Qeq index (inject_Z (Z.of_nat i)) ->
  elements !! i = Some (Some e) ->
  exists s,
    ArrayUnpacker.findArrays_enter declarator declaration
      (ArrayUnpacker.finding self scope found) = Ok s
    /\ ArrayUnpacker.f_scope s = scope
    /\ ArrayUnpacker.unpackArrays_enter access (Some p)
         (ArrayUnpacker.unpacking (ArrayUnpacker.f_self s) (Some scope))
       = Ok (ArrayUnpacker.unpacking
               (ArrayUnpacker.mk
                  (replaceNode (node_id p) ia e (ArrayUnpacker.ast self))
                  (ArrayUnpacker.shouldRemoveArrays self)
                  (ArrayUnpacker.globalScope self)
                  ({[id]} ∪ ArrayUnpacker.arrayNodes self)
                  (Scope.set_element (ArrayUnpacker.scopes self) scope name
                     (length (ArrayUnpacker.arrays self)))
                  (ArrayUnpacker.arrays self
                     ++ [Array.mk id (node_id <$> declaration) name elements 1]))
               (Some scope)).
Proof.
  intros declarator access Helements Hunseen Hscope Hindex He.
  assert (Hlit : ArrayUnpacker.isLiteralArrayDeclaration declarator = true)
    by (by apply isLiteralArrayDeclaration_intro).
  eexists. split.
  { unfold ArrayUnpacker.findArrays_enter. rewrite Hlit.
    cbn [ArrayUnpacker.isScopeType declarator ArrayUnpacker.f_self node_id].
    rewrite bool_decide_false by done. reflexivity. }
  split; [done|].
  unfold ArrayUnpacker.unpackArrays_enter. simpl.
  rewrite get_set_element_eq by done.
  rewrite lookup_app_r by done. rewrite Nat.sub_diag. simpl.
  rewrite (element_at_natural _ _ i Hindex), He.
  do 3 f_equal.
  rewrite insert_app_r_alt by done. by rewrite Nat.sub_diag.
Qed.

(** The theorem at [const a = [1, 2]] and the access [a[1]]. *)
Lemma discovered_array_is_inlined_at_an_access_witness :
  exists s,
    ArrayUnpacker.findArrays_enter
      (Inner 12 VariableDeclarator
         [Some (Leaf 13 (BindingIdentifier "a"));
          Some (Inner 14 ArrayExpression
                  [Some (Examples.number 20 1); Some (Examples.number 21 2)])])
      None
      (ArrayUnpacker.finding (ArrayUnpacker.new Examples.out_of_range false) 0 false) = Ok s
    /\ ArrayUnpacker.f_scope s = 0
    /\ ArrayUnpacker.unpackArrays_enter
         (Inner 31 ComputedMemberExpression
            [Some (Leaf 32 (IdentifierExpression "a"));
             Some (Leaf 33 (LiteralNumericExpression (inject_Z 1)))])
         (Some (Leaf 30 (OtherLeaf "parent")))
         (ArrayUnpacker.unpacking (ArrayUnpacker.f_self s) (Some 0))
       = Ok (ArrayUnpacker.unpacking
               (ArrayUnpacker.mk
                  (replaceNode 30 31 (Examples.number 21 2) Examples.out_of_range)
                  false 0 ({[12]} ∪ ∅)
                  (Scope.set_element
                     (ArrayUnpacker.scopes (ArrayUnpacker.new Examples.out_of_range false))
                     0 "a" 0)
                  ([] ++ [Array.mk 12 None "a"
                            [Some (Examples.number 20 1); Some (Examples.number 21 2)] 1]))
               (Some 0)).
Proof.
  apply (discovered_array_is_inlined_at_an_access
           (ArrayUnpacker.new Examples.out_of_range false) 0 false 12 13 14 "a"
           [Some (Examples.number 20 1); Some (Examples.number 21 2)] None
           31 32 33 (inject_Z 1) 1 (Examples.number 21 2) (Leaf 30 (OtherLeaf "parent"))).
  - repeat constructor.
  - apply not_elem_of_empty.
  - vm_compute. lia.
  - reflexivity.
  - reflexivity.
Defined.

(** ** [arrayUnpacker.ts]: the scopes of a discovery round *)

Lemma findArrays_enter_opens (n : Node) (p : option Node) (s s' : ArrayUnpacker.Finding) :
  ArrayUnpacker.findArrays_enter n p s = Ok s' ->
  length (ArrayUnpacker.scopes (ArrayUnpacker.f_self s'))
  = length (ArrayUnpacker.scopes (ArrayUnpacker.f_self s))
    + (if ArrayUnpacker.isScopeType n then 1 else 0).
Proof.
  unfold ArrayUnpacker.findArrays_enter.
  destruct (ArrayUnpacker.isScopeType n).
  { destruct (Scope.new _ _ _ _) as [c h'] eqn:Hnew. intros [= <-]. simpl.
    apply new_get in Hnew as (_ & -> & _). lia. }
  destruct (_ && _); [|intros [= <-]; lia].
  destruct (ArrayUnpacker.binding_name n) as [name|]; simpl; [|done].
  destruct (ArrayUnpacker.init_elements n) as [elements|]; simpl; [|done].
  intros [= <-]. simpl. unfold Scope.set_element. rewrite update_length. lia.
Qed.

Lemma findArrays_walk_opens (t : Node) :
  forall (p : option Node) (s s' : ArrayUnpacker.Finding),
    traverse ArrayUnpacker.findArrays_enter ArrayUnpacker.findArrays_leave t p s = Ok s' ->
    length (ArrayUnpacker.scopes (ArrayUnpacker.f_self s'))
    = length (ArrayUnpacker.scopes (ArrayUnpacker.f_self s))
      + length (ArrayUnpacker.scope_ids t).
Proof.
  induction t as [id type|id type children IH] using Node_ind; intros p s s'.
  - cbn [traverse]. destruct (ArrayUnpacker.findArrays_enter _ p s) as [s1|] eqn:Henter;
      cbn [bind]; [|done].
    intros Hleave. apply findArrays_leave_self in Hleave as [-> _].
    apply findArrays_enter_opens in Henter. simpl in *. lia.
  - rewrite scope_ids_Inner. cbn [traverse].
    assert (Hchildren : forall (parent : option Node) (s1 s2 : ArrayUnpacker.Finding),
              visit_each
                (fun c => traverse ArrayUnpacker.findArrays_enter
                            ArrayUnpacker.findArrays_leave c parent) children s1 = Ok s2 ->
              length (ArrayUnpacker.scopes (ArrayUnpacker.f_self s2))
              = length (ArrayUnpacker.scopes (ArrayUnpacker.f_self s1))
                + length (flat_map (fun slot => match slot with
                                                | Some c => ArrayUnpacker.scope_ids c
                                                | None => []
                                                end) children)).
    { intros parent. induction IH as [|[c|] cs Hc _ IHcs]; simpl; intros s1 s2.
      - intros [= <-]. lia.
      - destruct (traverse _ _ c parent s1) as [s1'|] eqn:Hc'; simpl; [|done].
        intros Hrest. apply Hc in Hc'. apply IHcs in Hrest. rewrite length_app. lia.
      - apply IHcs. }
    set (node := Inner id type children) in *.
    destruct (ArrayUnpacker.findArrays_enter node p s) as [s1|] eqn:Henter;
      cbn [bind]; [|done].
    destruct (visit_each _ children s1) as [s2|] eqn:Hloop; cbn [bind]; [|done].
    intros Hleave. apply findArrays_leave_self in Hleave as [-> _].
    apply findArrays_enter_opens in Henter. apply Hchildren in Hloop. rewrite length_app.
    destruct (ArrayUnpacker.isScopeType node); simpl in *; lia.
Qed.

Lemma scope_ids_length (t : Node) :
  length (ArrayUnpacker.scope_ids t)
  = length (filter (fun n => ArrayUnpacker.isScopeType n = true) (nodes t)).
Proof.
  induction t as [id type|id type children IH] using Node_ind; [done|].
  rewrite scope_ids_Inner. cbn [nodes]. rewrite filter_cons, length_app.
  assert (Hchildren :
            length (flat_map (fun slot => match slot with
                                          | Some c => ArrayUnpacker.scope_ids c
                                          | None => []
                                          end) children)
            = length (filter (fun n => ArrayUnpacker.isScopeType n = true)
                        (flat_map (fun c => match c with
                                            | Some c => nodes c
                                            | None => []
                                            end) children))).
  { induction IH as [|[c|] cs Hc _ IHcs]; simpl; [done| |done].
    rewrite filter_app, !length_app. by rewrite Hc, IHcs. }
  destruct (ArrayUnpacker.isScopeType (Inner id type children)) eqn:Hscope.
  - rewrite decide_True by done. simpl. by rewrite Hchildren.
  - rewrite decide_False by (intros H; cbv beta in H; congruence).
    simpl. by rewrite Hchildren.
Qed.

(** X14: every discovery round that returns allocates one new [Scope] for
    each block and function body of the tree, and none else, whether or
    not an earlier round has opened a scope for the node: the store grows
    by the number of these nodes. *)
Theorem findArrays_opens_a_scope_for_every_block
    (self : ArrayUnpacker.t) (found : bool) (self' : ArrayUnpacker.t) :
  ArrayUnpacker.findArrays self = Ok (found, self') ->
  length (ArrayUnpacker.scopes self')
  = length (ArrayUnpacker.scopes self)
    + length (filter (fun n => ArrayUnpacker.isScopeType n = true)
                (nodes (ArrayUnpacker.ast self))).
Proof.
  unfold ArrayUnpacker.findArrays.
  destruct (traverse _ _ _ _ _) as [s|] eqn:Hwalk; simpl; [|done]. intros [= _ <-].
  apply findArrays_walk_opens in Hwalk. simpl in Hwalk.
  by rewrite Hwalk, scope_ids_length.
Qed.

(** The theorem at two discovery rounds on
    [function f() { const a = [1, 2]; a[0]; }]: each opens one scope. *)
Lemma findArrays_opens_a_scope_for_every_block_witness :
  length (ArrayUnpacker.scopes (Examples.discovered Examples.in_function true))
  = length (ArrayUnpacker.scopes (ArrayUnpacker.new Examples.in_function true))
    + length (filter (fun n => ArrayUnpacker.isScopeType n = true)
                (nodes (ArrayUnpacker.ast (ArrayUnpacker.new Examples.in_function true)))).
Proof.
  apply (findArrays_opens_a_scope_for_every_block
           (ArrayUnpacker.new Examples.in_function true) true).
  vm_compute. reflexivity.
Defined.

(** ** [arrayUnpacker.ts]: the cleanup *)

Lemma removals_app (ds ds' : list Array.t) (tree : Node) :
  removals (ds ++ ds') tree = removals ds' (removals ds tree).
Proof. apply foldl_app. Qed.

Lemma removeArrays_elements_used (arrays : list Array.t) (elements : JsMap string ArrayId) :
  forall tree tree',
    ArrayUnpacker.removeArrays_elements arrays elements tree = Ok tree' ->
    exists used,
      Forall (fun d => d ∈ arrays /\ 0 < Array.replaceCount d) used
      /\ tree' = removals used tree.
Proof.
  induction elements as [|[name array] elements IH]; simpl; intros tree tree'.
  - intros [= <-]. by exists [].
  - destruct (arrays !! array) as [d|] eqn:Hd; [|done].
    case_bool_decide as Hused.
    + destruct (Array.parentNode d) as [parent|] eqn:Hparent; [|done].
      intros (used & Hall & ->)%IH. exists (d :: used). split.
      * apply Forall_cons. split; [|done]. split; [by eapply list_elem_of_lookup_2|done].
      * simpl. by rewrite Hparent.
    + apply IH.
Qed.

Lemma removeArrays_used (depth : nat) (self : ArrayUnpacker.t) :
  forall scope tree tree',
    ArrayUnpacker.removeArrays depth self scope tree = Some (Ok tree') ->
    exists used,
      Forall (fun d => d ∈ ArrayUnpacker.arrays self /\ 0 < Array.replaceCount d) used
      /\ tree' = removals used tree.
Proof.
  induction depth as [|depth IH]; simpl; intros scope tree tree'; [done|].
  destruct (ArrayUnpacker.the_scope self (Some scope)) as [s|]; [|done].
  destruct (ArrayUnpacker.removeArrays_elements _ _ tree) as [tree1|] eqn:Helements; [|done].
  apply removeArrays_elements_used in Helements as (used1 & Hused1 & ->).
  generalize (Scope.children s). intros children. revert used1 Hused1.
  induction children as [|[k child] children IHc]; intros used1 Hused1.
  - intros [= <-]. by exists used1.
  - destruct (ArrayUnpacker.removeArrays depth self child _) as [[tree2|]|] eqn:Hchild;
      [|done..].
    apply IH in Hchild as (used2 & Hused2 & ->). rewrite <- removals_app.
    apply IHc. by apply Forall_app.
Qed.

(** X15: the cleanup calls [removeNode] only for descriptors whose usage
    counter is positive: the tree it leaves is the tree after the removal
    of the declarators of some such descriptors from their recorded
    parents, and it is the tree as it was when all usage counters are
    zero. *)
Theorem removeArrays_removes_only_used_declarations
    (depth : nat) (self : ArrayUnpacker.t) (scope : ScopeId) (tree tree' : Node) :
  ArrayUnpacker.removeArrays depth self scope tree = Some (Ok tree') ->
  (exists used,
      Forall (fun d => d ∈ ArrayUnpacker.arrays self /\ 0 < Array.replaceCount d) used
      /\ tree' = removals used tree)
  /\ (Forall (fun d => Array.replaceCount d = 0) (ArrayUnpacker.arrays self) -> tree' = tree).
Proof.
  intros (used & Hused & ->)%removeArrays_used. split; [by exists used|].
  intros Hzero. destruct used as [|d used]; [done|].
  apply Forall_cons in Hused as [[Hd Hpositive] _].
  rewrite Forall_forall in Hzero. specialize (Hzero d Hd). lia.
Qed.

(** The theorem at the cleanup after the loop on
    [const a = [1, 2]; a[0]; a[0];]. *)
Lemma removeArrays_removes_only_used_declarations_witness :
  exists used,
    Forall (fun d => d ∈ ArrayUnpacker.arrays (Examples.executed_self Examples.inlined_twice false)
                     /\ 0 < Array.replaceCount d) used
    /\ Inner 0 Script
         [Some (Inner 10 (OtherInner "VariableDeclarationStatement")
                  [Some (Inner 11 VariableDeclaration [])]);
          Some (Inner 30 (OtherInner "ExpressionStatement") [Some (Examples.number 20 1)]);
          Some (Inner 40 (OtherInner "ExpressionStatement") [Some (Examples.number 20 1)])]
       = removals used (ArrayUnpacker.ast (Examples.executed_self Examples.inlined_twice false)).
Proof.
  apply (proj1 (removeArrays_removes_only_used_declarations 1
                  (Examples.executed_self Examples.inlined_twice false) 0
                  (ArrayUnpacker.ast (Examples.executed_self Examples.inlined_twice false))
                  _ eq_refl)).
Defined.

(** ** The traversal engine, once more *)

Section TraverseRoot.
Context {S : Type}.
Variable enter : Node -> option Node -> S -> Result S.
Variable leave : Node -> S -> Result S.

(** As [traverse_invariant], with the parent that [enter] receives: the
    parent given to the walk at the root, a node at every other node. *)
Lemma traverse_invariant_root (Inv : S -> Prop) (root : Node) :
  forall p0 : option Node,
    (forall s s', Inv s -> enter root p0 s = Ok s' -> Inv s') ->
    (forall n p s s', n ∈ nodes root -> Inv s -> enter n (Some p) s = Ok s' -> Inv s') ->
    (forall n s s', n ∈ nodes root -> Inv s -> leave n s = Ok s' -> Inv s') ->
    forall s s', Inv s -> traverse enter leave root p0 s = Ok s' -> Inv s'.
Proof.
  induction root as [id type|id type children IH] using Node_ind;
    intros p0 Hroot Henter Hleave s s' Hs; simpl.
  - destruct (enter _ p0 s) as [s1|] eqn:He; simpl; [|done].
    intros Hl. eapply Hleave; [apply nodes_self| |exact Hl]. by eapply Hroot.
  - destruct (enter _ p0 s) as [s1|] eqn:He; simpl; [|done].
    assert (Hs1 : Inv s1) by (by eapply Hroot).
    destruct (visit_each _ children s1) as [s2|] eqn:Hcs; simpl; [|done].
    intros Hl. eapply Hleave; [apply nodes_self| |exact Hl].
    eapply visit_each_invariant; [|exact Hs1|exact Hcs].
    intros c t t' Hc. rewrite Forall_forall in IH. apply (IH (Some c) Hc).
    + intros u u'. apply Henter. eapply nodes_child; [exact Hc|apply nodes_self].
    + intros n q u u' Hn. apply Henter. by eapply nodes_child.
    + intros n u u' Hn. apply Hleave. by eapply nodes_child.
Qed.
End TraverseRoot.

(** ** What the cleanup relies on *)

Lemma elem_of_map_set {K V} `{EqDecision K} (m : JsMap K V) (k k' : K) (v v' : V) :
  (k', v') ∈ map_set m k v -> (k', v') ∈ m \/ (k', v') = (k, v).
Proof.
  induction m as [|[k0 v0] m IH]; simpl.
  - intros ->%list_elem_of_singleton. by right.
  - destruct (decide (k = k0)) as [->|Hne].
    + intros [->|Hin]%elem_of_cons; [by right|]. left. apply elem_of_cons. by right.
    + intros [->|Hin]%elem_of_cons; [left; apply elem_of_cons; by left|].
      destruct (IH Hin) as [?|?]; [|by right]. left. apply elem_of_cons. by right.
Qed.

Section CleanupReady.
Implicit Types (h : Scope.Store ArrayId) (self : ArrayUnpacker.t).

Lemma children_newer_set_element h this name array :
  children_newer h -> children_newer (Scope.set_element h this name array).
Proof.
  intros Hnewer i s k c. unfold Scope.set_element. rewrite deref_update_at, update_length.
  destruct (Scope.deref h i) as [s0|] eqn:Hs0; simpl; [|done].
  intros [= <-] Hin. apply (Hnewer i s0 k c Hs0). by case_decide.
Qed.

Lemma children_newer_new h n type p this h' :
  children_newer h -> p < length h ->
  Scope.new h n type (Some p) = (this, h') ->
  children_newer h'.
Proof.
  intros Hnewer Hp [= <- <-] i s k c.
  assert (Hlen : length (Scope.set_child h p n (length h)) = length h)
    by apply update_length.
  cbn [Scope.deref length]. rewrite Hlen. case_decide as Hi.
  - intros [= <-]. simpl. by intros ?%elem_of_nil.
  - unfold Scope.set_child. rewrite deref_update_at.
    destruct (Scope.deref h i) as [s0|] eqn:Hs0; simpl; [|done].
    intros [= <-]. case_decide as Hpi; simpl.
    + intros [Hin|[= -> ->]]%elem_of_map_set; [|lia].
      pose proof (Hnewer i s0 k c Hs0 Hin). lia.
    + intros Hin. pose proof (Hnewer i s0 k c Hs0 Hin). lia.
Qed.

(** What the discovery visitor keeps true of the scopes. *)
Lemma findArrays_enter_ready root n p (s s' : ArrayUnpacker.Finding) :
  ArrayUnpacker.finding_scopes root s
  /\ children_newer (ArrayUnpacker.scopes (ArrayUnpacker.f_self s))
  /\ bindings_exist (ArrayUnpacker.f_self s) ->
  ArrayUnpacker.findArrays_enter n p s = Ok s' ->
  ArrayUnpacker.finding_scopes root s'
  /\ children_newer (ArrayUnpacker.scopes (ArrayUnpacker.f_self s'))
  /\ bindings_exist (ArrayUnpacker.f_self s').
Proof.
  intros (Hscopes & Hnewer & Hbound) Henter.
  split; [by eapply findArrays_enter_scopes|].
  destruct Hscopes as (_ & _ & Hscope). revert Henter.
  unfold ArrayUnpacker.findArrays_enter.
  destruct (ArrayUnpacker.isScopeType n).
  { destruct (Scope.new _ _ _ _) as [c h'] eqn:Hnew. intros [= <-]. simpl.
    split; [by eapply children_newer_new|].
    injection Hnew as <- <-. intros i s0 name array. simpl.
    unfold Scope.set_child. rewrite update_length. case_decide.
    - intros [= <-]. simpl. by intros ?%elem_of_nil.
    - rewrite deref_update_at.
      destruct (Scope.deref _ i) as [s1|] eqn:Hs1; simpl; [|done].
      intros [= <-] Hin. apply (Hbound i s1 name array Hs1). by case_decide. }
  destruct (_ && _); [|by intros [= <-]].
  destruct (ArrayUnpacker.binding_name n) as [name|]; simpl; [|done].
  destruct (ArrayUnpacker.init_elements n) as [elements|]; simpl; [|done].
  intros [= <-]. simpl. split; [by apply children_newer_set_element|].
  intros i s0 name' array. simpl. rewrite length_app. simpl.
  unfold Scope.set_element. rewrite deref_update_at.
  destruct (Scope.deref _ i) as [s1|] eqn:Hs1; simpl; [|done].
  intros [= <-]. case_decide; simpl.
  - intros [Hin|[= -> ->]]%elem_of_map_set; [|lia].
    pose proof (Hbound i s1 name' array Hs1 Hin). lia.
  - intros Hin. pose proof (Hbound i s1 name' array Hs1 Hin). lia.
Qed.

Lemma findArrays_ready self found self' :
  ArrayUnpacker.scope_tree (ArrayUnpacker.scopes self) (ArrayUnpacker.globalScope self) ->
  children_newer (ArrayUnpacker.scopes self) ->
  bindings_exist self ->
  ArrayUnpacker.findArrays self = Ok (found, self') ->
  children_newer (ArrayUnpacker.scopes self') /\ bindings_exist self'.
Proof.
  intros Htree Hnewer Hbound. unfold ArrayUnpacker.findArrays.
  destruct (traverse _ _ _ _ _) as [s|] eqn:Hwalk; simpl; [|done]. intros [= _ <-].
  eapply (traverse_invariant _ _
            (fun s => ArrayUnpacker.finding_scopes (ArrayUnpacker.globalScope self) s
                      /\ children_newer (ArrayUnpacker.scopes (ArrayUnpacker.f_self s))
                      /\ bindings_exist (ArrayUnpacker.f_self s)))
    in Hwalk as (_ & ? & ?); [done| | |].
  - intros n p t t' _. apply findArrays_enter_ready.
  - intros n t t' _ (Hscopes & Ht) Hleave.
    split; [by eapply findArrays_leave_scopes|].
    apply findArrays_leave_self in Hleave as [-> _]. done.
  - split; [|done]. split; [done|]. split; [done|]. simpl. by eapply scope_tree_lt.
Qed.

Lemma isLiteralArrayDeclaration_not_declarator (n : Node) :
  isDeclarator n = false -> ArrayUnpacker.isLiteralArrayDeclaration n = false.
Proof.
  intros Hn. destruct (ArrayUnpacker.isLiteralArrayDeclaration n) eqn:Hlit; [|done].
  apply isLiteralArrayDeclaration_declarator in Hlit. congruence.
Qed.

Lemma findArrays_parents self found self' :
  isDeclarator (ArrayUnpacker.ast self) = false ->
  parents_recorded (ArrayUnpacker.arrays self) ->
  ArrayUnpacker.findArrays self = Ok (found, self') ->
  parents_recorded (ArrayUnpacker.arrays self').
Proof.
  intros Hroot Hparents. unfold ArrayUnpacker.findArrays.
  destruct (traverse _ _ _ _ _) as [s|] eqn:Hwalk; simpl; [|done]. intros [= _ <-].
  eapply (traverse_invariant_root _ _
            (fun s => parents_recorded (ArrayUnpacker.arrays (ArrayUnpacker.f_self s))));
    [| | | |exact Hwalk]; [| | |done].
  - intros t t' Ht. unfold ArrayUnpacker.findArrays_enter.
    rewrite (isLiteralArrayDeclaration_not_declarator _ Hroot).
    destruct (ArrayUnpacker.isScopeType _); [|by intros [= <-]].
    destruct (Scope.new _ _ _ _). by intros [= <-].
  - intros n p t t' _ Ht. unfold ArrayUnpacker.findArrays_enter.
    destruct (ArrayUnpacker.isScopeType n).
    { destruct (Scope.new _ _ _ _). by intros [= <-]. }
    destruct (_ && _); [|by intros [= <-]].
    destruct (ArrayUnpacker.binding_name n) as [name|]; simpl; [|done].
    destruct (ArrayUnpacker.init_elements n) as [elements|]; simpl; [|done].
    intros [= <-]. simpl. apply Forall_app. split; [done|].
    apply Forall_singleton. by eexists.
  - intros n t t' _ Ht Hleave. apply findArrays_leave_self in Hleave as [-> _]. done.
Qed.

Lemma unpackArrays_root_kind self self' :
  ArrayUnpacker.unpackArrays self = Ok self' ->
  isDeclarator (ArrayUnpacker.ast self') = isDeclarator (ArrayUnpacker.ast self).
Proof.
  unfold ArrayUnpacker.unpackArrays.
  destruct (traverse _ _ _ _ _) as [s|] eqn:Hwalk; simpl; [|done]. intros [= <-].
  eapply (traverse_invariant _ _
            (fun s => isDeclarator (ArrayUnpacker.ast (ArrayUnpacker.u_self s))
                      = isDeclarator (ArrayUnpacker.ast self)));
    [| | |exact Hwalk]; [| |done].
  - intros n p t t' _ Ht. unfold ArrayUnpacker.unpackArrays_enter.
    destruct (ArrayUnpacker.isScopeType n).
    { destruct (ArrayUnpacker.the_scope _ _); simpl; [|done]. by intros [= <-]. }
    destruct (ArrayUnpacker.isSimpleArrayAccess n); [|by intros [= <-]].
    destruct (ArrayUnpacker.object_name n) as [name|]; simpl; [|done].
    destruct (ArrayUnpacker.defined _) as [scope|]; simpl; [|done].
    destruct (Scope.get _ scope name) as [array|]; [|by intros [= <-]].
    destruct (ArrayUnpacker.expression_value n) as [index|]; simpl; [|done].
    destruct (_ !! array) as [descriptor|]; [|done].
    destruct (ArrayUnpacker.element_at _ index) as [[replacement|]|]; [|by intros [= <-]..].
    destruct p as [p|]; [|done]. intros [= <-]. simpl. rewrite <- Ht.
    by destruct (ArrayUnpacker.ast (ArrayUnpacker.u_self t)).
  - intros n t t' _ Ht Hleave. apply unpackArrays_leave_self in Hleave. by rewrite Hleave.
Qed.

Lemma unpackArrays_ready self self' :
  cleanup_ready self ->
  ArrayUnpacker.unpackArrays self = Ok self' ->
  cleanup_ready self'.
Proof.
  intros (Hnewer & Hbound & Hparents) Hunpack.
  destruct (unpackArrays_counting _ _ Hunpack) as [Hall _].
  destruct (counted_up_nodes _ _ Hall) as (_ & _ & Hsame).
  pose proof (Forall2_length _ _ _ Hall) as Hlen.
  apply unpackArrays_scopes in Hunpack as (_ & Hscopes & _).
  split; [by rewrite Hscopes|]. split.
  - intros i s name array. rewrite Hscopes, <- Hlen. apply Hbound.
  - unfold parents_recorded in *. rewrite Forall_forall in Hparents.
    apply Forall_forall. intros d' [i Hi]%list_elem_of_lookup.
    destruct (Forall2_lookup_r _ _ _ _ _ Hall Hi) as (d & Hd & (_ & -> & _)).
    apply Hparents. by eapply list_elem_of_lookup_2.
Qed.

Lemma running_ready tree removeArrays self :
  isDeclarator tree = false ->
  ArrayUnpacker.running tree removeArrays self ->
  cleanup_ready self /\ isDeclarator (ArrayUnpacker.ast self) = false.
Proof.
  intros Hroot.
  induction 1 as [|self found self' Hrun [(Hnewer & Hbound & Hparents) Hkind] Hfind
                  |self self' _ [Hready Hkind] Hunpack].
  - split; [|done]. split; [|split].
    + intros i s k c. simpl. case_decide; [|done]. intros [= <-]. by intros ?%elem_of_nil.
    + intros i s name array. simpl. case_decide; [|done]. intros [= <-].
      by intros ?%elem_of_nil.
    + apply Forall_nil_2.
  - destruct (findArrays_ready _ _ _ (running_scope_tree _ _ _ Hrun) Hnewer Hbound Hfind)
      as [Hnewer' Hbound'].
    pose proof (findArrays_parents _ _ _ Hkind Hparents Hfind) as Hparents'.
    apply findArrays_frame in Hfind as (-> & _). done.
  - split; [by eapply unpackArrays_ready|].
    by rewrite (unpackArrays_root_kind _ _ Hunpack).
Qed.

Lemma removeArrays_elements_returns (arrays : list Array.t) (elements : JsMap string ArrayId) :
  parents_recorded arrays ->
  (forall name array, (name, array) ∈ elements -> array < length arrays) ->
  forall tree, exists tree', ArrayUnpacker.removeArrays_elements arrays elements tree = Ok tree'.
Proof.
  intros Hparents. induction elements as [|[name array] elements IH];
    cbn [ArrayUnpacker.removeArrays_elements]; intros Hbound tree.
  - by eexists.
  - assert (Hrest : forall name' array', (name', array') ∈ elements -> array' < length arrays).
    { intros name' array' Hin. apply (Hbound name'), elem_of_cons. by right. }
    assert (Hlt : array < length arrays) by (apply (Hbound name), elem_of_cons; by left).
    destruct (_ !! array) as [d|] eqn:Hd; [|apply lookup_ge_None in Hd; lia].
    case_bool_decide; [|by apply IH].
    unfold parents_recorded in Hparents. rewrite Forall_forall in Hparents.
    destruct (Hparents d) as [parent ->]; [by eapply list_elem_of_lookup_2|]. by apply IH.
Qed.

Lemma removeArrays_returns (depth : nat) self :
  cleanup_ready self ->
  forall scope tree,
    scope < length (ArrayUnpacker.scopes self) ->
    length (ArrayUnpacker.scopes self) - scope ≤ depth ->
    exists tree', ArrayUnpacker.removeArrays depth self scope tree = Some (Ok tree').
Proof.
  intros (Hnewer & Hbound & Hparents).
  induction depth as [|depth IH]; intros scope tree Hscope Hdepth; [lia|]. simpl.
  destruct (deref_is_Some _ _ Hscope) as [s Hs].
  unfold ArrayUnpacker.the_scope. simpl. rewrite Hs.
  destruct (removeArrays_elements_returns (ArrayUnpacker.arrays self) (Scope.elements s)
              Hparents) with (tree := tree) as [tree1 ->].
  { intros name array. by apply Hbound with scope. }
  assert (Hall : forall k c, (k, c) ∈ Scope.children s ->
                   scope < c < length (ArrayUnpacker.scopes self))
    by (intros k c; by apply Hnewer).
  revert tree1 Hall. generalize (Scope.children s).
  intros children. induction children as [|[k c] children IHc]; intros tree1 Hall.
  - by eexists.
  - assert (Hc : scope < c < length (ArrayUnpacker.scopes self))
      by (apply (Hall k), elem_of_cons; by left).
    destruct (IH c tree1) as [tree2 ->]; [lia..|].
    apply IHc. intros k' c' Hin. apply (Hall k'). apply elem_of_cons. by right.
Qed.
End CleanupReady.

(** X16: on a program whose nodes have identities of their own (the root
    being neither a member access nor a declarator), [execute] returns,
    with cleanup enabled or not: the loop ends, no round throws, and the
    cleanup finds every scope and every descriptor it looks for. *)
Theorem execute_returns (tree : Node) (removeArrays : bool) :
  NoDup (node_id <$> nodes tree) ->
  ArrayUnpacker.isProgram tree = true ->
  isDeclarator tree = false ->
  exists self,
    ArrayUnpacker.execute (S (length (nodes tree))) (ArrayUnpacker.new tree removeArrays)
    = Some (Ok self).
Proof.
  intros Hnd Hprogram Hroot.
  destruct (running_seen tree removeArrays _ (ArrayUnpacker.running_new _ _))
    as (Hd & Hs & He).
  destruct (fixpoint_loop_returns (declarators tree) (S (length (nodes tree)))
              (ArrayUnpacker.new tree removeArrays)) as [self1 Hloop]; [|done..| |].
  { by apply new_well_formed. }
  { pose proof (declarators_size tree) as Hsize.
    assert (Hle : size (declarators tree
                        ∖ ArrayUnpacker.arrayNodes (ArrayUnpacker.new tree removeArrays))
                  ≤ size (declarators tree)).
    { apply subseteq_size. intros y Hy. by apply elem_of_difference in Hy as [? _]. }
    lia. }
  unfold ArrayUnpacker.execute. rewrite Hloop.
  destruct (ArrayUnpacker.shouldRemoveArrays self1); [|by eexists].
  destruct (fixpoint_loop_result _ _ _ _ _ (ArrayUnpacker.running_new _ _) Hloop)
    as (last & Hlast & Hfind).
  assert (Hrun : ArrayUnpacker.running tree removeArrays self1)
    by (by eapply ArrayUnpacker.running_findArrays).
  destruct (running_ready _ _ _ Hroot Hrun) as [Hready _].
  pose proof (scope_tree_lt _ _ (running_scope_tree _ _ _ Hrun)) as Hlt.
  destruct (removeArrays_returns (length (ArrayUnpacker.scopes self1)) self1 Hready
              (ArrayUnpacker.globalScope self1) (ArrayUnpacker.ast self1)) as [tree' ->];
    [done|lia|].
  by eexists.
Qed.

(** The theorem at [function f() { const a = [1, 2]; a[0]; }] with cleanup
    enabled. *)
Lemma execute_returns_witness :
  exists self,
    ArrayUnpacker.execute (S (length (nodes Examples.in_function)))
      (ArrayUnpacker.new Examples.in_function true)
    = Some (Ok self).
Proof.
  apply (execute_returns Examples.in_function true).
  - apply (bool_decide_unpack _). vm_compute. exact I.
  - reflexivity.
  - reflexivity.
Defined.

(** X17: on a tree without a literal array declaration the pass changes
    nothing: [execute] returns after one discovery round, with the tree
    as it was and without a descriptor, with cleanup enabled or not. *)
Theorem execute_without_literal_arrays
    (tree : Node) (removeArrays : bool) (rounds : nat) :
  (forall n, n ∈ nodes tree -> ArrayUnpacker.isLiteralArrayDeclaration n = false) ->
  exists self,
    ArrayUnpacker.execute (S rounds) (ArrayUnpacker.new tree removeArrays) = Some (Ok self)
    /\ ArrayUnpacker.ast self = tree
    /\ ArrayUnpacker.arrays self = []
    /\ ArrayUnpacker.arrayNodes self = ∅.
Proof.
  intros Hnone.
  pose proof (running_scope_tree tree removeArrays _ (ArrayUnpacker.running_new _ _)) as Htree.
  destruct (findArrays_total _ Htree) as (found & self1 & Hfind).
  assert (found = false) as ->.
  { eapply findArrays_all_seen_false; [|exact Hfind].
    intros n Hn Hlit. rewrite (Hnone n Hn) in Hlit. done. }
  destruct (findArrays_frame _ _ _ Hfind) as (Hast & Hflag & Hsame).
  destruct (Hsame eq_refl) as [Hseen Harrays]. simpl in Hast, Hflag, Hseen, Harrays.
  unfold ArrayUnpacker.execute. cbn [ArrayUnpacker.fixpoint_loop]. rewrite Hfind.
  destruct (ArrayUnpacker.shouldRemoveArrays self1); [|by exists self1].
  assert (Hready : cleanup_ready self1).
  { assert (Hnewer : children_newer (ArrayUnpacker.scopes (ArrayUnpacker.new tree removeArrays))).
    { intros i s k c. simpl. case_decide; [|done]. intros [= <-]. by intros ?%elem_of_nil. }
    assert (Hbound : bindings_exist (ArrayUnpacker.new tree removeArrays)).
    { intros i s name array. simpl. case_decide; [|done]. intros [= <-].
      by intros ?%elem_of_nil. }
    destruct (findArrays_ready _ _ _ Htree Hnewer Hbound Hfind) as [Hnewer1 Hbound1].
    split; [done|]. split; [done|]. unfold parents_recorded. rewrite Harrays.
    apply Forall_nil_2. }
  assert (Hrun : ArrayUnpacker.running tree removeArrays self1).
  { eapply ArrayUnpacker.running_findArrays; [apply ArrayUnpacker.running_new|exact Hfind]. }
  pose proof (scope_tree_lt _ _ (running_scope_tree _ _ _ Hrun)) as Hlt.
  destruct (removeArrays_returns (length (ArrayUnpacker.scopes self1)) self1 Hready
              (ArrayUnpacker.globalScope self1) (ArrayUnpacker.ast self1)) as [tree' Hremove];
    [done|lia|].
  rewrite Hremove. eexists. split; [done|]. simpl. split; [|done].
  apply removeArrays_used in Hremove as (used & Hused & ->).
  destruct used as [|d used]; [done|].
  apply Forall_cons in Hused as [[Hd _] _]. rewrite Harrays in Hd.
  by apply elem_of_nil in Hd.
Qed.

(** The theorem at the statement [a[0];] alone, with cleanup enabled. *)
Lemma execute_without_literal_arrays_witness :
  exists self,
    ArrayUnpacker.execute 1
      (ArrayUnpacker.new (Inner 0 Script [Some (Examples.access_statement 30 "a" 0)]) true)
    = Some (Ok self)
    /\ ArrayUnpacker.ast self = Inner 0 Script [Some (Examples.access_statement 30 "a" 0)]
    /\ ArrayUnpacker.arrays self = []
    /\ ArrayUnpacker.arrayNodes self = ∅.
Proof.
  apply (execute_without_literal_arrays
           (Inner 0 Script [Some (Examples.access_statement 30 "a" 0)]) true 0).
  intros n Hn. vm_compute in Hn.
  repeat (apply elem_of_cons in Hn as [->|Hn]; [reflexivity|]).
  by apply elem_of_nil in Hn.
Defined.

(** ** [scope.ts]: what [add] leaves as it is *)

(** X18: [add] never restructures the scopes: whatever the kind, when it
    returns, the store has the same scopes with the same opening nodes,
    kinds, parents and children, and the same bindings of every other
    name; so every parent chain is as it was. *)
Theorem add_changes_only_bindings_of_the_name
    {T} (h : Scope.Store T) (this : ScopeId) (name : string) (element : T)
    (type : option VariableType.t) (h' : Scope.Store T) :
  Scope.add h this name element type = Ok h' ->
  length h' = length h
  /\ (forall i s, Scope.deref h i = Some s ->
        exists s', Scope.deref h' i = Some s' /\ differs_at_most_at name s s')
  /\ (forall i, Scope.chain h' i = Scope.chain h i).
Proof.
  intros Hadd.
  assert (Hcases : h' = h \/ exists target, h' = Scope.set_element h target name element).
  { revert Hadd. unfold Scope.add. destruct type as [[]|]; simpl.
    - destruct (Scope.findScope h this _) as [target|]; [|done].
      intros [= <-]. right. by exists target.
    - intros [= <-]. right. by exists this.
    - intros [= <-]. right. by exists this.
    - intros [= <-]. by left.
    - intros [= <-]. right. by exists this. }
  destruct Hcases as [->|[target ->]].
  - split; [done|]. split; [|done]. intros i s Hs. exists s. by repeat split.
  - split; [apply update_length|]. split.
    + intros i s Hs. unfold Scope.set_element. rewrite deref_update_at, Hs. simpl.
      eexists. split; [done|]. case_decide; [|by repeat split].
      repeat split; simpl. intros name' Hne. by apply map_get_set_ne.
    + intros i. unfold Scope.set_element. by apply chain_update.
Qed.

(** The theorem at a ['var'] binding added from the block scope of
    [Examples.function_and_block]. *)
Lemma add_changes_only_bindings_of_the_name_witness :
  length (Scope.set_element Examples.function_and_block 0 "x" 7)
  = length Examples.function_and_block.
Proof.
  apply (add_changes_only_bindings_of_the_name Examples.function_and_block 1 "x" 7
           (Some VariableType.var)).
  reflexivity.
Defined.

(** ** [arrayUnpacker.ts]: the nodes of the tree during a run *)

Lemma isLiteral_Leaf (n : Node) :
  ArrayUnpacker.isLiteral n = true -> exists id type, n = Leaf id type.
Proof. destruct n as [id type|]; [by eexists _, _|done]. Qed.

Lemma replaceNode_leaves (parent node : NodeId) (replacement t : Node)
    (id : NodeId) (type : LeafType) :
  Leaf id type ∈ nodes (replaceNode parent node replacement t) ->
  Leaf id type ∈ nodes replacement \/ Leaf id type ∈ nodes t.
Proof.
  induction t as [id0 type0|id0 type0 children IH] using Node_ind.
  - simpl. by right.
  - cbn [replaceNode]. intros [?|(c' & Hc' & Hm)]%nodes_Inner; [done|].
    apply list_elem_of_fmap in Hc' as ([c|] & Hslot & Hc); [|done].
    destruct (_ && _).
    + injection Hslot as ->. by left.
    + injection Hslot as ->. rewrite Forall_forall in IH.
      destruct (IH (Some c) Hc Hm) as [?|?]; [by left|].
      right. by eapply nodes_child.
Qed.

Lemma findArrays_among (originals : list Node) (self : ArrayUnpacker.t) (found : bool)
    (self' : ArrayUnpacker.t) :
  literals_among originals (ArrayUnpacker.ast self) ->
  elements_among originals (ArrayUnpacker.arrays self) ->
  ArrayUnpacker.findArrays self = Ok (found, self') ->
  elements_among originals (ArrayUnpacker.arrays self').
Proof.
  intros Htree Hel. unfold ArrayUnpacker.findArrays.
  destruct (traverse _ _ _ _ _) as [s|] eqn:Hwalk; simpl; [|done]. intros [= _ <-].
  eapply (traverse_invariant _ _
            (fun s => elements_among originals (ArrayUnpacker.arrays (ArrayUnpacker.f_self s))));
    [| | |exact Hwalk]; [| |done].
  - intros n p t t' Hn Ht. unfold ArrayUnpacker.findArrays_enter.
    destruct (ArrayUnpacker.isScopeType n).
    { destruct (Scope.new _ _ _ _). by intros [= <-]. }
    destruct (ArrayUnpacker.isLiteralArrayDeclaration n) eqn:Hlit; simpl;
      [|by intros [= <-]].
    destruct (negb _); simpl; [|by intros [= <-]].
    destruct (ArrayUnpacker.binding_name n) as [name|]; simpl; [|done].
    destruct (ArrayUnpacker.init_elements n) as [elements|] eqn:Hinit; simpl; [|done].
    intros [= <-]. simpl.
    intros d e [Hd|Hd%list_elem_of_singleton]%elem_of_app He; [by eapply Ht|].
    subst d. simpl in He.
    pose proof (literal_array_elements _ _ _ Hlit Hinit He) as Hliteral.
    split; [done|]. apply Htree; [|done].
    eapply nodes_trans; [exact Hn|]. by eapply init_elements_nodes.
  - intros n t t' _ Ht Hleave. apply findArrays_leave_self in Hleave as [-> _]. done.
Qed.

Lemma unpackArrays_among (originals : list Node) (self self' : ArrayUnpacker.t) :
  literals_among originals (ArrayUnpacker.ast self) ->
  elements_among originals (ArrayUnpacker.arrays self) ->
  ArrayUnpacker.unpackArrays self = Ok self' ->
  literals_among originals (ArrayUnpacker.ast self')
  /\ elements_among originals (ArrayUnpacker.arrays self').
Proof.
  intros Htree Hel. unfold ArrayUnpacker.unpackArrays.
  destruct (traverse _ _ _ _ _) as [s|] eqn:Hwalk; simpl; [|done]. intros [= <-].
  eapply (traverse_invariant _ _
            (fun s => literals_among originals (ArrayUnpacker.ast (ArrayUnpacker.u_self s))
                      /\ elements_among originals (ArrayUnpacker.arrays (ArrayUnpacker.u_self s))));
    [| | |exact Hwalk]; [| |done].
  - intros n p t t' _ [Ht Hd]. unfold ArrayUnpacker.unpackArrays_enter.
    destruct (ArrayUnpacker.isScopeType n).
    { destruct (ArrayUnpacker.the_scope _ _); simpl; [|done]. by intros [= <-]. }
    destruct (ArrayUnpacker.isSimpleArrayAccess n); [|by intros [= <-]].
    destruct (ArrayUnpacker.object_name n) as [name|]; simpl; [|done].
    destruct (ArrayUnpacker.defined _) as [scope|]; simpl; [|done].
    destruct (Scope.get _ scope name) as [array|]; [|by intros [= <-]].
    destruct (ArrayUnpacker.expression_value n) as [index|]; simpl; [|done].
    destruct (_ !! array) as [descriptor|] eqn:Harray; [|done].
    destruct (ArrayUnpacker.element_at _ index) as [[replacement|]|] eqn:Helement;
      [|by intros [= <-]..].
    destruct p as [p|]; [|done]. intros [= <-]. simpl.
    assert (Hr : Some replacement ∈ Array.elements descriptor).
    { unfold ArrayUnpacker.element_at in Helement.
      destruct (_ && _); [|done]. by eapply list_elem_of_lookup_2. }
    assert (Hdescriptor : descriptor ∈ ArrayUnpacker.arrays (ArrayUnpacker.u_self t))
      by (by eapply list_elem_of_lookup_2).
    destruct (Hd _ _ Hdescriptor Hr) as [Hliteral Horiginal].
    split.
    + intros m Hm Hm_literal.
      destruct (isLiteral_Leaf _ Hm_literal) as (id & type & ->).
      apply replaceNode_leaves in Hm as [Hm|Hm]; [|by apply Ht].
      destruct (isLiteral_leaf _ Hliteral) as (_ & _ & Hnodes). rewrite Hnodes in Hm.
      by apply list_elem_of_singleton in Hm as ->.
    + intros d e Hin He. apply list_elem_of_lookup in Hin as [j Hj].
      destruct (decide (array = j)) as [->|Hne].
      * rewrite list_lookup_insert_eq in Hj by (by eapply lookup_lt_Some).
        injection Hj as <-. by eapply Hd.
      * rewrite list_lookup_insert_ne in Hj by done.
        eapply Hd; [|exact He]. by eapply list_elem_of_lookup_2.
  - intros n t t' _ Ht Hleave. apply unpackArrays_leave_self in Hleave. by rewrite Hleave.
Qed.

(** X19: the pass makes no node.  In every pass object of a run, each
    literal of the tree and each element of a descriptor is a node of the
    input tree (with its identity): what the rewrite puts in the place of
    an access is always a node that the input tree already had. *)
Theorem literals_of_a_run_are_nodes_of_the_input
    (tree : Node) (removeArrays : bool) (self : ArrayUnpacker.t) :
  ArrayUnpacker.running tree removeArrays self ->
  (forall n, n ∈ nodes (ArrayUnpacker.ast self) ->
             ArrayUnpacker.isLiteral n = true -> n ∈ nodes tree)
  /\ (forall d e, d ∈ ArrayUnpacker.arrays self -> Some e ∈ Array.elements d ->
                  ArrayUnpacker.isLiteral e = true /\ e ∈ nodes tree).
Proof.
  induction 1 as [|self found self' _ [Htree Hel] Hfind|self self' _ [Htree Hel] Hunpack].
  - split; [done|]. intros d e Hd. by apply elem_of_nil in Hd.
  - pose proof (findArrays_among _ _ _ _ Htree Hel Hfind) as Hel'.
    apply findArrays_frame in Hfind as (-> & _). done.
  - by apply (unpackArrays_among (nodes tree) _ _ Htree Hel).
Qed.

(** The theorem at the pass object after the loop on
    [const a = [1, 2]; a[0]; a[0];], for the literal [1] that stands in
    the place of the two accesses. *)
Lemma literals_of_a_run_are_nodes_of_the_input_witness :
  Examples.number 20 1 ∈ nodes Examples.inlined_twice.
Proof.
  refine (proj1 (literals_of_a_run_are_nodes_of_the_input Examples.inlined_twice false
                   (Examples.executed_self Examples.inlined_twice false) _)
            (Examples.number 20 1) _ eq_refl).
  - apply (ArrayUnpacker.running_findArrays _ _
             (Examples.executed_self Examples.inlined_twice false) false).
    + apply (ArrayUnpacker.running_unpackArrays _ _
               (Examples.discovered Examples.inlined_twice false)).
      * apply (ArrayUnpacker.running_findArrays _ _
                 (ArrayUnpacker.new Examples.inlined_twice false) true).
        -- constructor.
        -- vm_compute. reflexivity.
      * vm_compute. reflexivity.
    + vm_compute. reflexivity.
  - vm_compute. repeat constructor.
Defined.

(** ** [arrayUnpacker.ts]: the scopes that a discovery round registers *)

Lemma registers_refl (L : nat) (m : JsMap NodeId ScopeId) : registers L [] m m.
Proof.
  split.
  - intros k Hk. by left.
  - intros k c Hc. left. split; [done|]. by intros ?%elem_of_nil.
Qed.

Lemma registers_trans (L L' : nat) (ks ks' : list NodeId) (m m1 m2 : JsMap NodeId ScopeId) :
  L ≤ L' -> registers L ks m m1 -> registers L' ks' m1 m2 -> registers L (ks ++ ks') m m2.
Proof.
  intros HL [Hkeys1 Hvals1] [Hkeys2 Hvals2]. split.
  - intros k Hk. destruct (Hkeys2 k Hk) as [Hk1|Hk2].
    + destruct (Hkeys1 k Hk1) as [?|?]; [by left|right]. apply elem_of_app. by left.
    + right. apply elem_of_app. by right.
  - intros k c Hc. destruct (Hvals2 k c Hc) as [[Hc1 Hk2]|?]; [|right; lia].
    destruct (Hvals1 k c Hc1) as [[Hc0 Hk1]|?]; [|by right].
    left. split; [done|]. rewrite elem_of_app. tauto.
Qed.

Lemma registers_set (L : nat) (m : JsMap NodeId ScopeId) (k : NodeId) (c : ScopeId) :
  L ≤ c -> registers L [k] m (map_set m k c).
Proof.
  intros HL. split.
  - intros k' Hk'. destruct (decide (k = k')) as [->|Hne].
    + right. by apply list_elem_of_singleton.
    + left. by rewrite map_get_set_ne in Hk'.
  - intros k' c' Hc'. destruct (decide (k = k')) as [->|Hne].
    + rewrite map_get_set_eq in Hc'. injection Hc' as <-. by right.
    + rewrite map_get_set_ne in Hc' by done. left. split; [done|].
      intros ?%list_elem_of_singleton. congruence.
Qed.

Lemma registers_same (L : nat) (ks : list NodeId) (m m1 m' : JsMap NodeId ScopeId) :
  m1 = m -> registers L ks m1 m' -> registers L ks m m'.
Proof. by intros ->. Qed.

Section DiscoveryRegisters.
Implicit Types (h : Scope.Store ArrayId) (st : ArrayUnpacker.Finding).

(** The discovery visitor at a node that opens no scope leaves the
    [children] of every scope as they are. *)
Lemma findArrays_enter_plain_children n p st st' :
  ArrayUnpacker.isScopeType n = false ->
  ArrayUnpacker.findArrays_enter n p st = Ok st' ->
  length (ArrayUnpacker.scopes (ArrayUnpacker.f_self st'))
  = length (ArrayUnpacker.scopes (ArrayUnpacker.f_self st))
  /\ forall i s,
       Scope.deref (ArrayUnpacker.scopes (ArrayUnpacker.f_self st)) i = Some s ->
       exists s',
         Scope.deref (ArrayUnpacker.scopes (ArrayUnpacker.f_self st')) i = Some s'
         /\ Scope.node s' = Scope.node s
         /\ Scope.parent s' = Scope.parent s
         /\ Scope.children s' = Scope.children s.
Proof.
  intros Hscope. unfold ArrayUnpacker.findArrays_enter. rewrite Hscope.
  destruct (_ && _); [|intros [= <-]; split; [done|]; intros i s Hs; by exists s].
  destruct (ArrayUnpacker.binding_name n) as [name|]; simpl; [|done].
  destruct (ArrayUnpacker.init_elements n) as [elements|]; simpl; [|done].
  intros [= <-]. simpl. unfold Scope.set_element. split; [apply update_length|].
  intros i s Hs. rewrite deref_update_at, Hs. simpl. eexists. split; [done|].
  by case_decide.
Qed.

Lemma findArrays_enter_descends c N h0 n p st st' :
  descends c N h0 st ->
  ArrayUnpacker.findArrays_enter n p st = Ok st' ->
  descends c N h0 st'.
Proof.
  intros (Hscope & Hparents & (sc & Hsc & Hstays) & Holder).
  destruct (ArrayUnpacker.isScopeType n) eqn:Hkind.
  - unfold ArrayUnpacker.findArrays_enter. rewrite Hkind.
    destruct (Scope.new _ _ _ _) as [y h'] eqn:Hnew. intros [= <-].
    injection Hnew as <- <-. unfold descends. cbn [ArrayUnpacker.f_self ArrayUnpacker.f_scope
      ArrayUnpacker.scopes].
    set (h := ArrayUnpacker.scopes (ArrayUnpacker.f_self st)) in *.
    set (x := ArrayUnpacker.f_scope st) in *.
    assert (Hlen : length (Scope.set_child h x (node_id n) (length h)) = length h)
      by apply update_length.
    assert (Hkeep : forall i s, i < length h -> Scope.deref h i = Some s ->
              exists s', Scope.deref (Scope.mk (node_id n) ScopeType.Other (Some x) [] []
                                        :: Scope.set_child h x (node_id n) (length h)) i
                         = Some s'
                         /\ Scope.node s' = Scope.node s /\ Scope.parent s' = Scope.parent s
                         /\ (i ≠ x -> Scope.children s' = Scope.children s)).
    { intros i s Hi Hs. rewrite deref_older by lia. unfold Scope.set_child.
      rewrite deref_update_at, Hs. simpl. eexists. split; [done|]. by case_decide. }
    split; [cbn [length]; rewrite Hlen; lia|]. split; [|split].
    + intros z sz Hz. cbn [Scope.deref]. rewrite Hlen. case_decide as Hzy.
      * intros [= <-]. simpl. exists x. split; [done|lia].
      * intros Hsz. assert (Hlt : z < length h).
        { apply deref_lt in Hsz. rewrite Hlen in Hsz. done. }
        destruct (deref_is_Some _ _ Hlt) as [sz0 Hsz0].
        destruct (Hkeep z sz0 Hlt Hsz0) as (sz' & Hsz' & _ & Hparent & _).
        rewrite deref_older in Hsz' by lia. rewrite Hsz' in Hsz. injection Hsz as <-.
        rewrite Hparent. by eapply Hparents.
    + destruct (Hkeep c sc) as (sc' & Hsc' & Hnode & Hparent & _); [lia|done|].
      exists sc'. split; [done|]. by rewrite Hnode, Hparent.
    + intros i s Hi Hs. destruct (Holder i s Hi Hs) as (s1 & Hs1 & Hchildren).
      destruct (Hkeep i s1) as (s' & Hs' & _ & _ & Hsame); [lia|done|].
      exists s'. split; [done|]. rewrite Hsame by lia. done.
  - intros Henter.
    destruct (findArrays_enter_plain_children _ _ _ _ Hkind Henter) as [Hlen Hkeep].
    destruct (findArrays_enter_plain _ _ _ _ Hkind Henter) as [Hsame _].
    unfold descends. rewrite Hsame, Hlen. split; [done|]. split; [|split].
    + intros z sz Hz Hsz. assert (Hlt : z < length (ArrayUnpacker.scopes (ArrayUnpacker.f_self st))).
      { apply deref_lt in Hsz. by rewrite Hlen in Hsz. }
      destruct (deref_is_Some _ _ Hlt) as [sz0 Hsz0].
      destruct (Hkeep z sz0 Hsz0) as (sz' & Hsz' & _ & Hparent & _).
      rewrite Hsz' in Hsz. injection Hsz as <-. rewrite Hparent. by eapply Hparents.
    + destruct (Hkeep c sc Hsc) as (sc' & Hsc' & Hnode & Hparent & _).
      exists sc'. split; [done|]. by rewrite Hnode, Hparent.
    + intros i s Hi Hs. destruct (Holder i s Hi Hs) as (s1 & Hs1 & Hchildren).
      destruct (Hkeep i s1 Hs1) as (s' & Hs' & _ & _ & Hsame').
      exists s'. split; [done|]. congruence.
Qed.

Lemma findArrays_leave_descends c N h0 n st st' :
  n ∈ N ->
  descends c N h0 st ->
  ArrayUnpacker.findArrays_leave n st = Ok st' ->
  descends c N h0 st'.
Proof.
  intros Hn Hd. pose proof Hd as (Hscope & Hparents & (sc & Hsc & Hstays) & Holder).
  unfold ArrayUnpacker.findArrays_leave, ArrayUnpacker.the_scope. simpl.
  destruct (Scope.deref (ArrayUnpacker.scopes (ArrayUnpacker.f_self st))
              (ArrayUnpacker.f_scope st)) as [sx|] eqn:Hsx; simpl; [|done].
  destruct (Scope.parent sx) as [q|] eqn:Hq; [|by intros [= <-]].
  case_bool_decide as Hnode; [|by intros [= <-]].
  intros [= <-]. unfold descends. simpl.
  destruct (decide (ArrayUnpacker.f_scope st = c)) as [Hc|Hc].
  - rewrite Hc, Hsc in Hsx. injection Hsx as <-.
    destruct Hstays as [?|Hne]; [congruence|]. by destruct (Hne n Hn).
  - destruct (Hparents (ArrayUnpacker.f_scope st) sx) as (q' & Hq' & Hle); [lia|done|].
    rewrite Hq in Hq'. injection Hq' as <-.
    split; [lia|]. split; [done|]. split; [by exists sc|done].
Qed.

(** A discovery walk that starts in the scope [c] leaves the [children] of
    the scopes older than [c] as they are. *)
Lemma findArrays_walk_descends c N h0 (t : Node) p st st' :
  (forall n, n ∈ nodes t -> n ∈ N) ->
  descends c N h0 st ->
  traverse ArrayUnpacker.findArrays_enter ArrayUnpacker.findArrays_leave t p st = Ok st' ->
  descends c N h0 st'.
Proof.
  intros Hsub. apply traverse_invariant.
  - intros n q u u' _. apply findArrays_enter_descends.
  - intros n u u' Hn. apply findArrays_leave_descends. by apply Hsub.
Qed.
End DiscoveryRegisters.

Section DiscoveryWalkRegisters.
Implicit Types (h : Scope.Store ArrayId) (st : ArrayUnpacker.Finding).

Lemma top_ids_Inner (id : NodeId) (type : InnerType) (children : list (option Node)) :
  top_ids (Inner id type children)
  = if ArrayUnpacker.isScopeType (Inner id type children) then [id]
    else flat_map (fun slot => match slot with
                               | Some c => top_ids c
                               | None => []
                               end) children.
Proof. reflexivity. Qed.

Lemma discovery_registers_children (children : list (option Node)) :
  Forall (fun slot => match slot with
                      | Some c => discovery_registers c /\ ArrayUnpacker.discovery_mirrors c
                      | None => True
                      end) children ->
  forall (parent : option Node) st st' (ss : Scope.t ArrayId),
    (forall c, Some c ∈ children ->
       ArrayUnpacker.stays_all (ArrayUnpacker.scopes (ArrayUnpacker.f_self st))
         (ArrayUnpacker.f_scope st) (nodes c)) ->
    Scope.deref (ArrayUnpacker.scopes (ArrayUnpacker.f_self st)) (ArrayUnpacker.f_scope st)
    = Some ss ->
    visit_each
      (fun c => traverse ArrayUnpacker.findArrays_enter ArrayUnpacker.findArrays_leave c parent)
      children st = Ok st' ->
    ArrayUnpacker.f_scope st' = ArrayUnpacker.f_scope st
    /\ length (ArrayUnpacker.scopes (ArrayUnpacker.f_self st))
       ≤ length (ArrayUnpacker.scopes (ArrayUnpacker.f_self st'))
    /\ exists ss',
         Scope.deref (ArrayUnpacker.scopes (ArrayUnpacker.f_self st')) (ArrayUnpacker.f_scope st)
         = Some ss'
         /\ registers (length (ArrayUnpacker.scopes (ArrayUnpacker.f_self st)))
              (flat_map (fun slot => match slot with
                                     | Some c => top_ids c
                                     | None => []
                                     end) children)
              (Scope.children ss) (Scope.children ss').
Proof.
  induction 1 as [|[c|] cs Hc _ IH]; cbn [flat_map visit_each];
    intros parent st st' ss Hstays Hss.
  - intros [= <-]. split; [done|]. split; [done|]. exists ss. split; [done|].
    apply registers_refl.
  - destruct Hc as [Hreg Hmir].
    destruct (traverse _ _ c parent st) as [st1|] eqn:Hwalk; simpl; [|done]. intros Hrest.
    assert (Hstay_c : ArrayUnpacker.stays_all (ArrayUnpacker.scopes (ArrayUnpacker.f_self st))
                        (ArrayUnpacker.f_scope st) (nodes c))
      by (apply Hstays, elem_of_cons; by left).
    destruct (Hmir parent st st1 Hstay_c Hwalk) as (Hscope1 & Hext1 & _).
    destruct (Hreg parent st st1 ss Hstay_c Hss Hwalk) as (ss1 & Hss1 & Hreg1).
    pose proof (findArrays_walk_opens _ _ _ _ Hwalk) as Hlen1.
    destruct (IH parent st1 st' ss1) as (Hscope' & Hlen' & ss' & Hss' & Hreg');
      [| |exact Hrest|].
    { intros c' Hc'. rewrite Hscope1. eapply stays_all_extends; [exact Hext1|].
      apply Hstays, elem_of_cons. by right. }
    { by rewrite Hscope1. }
    split; [congruence|]. split; [lia|]. exists ss'. rewrite Hscope1 in Hss'.
    split; [done|]. eapply registers_trans; [|exact Hreg1|exact Hreg']. lia.
  - intros Hrest. apply (IH parent st st' ss); [|done|done].
    intros c' Hc'. apply Hstays, elem_of_cons. by right.
Qed.

Lemma findArrays_walk_registers (t : Node) :
  NoDup (ArrayUnpacker.scope_ids t) ->
  (forall n, n ∈ nodes t -> ArrayUnpacker.isScopeType n = false ->
             node_id n ∉ ArrayUnpacker.scope_ids t) ->
  discovery_registers t.
Proof.
  induction t as [id type|id type children IH] using Node_ind;
    intros Hnd Hplain p st st' ss Hstays Hss.
  - cbn [traverse]. simpl. rewrite findArrays_leave_stays.
    + intros [= <-]. exists ss. split; [done|apply registers_refl].
    + eapply (stays_all_stays _ _ _ (Leaf id type)); [exact Hstays|apply nodes_self].
  - rewrite scope_ids_Inner in Hnd.
    assert (Hparts : forall c, Some c ∈ children ->
              NoDup (ArrayUnpacker.scope_ids c)
              /\ (forall n, n ∈ nodes c -> ArrayUnpacker.isScopeType n = false ->
                            node_id n ∉ ArrayUnpacker.scope_ids c)).
    { intros c Hc. split.
      - apply NoDup_app in Hnd as (_ & _ & Hnd).
        clear -Hnd Hc. induction children as [|slot cs IHcs]; [by apply elem_of_nil in Hc|].
        simpl in Hnd. apply NoDup_app in Hnd as (Hhead & _ & Htail).
        apply elem_of_cons in Hc as [<-|Hc]; [done|by apply IHcs].
      - intros n Hn Hscope Hk. eapply (Hplain n); [by eapply nodes_child|done|].
        by eapply scope_ids_child. }
    assert (Hmir : Forall (fun slot => match slot with
                                       | Some c => ArrayUnpacker.discovery_mirrors c
                                       | None => True
                                       end) children).
    { apply Forall_forall. intros [c|] Hc; [|done].
      destruct (Hparts c Hc). by apply findArrays_walk_mirrors. }
    assert (Hboth : Forall (fun slot => match slot with
                                        | Some c => discovery_registers c
                                                    /\ ArrayUnpacker.discovery_mirrors c
                                        | None => True
                                        end) children).
    { rewrite Forall_forall in IH. apply Forall_forall. intros [c|] Hc; [|done].
      destruct (Hparts c Hc). split; [by apply (IH (Some c) Hc)|].
      by apply findArrays_walk_mirrors. }
    clear IH. rewrite top_ids_Inner. cbn [traverse].
    set (node := Inner id type children) in *.
    destruct (ArrayUnpacker.findArrays_enter node p st) as [st1|] eqn:Henter;
      cbn [bind]; [|done].
    destruct (visit_each _ children st1) as [st2|] eqn:Hloop; cbn [bind]; [|done].
    intros Hleave.
    apply NoDup_app in Hnd as (_ & Hhead & Hnd).
    destruct (ArrayUnpacker.isScopeType node) eqn:Hscope.
    + (* a block or a function body *)
      unfold ArrayUnpacker.findArrays_enter in Henter. rewrite Hscope in Henter.
      destruct (Scope.new _ _ _ _) as [c h1] eqn:Hnew. injection Henter as <-.
      pose proof (deref_lt _ _ _ Hss) as Hlt.
      destruct (new_registers _ _ _ _ _ _ Hlt Hnew) as (-> & Hc & _).
      destruct (new_get _ _ _ _ _ _ Hnew) as (_ & Hlen1 & _).
      assert (Hfresh : forall c' n, Some c' ∈ children -> n ∈ nodes c' -> id ≠ node_id n).
      { intros c' n Hc' Hn Heq.
        destruct (ArrayUnpacker.isScopeType n) eqn:Hn_scope.
        - apply (Hhead id); [by apply list_elem_of_singleton|].
          rewrite Heq. apply list_elem_of_In, in_flat_map. exists (Some c').
          split; [by apply list_elem_of_In|]. apply list_elem_of_In.
          by apply scope_ids_nodes.
        - apply (Hplain n); [by eapply nodes_child|done|].
          rewrite <- Heq. unfold node. rewrite scope_ids_Inner. fold node. rewrite Hscope.
          apply elem_of_app. left. by apply list_elem_of_singleton. }
      pose proof (fun Hst => discovery_mirrors_children children Hmir Hnd _ _ _ Hst Hloop)
        as Hchildren.
      destruct Hchildren as (Hscope2 & Hext2 & _).
      { intros c' Hc'. simpl. eexists. split; [exact Hc|]. right. simpl.
        intros n Hn. by apply (Hfresh c'). }
      simpl in Hscope2, Hext2.
      destruct (Hext2 _ _ Hc) as (sc2 & Hsc2 & Hnode2 & Hparent2 & _).
      simpl in Hnode2, Hparent2.
      unfold ArrayUnpacker.findArrays_leave, ArrayUnpacker.the_scope in Hleave.
      simpl in Hleave. rewrite Hscope2, Hsc2 in Hleave. simpl in Hleave.
      rewrite Hparent2, bool_decide_true in Hleave by done. injection Hleave as <-.
      simpl.
      (* the children of the scope the walk started with *)
      set (N := flat_map (fun slot => match slot with
                                      | Some c => nodes c
                                      | None => []
                                      end) children).
      assert (Hd : descends (length (ArrayUnpacker.scopes (ArrayUnpacker.f_self st))) N h1 st2).
      { eapply (visit_each_invariant (descends _ N h1)); [| |exact Hloop].
        - intros c' u u' Hc'. apply findArrays_walk_descends.
          intros n Hn. unfold N. apply list_elem_of_In, in_flat_map. exists (Some c').
          split; by apply list_elem_of_In.
        - unfold descends. simpl. split; [lia|]. split; [|split].
          + intros x sx Hx Hsx. apply deref_lt in Hsx. lia.
          + eexists. split; [exact Hc|]. right. simpl. intros n Hn.
            unfold N in Hn. apply list_elem_of_In, in_flat_map in Hn as ([c'|] & Hc' & Hn);
              [|done].
            apply list_elem_of_In in Hc', Hn. by apply (Hfresh c').
          + intros i s Hi Hs. by exists s. }
      destruct Hd as (_ & _ & _ & Holder).
      injection Hnew as <-.
      destruct (Holder (ArrayUnpacker.f_scope st)
                  (Scope.mk (Scope.node ss) (Scope.type ss) (Scope.parent ss)
                     (map_set (Scope.children ss) id
                        (length (ArrayUnpacker.scopes (ArrayUnpacker.f_self st))))
                     (Scope.elements ss))) as (ss2 & Hss2 & Hchildren2); [done| |].
      { rewrite deref_older by (unfold Scope.set_child; rewrite update_length; lia).
        unfold Scope.set_child. by rewrite (deref_update_eq _ _ _ _ Hss). }
      exists ss2. split; [done|]. rewrite Hchildren2. simpl. by apply registers_set.
    + (* any other node *)
      destruct (findArrays_enter_plain _ _ _ _ Hscope Henter) as (Hscope1 & Hext1).
      destruct (findArrays_enter_plain_children _ _ _ _ Hscope Henter) as [Hlen1 Hkeep1].
      destruct (Hkeep1 _ _ Hss) as (ss1 & Hss1 & _ & _ & Hchildren1).
      destruct (discovery_registers_children children Hboth (Some node) st1 st2 ss1)
        as (Hscope2 & Hlen2 & ss2 & Hss2 & Hreg2); [| |exact Hloop|].
      { intros c' Hc'. rewrite Hscope1. eapply stays_all_extends; [exact Hext1|].
        eapply stays_all_subseteq; [exact Hstays|]. intros n Hn. by eapply nodes_child. }
      { by rewrite Hscope1. }
      destruct (discovery_mirrors_children children Hmir Hnd (Some node) st1 st2)
        as (_ & Hext2 & _); [|exact Hloop|].
      { intros c' Hc'. rewrite Hscope1. eapply stays_all_extends; [exact Hext1|].
        eapply stays_all_subseteq; [exact Hstays|]. intros n Hn. by eapply nodes_child. }
      assert (Hstay2 : ArrayUnpacker.stays (ArrayUnpacker.scopes (ArrayUnpacker.f_self st2))
                         (ArrayUnpacker.f_scope st) (node_id node)).
      { eapply stays_extends; [exact Hext2|]. eapply stays_extends; [exact Hext1|].
        eapply stays_all_stays; [exact Hstays|apply nodes_self]. }
      rewrite findArrays_leave_stays in Hleave by (by rewrite Hscope2, Hscope1).
      injection Hleave as <-.
      exists ss2. rewrite Hscope1 in Hss2. split; [done|].
      rewrite Hlen1, Hchildren1 in Hreg2. done.
Qed.
End DiscoveryWalkRegisters.

(** ** [arrayUnpacker.ts]: the rewrite keeps the blocks of the tree *)

Lemma top_ids_sublist (t : Node) : top_ids t `sublist_of` ArrayUnpacker.scope_ids t.
Proof.
  induction t as [id type|id type children IH] using Node_ind; [done|].
  rewrite top_ids_Inner, scope_ids_Inner.
  destruct (ArrayUnpacker.isScopeType _).
  - apply sublist_skip, sublist_nil_l.
  - simpl. induction IH as [|[c|] cs Hc _ IHcs]; simpl; [done| |done].
    by apply sublist_app.
Qed.

Lemma top_ids_nil (t : Node) : ArrayUnpacker.scope_ids t = [] -> top_ids t = [].
Proof.
  intros Hnil. pose proof (top_ids_sublist t) as Hsub. rewrite Hnil in Hsub.
  by apply sublist_nil_r.
Qed.

Lemma isSimpleArrayAccess_no_block (a : Node) :
  ArrayUnpacker.isSimpleArrayAccess a = true ->
  ArrayUnpacker.scope_ids a = [] /\ ArrayUnpacker.isLiteral a = false.
Proof.
  destruct a as [|id [] [|[[ido []|]|] [|[[idi []|]|] [|]]]]; try done.
Qed.

Lemma replaceNode_keeps_blocks (parent node : NodeId) (replacement t : Node) :
  ArrayUnpacker.isLiteral replacement = true ->
  (forall c, c ∈ nodes t -> node_id c = node -> ArrayUnpacker.scope_ids c = []) ->
  ArrayUnpacker.scope_ids (replaceNode parent node replacement t) = ArrayUnpacker.scope_ids t
  /\ top_ids (replaceNode parent node replacement t) = top_ids t.
Proof.
  intros Hliteral. destruct (isLiteral_leaf _ Hliteral) as (_ & Hr & _).
  induction t as [id type|id type children IH] using Node_ind; intros Hfree; [done|].
  cbn [replaceNode]. rewrite !scope_ids_Inner, !top_ids_Inner.
  assert (Hchildren :
            flat_map (fun slot => match slot with
                                  | Some c => ArrayUnpacker.scope_ids c
                                  | None => []
                                  end)
              (map (fun slot =>
                      match slot with
                      | Some c =>
                          if bool_decide (id = parent) && bool_decide (node_id c = node)
                          then Some replacement
                          else Some (replaceNode parent node replacement c)
                      | None => None
                      end) children)
            = flat_map (fun slot => match slot with
                                    | Some c => ArrayUnpacker.scope_ids c
                                    | None => []
                                    end) children
            /\ flat_map (fun slot => match slot with
                                     | Some c => top_ids c
                                     | None => []
                                     end)
                 (map (fun slot =>
                         match slot with
                         | Some c =>
                             if bool_decide (id = parent) && bool_decide (node_id c = node)
                             then Some replacement
                             else Some (replaceNode parent node replacement c)
                         | None => None
                         end) children)
               = flat_map (fun slot => match slot with
                                       | Some c => top_ids c
                                       | None => []
                                       end) children).
  { assert (Hsub : forall c, Some c ∈ children ->
              forall c', c' ∈ nodes c -> node_id c' = node -> ArrayUnpacker.scope_ids c' = []).
    { intros c Hc c' Hc'. apply Hfree. by eapply nodes_child. }
    clear Hfree. induction IH as [|[c|] cs Hc _ IHcs]; simpl; [done| |].
    - destruct IHcs as [IH1 IH2].
      { intros c0 Hc0. apply Hsub, elem_of_cons. by right. }
      assert (Hhere : forall c', c' ∈ nodes c -> node_id c' = node ->
                                 ArrayUnpacker.scope_ids c' = [])
        by (apply Hsub, elem_of_cons; by left).
      destruct (bool_decide (id = parent) && bool_decide (node_id c = node)) eqn:Hhit.
      + apply andb_prop in Hhit as [_ Hnode%bool_decide_eq_true].
        pose proof (Hhere c (nodes_self c) Hnode) as Hnil.
        rewrite Hr, Hnil, (top_ids_nil _ Hr), (top_ids_nil _ Hnil). simpl. by rewrite IH1, IH2.
      + destruct (Hc Hhere) as [-> ->]. by rewrite IH1, IH2.
    - apply IHcs. intros c0 Hc0. apply Hsub, elem_of_cons. by right. }
  destruct Hchildren as [-> ->]. done.
Qed.

Lemma unpackArrays_enter_keeping (self : ArrayUnpacker.t) (n : Node) (p : option Node)
    (s s' : ArrayUnpacker.Unpacking) :
  n ∈ nodes (ArrayUnpacker.ast self) ->
  keeping_blocks self s ->
  ArrayUnpacker.unpackArrays_enter n p s = Ok s' ->
  keeping_blocks self s'.
Proof.
  intros Hn Hs. pose proof Hs as (Hdistinct & Hfree & Hids & Htop & Hliteral).
  unfold ArrayUnpacker.unpackArrays_enter.
  destruct (ArrayUnpacker.isScopeType n).
  { destruct (ArrayUnpacker.the_scope _ _); simpl; [|done]. by intros [= <-]. }
  destruct (ArrayUnpacker.isSimpleArrayAccess n) eqn:Haccess; [|by intros [= <-]].
  destruct (ArrayUnpacker.object_name n) as [name|]; simpl; [|done].
  destruct (ArrayUnpacker.defined _) as [scope|]; simpl; [|done].
  destruct (Scope.get _ scope name) as [array|]; [|by intros [= <-]].
  destruct (ArrayUnpacker.expression_value n) as [index|]; simpl; [|done].
  destruct (_ !! array) as [descriptor|] eqn:Harray; [|done].
  destruct (ArrayUnpacker.element_at _ index) as [[replacement|]|] eqn:Helement;
    [|by intros [= <-]..].
  destruct p as [p|]; [|done]. intros [= <-]. unfold keeping_blocks. simpl.
  assert (Hr : ArrayUnpacker.isLiteral replacement = true).
  { apply (Hliteral descriptor); [by eapply list_elem_of_lookup_2|].
    unfold ArrayUnpacker.element_at in Helement.
    destruct (_ && _); [|done]. by eapply list_elem_of_lookup_2. }
  destruct (isLiteral_leaf _ Hr) as (_ & Hr_ids & Hr_nodes).
  set (t := ArrayUnpacker.ast (ArrayUnpacker.u_self s)) in *.
  assert (Hhit : forall c, c ∈ nodes t -> node_id c = node_id n ->
                           ArrayUnpacker.scope_ids c = [])
    by (intros c Hc Hid; by apply (Hfree n c)).
  assert (Himage : forall m0, m0 ∈ nodes t ->
            ArrayUnpacker.scope_ids (replaceNode (node_id p) (node_id n) replacement m0)
            = ArrayUnpacker.scope_ids m0).
  { intros m0 Hm0. apply replaceNode_keeps_blocks; [done|].
    intros c Hc. apply Hhit. by eapply nodes_trans. }
  split; [|split; [|split; [|split]]].
  - intros m m' Hm Hm' Hid Hlit Hlit'.
    apply replaceNode_images in Hm as [Hm|(m0 & Hm0 & ->)].
    { rewrite Hr_nodes in Hm. apply list_elem_of_singleton in Hm as ->. congruence. }
    apply replaceNode_images in Hm' as [Hm'|(m0' & Hm0' & ->)].
    { rewrite Hr_nodes in Hm'. apply list_elem_of_singleton in Hm' as ->. congruence. }
    f_equal. apply Hdistinct; try done.
    + by rewrite !(proj1 (replaceNode_node_id _ _ _ _)) in Hid.
    + by rewrite (proj2 (replaceNode_node_id _ _ _ _)) in Hlit.
    + by rewrite (proj2 (replaceNode_node_id _ _ _ _)) in Hlit'.
  - intros a c Ha Ha_access Hc Hid.
    apply replaceNode_images in Hc as [Hc|(c0 & Hc0 & ->)].
    { rewrite Hr_nodes in Hc. by apply list_elem_of_singleton in Hc as ->. }
    rewrite Himage by done. apply (Hfree a c0); try done.
    by rewrite (proj1 (replaceNode_node_id _ _ _ _)) in Hid.
  - rewrite <- Hids. by apply replaceNode_keeps_blocks.
  - rewrite <- Htop. by apply replaceNode_keeps_blocks.
  - intros d e Hd He. apply list_elem_of_lookup in Hd as [j Hj].
    destruct (decide (array = j)) as [->|Hne].
    + rewrite list_lookup_insert_eq in Hj by (by eapply lookup_lt_Some).
      injection Hj as <-. apply (Hliteral descriptor); [|exact He].
      by eapply list_elem_of_lookup_2.
    + rewrite list_lookup_insert_ne in Hj by done.
      eapply Hliteral; [|exact He]. by eapply list_elem_of_lookup_2.
Qed.

Lemma unpackArrays_keeps_blocks (self self' : ArrayUnpacker.t) :
  nonliterals_distinct (ArrayUnpacker.ast self) ->
  (forall d e, d ∈ ArrayUnpacker.arrays self -> Some e ∈ Array.elements d ->
               ArrayUnpacker.isLiteral e = true) ->
  ArrayUnpacker.unpackArrays self = Ok self' ->
  nonliterals_distinct (ArrayUnpacker.ast self')
  /\ ArrayUnpacker.scope_ids (ArrayUnpacker.ast self')
     = ArrayUnpacker.scope_ids (ArrayUnpacker.ast self)
  /\ top_ids (ArrayUnpacker.ast self') = top_ids (ArrayUnpacker.ast self).
Proof.
  intros Hdistinct Hliteral. unfold ArrayUnpacker.unpackArrays.
  destruct (traverse _ _ _ _ _) as [s|] eqn:Hwalk; simpl; [|done]. intros [= <-].
  assert (Hs : keeping_blocks self s); [|by destruct Hs as (? & _ & ? & ? & _)].
  eapply (traverse_invariant _ _ (keeping_blocks self)); [| | |exact Hwalk].
  - intros n p t t' Hn. by apply unpackArrays_enter_keeping.
  - intros n t t' _ Ht Hleave. apply unpackArrays_leave_self in Hleave.
    unfold keeping_blocks. by rewrite Hleave.
  - split; [done|]. split; [|done].
    intros a c Ha Ha_access Hc Hid. simpl in Hc.
    destruct (isSimpleArrayAccess_no_block _ Ha_access) as [Hnil Ha_literal].
    destruct (ArrayUnpacker.isLiteral c) eqn:Hc_literal.
    + by destruct (isLiteral_leaf _ Hc_literal) as (_ & ? & _).
    + by rewrite (Hdistinct c a Hc Ha Hid Hc_literal Ha_literal).
Qed.

(** ** [arrayUnpacker.ts]: the scopes of the last discovery round *)

Lemma map_set_keys {K V} `{EqDecision K} (m : JsMap K V) (k k' : K) (v : V) :
  k' ∈ (map_set m k v).*1 -> k' ∈ m.*1 \/ k' = k.
Proof.
  induction m as [|[k0 v0] m IH]; simpl.
  - intros ->%list_elem_of_singleton. by right.
  - destruct (decide (k = k0)) as [->|Hne]; rewrite !fmap_cons; simpl.
    + intros [->|Hin]%elem_of_cons; [by right|]. left. apply elem_of_cons. by right.
    + intros [->|Hin]%elem_of_cons; [left; apply elem_of_cons; by left|].
      destruct (IH Hin) as [?|?]; [|by right]. left. apply elem_of_cons. by right.
Qed.

Lemma map_set_NoDup {K V} `{EqDecision K} (m : JsMap K V) (k : K) (v : V) :
  NoDup m.*1 -> NoDup (map_set m k v).*1.
Proof.
  induction m as [|[k0 v0] m IH]; simpl.
  - intros _. apply NoDup_singleton.
  - destruct (decide (k = k0)) as [->|Hne]; rewrite !fmap_cons; simpl; [done|].
    rewrite !NoDup_cons. intros [Hk0 Hnd]. split; [|by apply IH].
    intros [?|?]%map_set_keys; [done|congruence].
Qed.

Lemma map_get_elem_of {K V} `{EqDecision K} (m : JsMap K V) (k : K) (v : V) :
  NoDup m.*1 -> (k, v) ∈ m -> map_get m k = Some v.
Proof.
  induction m as [|[k0 v0] m IH]; simpl; [by intros _ ?%elem_of_nil|].
  rewrite ?fmap_cons, NoDup_cons. simpl. intros [Hk0 Hnd] [[= -> ->]|Hin]%elem_of_cons.
  - by rewrite decide_True.
  - rewrite decide_False; [by apply IH|].
    intros ->. apply Hk0, list_elem_of_fmap. by exists (k0, v).
Qed.

Lemma findArrays_enter_opening (L : nat) (n : Node) (p : option Node)
    (s s' : ArrayUnpacker.Finding) :
  opening_empty L s ->
  ArrayUnpacker.findArrays_enter n p s = Ok s' ->
  opening_empty L s'.
Proof.
  intros (HL & Hkeys & Hempty). unfold ArrayUnpacker.findArrays_enter.
  destruct (ArrayUnpacker.isScopeType n).
  { cbn [Scope.new]. intros [= <-]. unfold opening_empty. simpl.
    unfold Scope.set_child. rewrite update_length. split; [lia|]. split.
    - intros i ss. case_decide.
      + intros [= <-]. simpl. apply NoDup_nil_2.
      + rewrite deref_update_at.
        destruct (Scope.deref _ i) as [s0|] eqn:Hs0; simpl; [|done].
        intros [= <-]. pose proof (Hkeys i s0 Hs0) as Hnd.
        case_decide; simpl; [by apply map_set_NoDup|done].
    - intros Hfound i ss Hi. case_decide.
      + by intros [= <-].
      + rewrite deref_update_at.
        destruct (Scope.deref _ i) as [s0|] eqn:Hs0; simpl; [|done].
        intros [= <-]. pose proof (Hempty Hfound i s0 Hi Hs0) as Hnil.
        by case_decide. }
  destruct (_ && _); [|by intros [= <-]].
  destruct (ArrayUnpacker.binding_name n) as [name|]; simpl; [|done].
  destruct (ArrayUnpacker.init_elements n) as [elements|]; simpl; [|done].
  intros [= <-]. unfold opening_empty. simpl.
  unfold Scope.set_element. rewrite update_length. split; [done|]. split; [|done].
  intros i ss. rewrite deref_update_at.
  destruct (Scope.deref _ i) as [s0|] eqn:Hs0; simpl; [|done].
  intros [= <-]. pose proof (Hkeys i s0 Hs0) as Hnd. by case_decide.
Qed.

Lemma findArrays_opening (self : ArrayUnpacker.t) (found : bool) (self' : ArrayUnpacker.t) :
  (forall i ss, Scope.deref (ArrayUnpacker.scopes self) i = Some ss ->
                NoDup (Scope.children ss).*1) ->
  ArrayUnpacker.findArrays self = Ok (found, self') ->
  (forall i ss, Scope.deref (ArrayUnpacker.scopes self') i = Some ss ->
                NoDup (Scope.children ss).*1)
  /\ (found = false ->
      forall i ss, length (ArrayUnpacker.scopes self) ≤ i ->
                   Scope.deref (ArrayUnpacker.scopes self') i = Some ss ->
                   Scope.elements ss = []).
Proof.
  intros Hkeys. unfold ArrayUnpacker.findArrays.
  destruct (traverse _ _ _ _ _) as [s|] eqn:Hwalk; simpl; [|done]. intros [= <- <-].
  assert (Hs : opening_empty (length (ArrayUnpacker.scopes self)) s);
    [|by destruct Hs as (_ & ? & ?)].
  eapply (traverse_invariant _ _ (opening_empty (length (ArrayUnpacker.scopes self))));
    [| | |exact Hwalk].
  - intros n p t t' _. apply findArrays_enter_opening.
  - intros n t t' _ Ht Hleave. apply findArrays_leave_self in Hleave as [Hself Hfound].
    unfold opening_empty. by rewrite Hself, Hfound.
  - split; [done|]. split; [done|]. simpl. intros _ i ss Hi Hss%deref_lt. lia.
Qed.

Lemma findArrays_registers (self : ArrayUnpacker.t) (found : bool) (self' : ArrayUnpacker.t)
    (root : Scope.t ArrayId) :
  ArrayUnpacker.well_formed self ->
  ArrayUnpacker.findArrays self = Ok (found, self') ->
  Scope.deref (ArrayUnpacker.scopes self) (ArrayUnpacker.globalScope self) = Some root ->
  exists root',
    Scope.deref (ArrayUnpacker.scopes self') (ArrayUnpacker.globalScope self) = Some root'
    /\ registers (length (ArrayUnpacker.scopes self)) (top_ids (ArrayUnpacker.ast self))
         (Scope.children root) (Scope.children root').
Proof.
  intros (Htree & _ & (Hnd & Hplain & _) & _). unfold ArrayUnpacker.findArrays.
  destruct (traverse _ _ _ _ _) as [s|] eqn:Hwalk; simpl; [|done]. intros [= <- <-] Hroot.
  apply (findArrays_walk_registers _ Hnd Hplain None _ _ root) in Hwalk; [done| |done].
  destruct Htree as ((r & Hr & Hnone) & _). exists r. split; [done|by left].
Qed.

(** ** [arrayUnpacker.ts]: what the loop keeps true *)

Lemma new_settled (tree : Node) (removeArrays : bool) :
  NoDup (node_id <$> nodes tree) ->
  ArrayUnpacker.isProgram tree = true ->
  settled (ArrayUnpacker.new tree removeArrays).
Proof.
  intros Hnd Hprogram. split; [by apply new_well_formed|]. split; [|split].
  - intros m n Hm Hn Hid _ _. by eapply NoDup_fmap_elem_of_inj.
  - intros root k. simpl. intros [= <-]. simpl. by intros ?%is_Some_None.
  - intros i s. simpl. case_decide; [|done]. intros [= <-]. simpl. apply NoDup_nil_2.
Qed.

Lemma findArrays_settled (self : ArrayUnpacker.t) (found : bool) (self' : ArrayUnpacker.t) :
  settled self ->
  ArrayUnpacker.findArrays self = Ok (found, self') ->
  settled self'.
Proof.
  intros (Hwf & Hdistinct & Hroot & Hkeys) Hfind.
  destruct (findArrays_well_formed _ _ _ Hwf Hfind) as [Hwf' _].
  destruct (findArrays_scopes _ _ _ (proj1 Hwf) Hfind) as [Hglobal _].
  destruct (findArrays_opening _ _ _ Hkeys Hfind) as [Hkeys' _].
  pose proof (findArrays_frame _ _ _ Hfind) as (Hast & _).
  split; [done|]. split; [by rewrite Hast|]. split; [|done].
  intros root' k. rewrite Hglobal, Hast.
  destruct (proj1 Hwf) as ((root & Hr & _) & _).
  destruct (findArrays_registers _ _ _ root Hwf Hfind Hr) as (r' & Hr' & Hregisters & _).
  rewrite Hr'. intros [= <-] Hk.
  destruct (Hregisters k Hk) as [Hold|Hin]; [|done]. by apply (Hroot root).
Qed.

Lemma unpackArrays_settled (self self' : ArrayUnpacker.t) :
  settled self ->
  ArrayUnpacker.unpackArrays self = Ok self' ->
  settled self'
  /\ ArrayUnpacker.scope_ids (ArrayUnpacker.ast self')
     = ArrayUnpacker.scope_ids (ArrayUnpacker.ast self).
Proof.
  intros (Hwf & Hdistinct & Hroot & Hkeys) Hunpack.
  assert (Hwf2 : ArrayUnpacker.well_formed self').
  { destruct Hwf as (Htree & Hbound & Hblocks & Hprogram).
    destruct (unpackArrays_distinct _ _ Hblocks Hprogram Hunpack) as [Hblocks' Hprogram'].
    destruct (unpackArrays_counting _ _ Hunpack) as [Hall _].
    pose proof (Forall2_length _ _ _ Hall) as Hlen.
    destruct (unpackArrays_scopes _ _ Hunpack) as (Hglobal & Hscopes & _).
    split; [by rewrite Hglobal, Hscopes|]. split; [|done].
    intros i ss name array. rewrite Hscopes, <- Hlen. apply Hbound. }
  assert (Hliteral : forall d e, d ∈ ArrayUnpacker.arrays self ->
                                 Some e ∈ Array.elements d ->
                                 ArrayUnpacker.isLiteral e = true).
  { intros d e Hd He. destruct Hwf as (_ & _ & (_ & _ & Hel) & _).
    by destruct (Hel d e Hd He). }
  destruct (unpackArrays_keeps_blocks self self' Hdistinct Hliteral Hunpack)
    as (Hdistinct' & Hids & Htop).
  apply unpackArrays_scopes in Hunpack as (Hglobal & Hscopes & _).
  split; [|done]. split; [done|]. split; [done|]. split.
  - intros root k. rewrite Hglobal, Hscopes, Htop. apply Hroot.
  - intros i s. rewrite Hscopes. apply Hkeys.
Qed.

(** The loop ends on a discovery round that finds nothing, on a pass
    object that is settled. *)
Lemma fixpoint_loop_settled (rounds : nat) (self loop : ArrayUnpacker.t) :
  settled self ->
  ArrayUnpacker.fixpoint_loop rounds self = Some (Ok loop) ->
  exists last, settled last /\ ArrayUnpacker.findArrays last = Ok (false, loop).
Proof.
  revert self. induction rounds as [|rounds IH]; intros self Hsettled; simpl; [done|].
  destruct (ArrayUnpacker.findArrays self) as [[[|] self1]|e] eqn:Hfind; [| |done].
  - destruct (ArrayUnpacker.unpackArrays self1) as [self2|e] eqn:Hunpack; [|done].
    apply IH. eapply unpackArrays_settled; [|exact Hunpack].
    by eapply findArrays_settled.
  - intros [= <-]. by exists self.
Qed.

(** X21: the rewrite keeps the blocks.  On a program whose nodes have
    identities of their own, the tree of every pass object of a run has
    the blocks and function bodies of the input tree, in the same order:
    what [replaceNode] takes out of the tree is an access [name[index]],
    which holds no block. *)
Theorem blocks_of_a_run_are_those_of_the_input
    (tree : Node) (removeArrays : bool) (self : ArrayUnpacker.t) :
  NoDup (node_id <$> nodes tree) ->
  ArrayUnpacker.isProgram tree = true ->
  ArrayUnpacker.running tree removeArrays self ->
  ArrayUnpacker.scope_ids (ArrayUnpacker.ast self) = ArrayUnpacker.scope_ids tree.
Proof.
  intros Hnd Hprogram Hrun.
  assert (Hself : settled self
                  /\ ArrayUnpacker.scope_ids (ArrayUnpacker.ast self)
                     = ArrayUnpacker.scope_ids tree); [|by destruct Hself].
  induction Hrun as [|self found self' _ [Hsettled Hids] Hfind
                     |self self' _ [Hsettled Hids] Hunpack].
  - split; [by apply new_settled|done].
  - split; [by eapply findArrays_settled|].
    apply findArrays_frame in Hfind as (-> & _). done.
  - destruct (unpackArrays_settled _ _ Hsettled Hunpack) as [Hsettled' Hids'].
    split; [done|congruence].
Qed.

(** The theorem at [function f() { const a = [1, 2]; a[0]; }], on the pass
    object with which a run without cleanup ends. *)
Lemma blocks_of_a_run_are_those_of_the_input_witness :
  ArrayUnpacker.scope_ids (ArrayUnpacker.ast (Examples.executed_self Examples.in_function false))
  = ArrayUnpacker.scope_ids Examples.in_function.
Proof.
  apply (blocks_of_a_run_are_those_of_the_input Examples.in_function false
           (Examples.executed_self Examples.in_function false)).
  - apply (bool_decide_unpack _). vm_compute. exact I.
  - reflexivity.
  - eapply (ArrayUnpacker.running_findArrays _ _ _ false).
    + eapply (ArrayUnpacker.running_unpackArrays _ _
                (Examples.discovered Examples.in_function false)).
      * apply (ArrayUnpacker.running_findArrays _ _
                 (ArrayUnpacker.new Examples.in_function false) true).
        -- constructor.
        -- vm_compute. reflexivity.
      * vm_compute. reflexivity.
    + vm_compute. reflexivity.
Defined.

(** ** [arrayUnpacker.ts]: the reach of the cleanup *)

Lemma removeArrays_barren (depth L : nat) (self : ArrayUnpacker.t) :
  children_newer (ArrayUnpacker.scopes self) ->
  (forall i ss, L ≤ i -> Scope.deref (ArrayUnpacker.scopes self) i = Some ss ->
                Scope.elements ss = []) ->
  forall scope tree,
    L ≤ scope < length (ArrayUnpacker.scopes self) ->
    length (ArrayUnpacker.scopes self) - scope ≤ depth ->
    ArrayUnpacker.removeArrays depth self scope tree = Some (Ok tree).
Proof.
  intros Hnewer Hempty.
  induction depth as [|depth IH]; intros scope tree Hscope Hdepth; [lia|]. simpl.
  destruct (deref_is_Some (ArrayUnpacker.scopes self) scope) as [s Hs]; [lia|].
  unfold ArrayUnpacker.the_scope. simpl. rewrite Hs.
  rewrite (Hempty scope s) by (done || lia). simpl.
  assert (Hall : forall k c, (k, c) ∈ Scope.children s ->
                   scope < c < length (ArrayUnpacker.scopes self))
    by (intros k c; by apply Hnewer).
  revert Hall. generalize (Scope.children s).
  intros children. induction children as [|[k c] children IHc]; intros Hall; [done|].
  assert (Hc : scope < c < length (ArrayUnpacker.scopes self))
    by (apply (Hall k), elem_of_cons; by left).
  rewrite IH by lia. apply IHc. intros k' c' Hin. apply (Hall k'), elem_of_cons. by right.
Qed.

Lemma removeArrays_root (L : nat) (self : ArrayUnpacker.t) (root : Scope.t ArrayId)
    (tree tree' : Node) :
  children_newer (ArrayUnpacker.scopes self) ->
  (forall i ss, L ≤ i -> Scope.deref (ArrayUnpacker.scopes self) i = Some ss ->
                Scope.elements ss = []) ->
  Scope.deref (ArrayUnpacker.scopes self) (ArrayUnpacker.globalScope self) = Some root ->
  (forall k c, (k, c) ∈ Scope.children root -> L ≤ c) ->
  ArrayUnpacker.removeArrays_elements (ArrayUnpacker.arrays self) (Scope.elements root) tree
  = Ok tree' ->
  ArrayUnpacker.removeArrays (length (ArrayUnpacker.scopes self)) self
    (ArrayUnpacker.globalScope self) tree
  = Some (Ok tree').
Proof.
  intros Hnewer Hempty Hroot Hchildren Helements.
  pose proof (deref_lt _ _ _ Hroot) as Hlt.
  destruct (length (ArrayUnpacker.scopes self)) as [|depth] eqn:Hlen; [lia|]. simpl.
  unfold ArrayUnpacker.the_scope. simpl. rewrite Hroot, Helements.
  assert (Hall : forall k c, (k, c) ∈ Scope.children root ->
                   L ≤ c /\ ArrayUnpacker.globalScope self < c
                            < length (ArrayUnpacker.scopes self)).
  { intros k c Hin. split; [by eapply Hchildren|by eapply Hnewer]. }
  revert Hall. generalize (Scope.children root).
  intros children. induction children as [|[k c] children IHc]; intros Hall; [done|].
  destruct (Hall k c) as [HL Hc]; [apply elem_of_cons; by left|].
  rewrite (removeArrays_barren depth L self Hnewer Hempty) by lia.
  apply IHc. intros k' c' Hin. apply (Hall k'), elem_of_cons. by right.
Qed.

(** X20: on a program whose nodes have identities of their own, a run
    with cleanup enabled returns, and its cleanup is the first loop of
    [removeArrays] on the root scope alone: the scopes that the [children]
    maps lead to are those of the last discovery round, which found
    nothing, so the declarations of arrays in blocks and function bodies
    stay in the tree. *)
Theorem cleanup_reaches_the_root_scope_only (tree : Node) :
  NoDup (node_id <$> nodes tree) ->
  ArrayUnpacker.isProgram tree = true ->
  isDeclarator tree = false ->
  exists loop root tree',
    ArrayUnpacker.fixpoint_loop (S (length (nodes tree))) (ArrayUnpacker.new tree true)
    = Some (Ok loop)
    /\ Scope.deref (ArrayUnpacker.scopes loop) (ArrayUnpacker.globalScope loop) = Some root
    /\ ArrayUnpacker.removeArrays_elements (ArrayUnpacker.arrays loop)
         (Scope.elements root) (ArrayUnpacker.ast loop) = Ok tree'
    /\ ArrayUnpacker.execute (S (length (nodes tree))) (ArrayUnpacker.new tree true)
       = Some (Ok (ArrayUnpacker.with_ast loop tree')).
Proof.
  intros Hnd Hprogram Hkind.
  destruct (running_seen tree true _ (ArrayUnpacker.running_new _ _)) as (Hd & Hs & He).
  destruct (fixpoint_loop_returns (declarators tree) (S (length (nodes tree)))
              (ArrayUnpacker.new tree true)) as [loop Hloop]; [|done..| |].
  { by apply new_well_formed. }
  { pose proof (declarators_size tree) as Hsize.
    assert (Hle : size (declarators tree
                        ∖ ArrayUnpacker.arrayNodes (ArrayUnpacker.new tree true))
                  ≤ size (declarators tree)).
    { apply subseteq_size. intros y Hy. by apply elem_of_difference in Hy as [? _]. }
    lia. }
  destruct (fixpoint_loop_result _ _ _ _ _ (ArrayUnpacker.running_new _ _) Hloop)
    as (last' & Hlast' & Hfind').
  assert (Hrun : ArrayUnpacker.running tree true loop)
    by (by eapply ArrayUnpacker.running_findArrays).
  destruct (running_ready _ _ _ Hkind Hrun) as [(Hnewer & Hbound & Hparents) _].
  destruct (fixpoint_loop_settled _ _ _ (new_settled tree true Hnd Hprogram) Hloop)
    as (last & (Hwf & _ & Hroot & Hkeys) & Hfind).
  destruct (findArrays_opening _ _ _ Hkeys Hfind) as [Hkeys' Hempty].
  destruct (findArrays_scopes _ _ _ (proj1 Hwf) Hfind) as [Hglobal _].
  destruct (proj1 Hwf) as ((r & Hr & _) & _).
  destruct (findArrays_registers _ _ _ r Hwf Hfind Hr) as (root & Hroot' & _ & Hregisters).
  rewrite <- Hglobal in Hroot'.
  destruct (removeArrays_elements_returns (ArrayUnpacker.arrays loop) (Scope.elements root)
              Hparents) with (tree := ArrayUnpacker.ast loop) as [tree' Helements].
  { intros name array. by apply Hbound with (ArrayUnpacker.globalScope loop). }
  exists loop, root, tree'. split; [done|]. split; [done|]. split; [done|].
  unfold ArrayUnpacker.execute. rewrite Hloop, (running_flag _ _ _ Hrun).
  rewrite (removeArrays_root (length (ArrayUnpacker.scopes last)) loop root _ tree');
    try done.
  - by apply Hempty.
  - intros k c Hin. apply (map_get_elem_of _ _ _ (Hkeys' _ _ Hroot')) in Hin.
    destruct (Hregisters k c Hin) as [[Hold Hk]|HL]; [|done].
    exfalso. apply Hk, (Hroot r); [done|by eexists].
Qed.

(** The theorem at [function f() { const a = [1, 2]; a[0]; }]. *)
Lemma cleanup_reaches_the_root_scope_only_witness :
  exists loop root tree',
    ArrayUnpacker.fixpoint_loop (S (length (nodes Examples.in_function)))
      (ArrayUnpacker.new Examples.in_function true)
    = Some (Ok loop)
    /\ Scope.deref (ArrayUnpacker.scopes loop) (ArrayUnpacker.globalScope loop) = Some root
    /\ ArrayUnpacker.removeArrays_elements (ArrayUnpacker.arrays loop)
         (Scope.elements root) (ArrayUnpacker.ast loop) = Ok tree'
    /\ ArrayUnpacker.execute (S (length (nodes Examples.in_function)))
         (ArrayUnpacker.new Examples.in_function true)
       = Some (Ok (ArrayUnpacker.with_ast loop tree')).
Proof.
  apply (cleanup_reaches_the_root_scope_only Examples.in_function).
  - apply (bool_decide_unpack _). vm_compute. exact I.
  - reflexivity.
  - reflexivity.
Defined.
